(** * src/util/fs.js: the copy planner, the copy executor, the symlink
      helper and the directory walker, embedded as programs over the
      file-system primitives they await.

    Every [await] of the source is a node [Await] of a program tree: the
    primitive that is called, and what the function does with the value the
    promise settles to.  Every statement on the planner's own objects (the
    queue, the two sets, the action list, the callbacks) is a node [Do].
    The file system is a parameter: a type of worlds and a function that
    settles one primitive in a world. *)

From Stdlib Require Import ZArith String Ascii List Lia Bool.
From stdpp Require Import gmap strings list.

Open Scope string_scope.
Open Scope list_scope.
Open Scope Z_scope.

(** ** Paths

    [path.sep], [String.prototype.split], [Array.prototype.join] and
    [path.join] (the last one for operands that are already normalised: no
    [.] or [..] segment, no doubled separator). *)

Module Path.

Definition sep_char : ascii := "/"%char.
Definition sep : string := String sep_char EmptyString.

Fixpoint split (s : string) : list string :=
  match s with
  | EmptyString => [EmptyString]
  | String a s' =>
      if Ascii.eqb a sep_char then EmptyString :: split s'
      else match split s' with
           | h :: t => String a h :: t
           | [] => [String a EmptyString]
           end
  end.

Fixpoint join_parts (parts : list string) : string :=
  match parts with
  | [] => EmptyString
  | [p] => p
  | p :: rest => p +:+ sep +:+ join_parts rest
  end.

Definition join (a b : string) : string := a +:+ sep +:+ b.

End Path.

(** ** fs.Stats

    The kind of an entry is read off the file-type bits of [mode], as
    [Stats.prototype.isFile] and its siblings do; times are the numbers
    [+stat.mtime] and [+stat.atime]. *)

Record Stats := mkStats {
  st_mode : Z;
  st_size : Z;
  st_atime : Z;
  st_mtime : Z
}.

Definition S_IFMT : Z := 61440.   (* 0o170000 *)
Definition S_IFREG : Z := 32768.  (* 0o100000 *)
Definition S_IFDIR : Z := 16384.  (* 0o040000 *)
Definition S_IFLNK : Z := 40960.  (* 0o120000 *)

Definition isFile (s : Stats) : bool := Z.land (st_mode s) S_IFMT =? S_IFREG.
Definition isDirectory (s : Stats) : bool := Z.land (st_mode s) S_IFMT =? S_IFDIR.
Definition isSymbolicLink (s : Stats) : bool := Z.land (st_mode s) S_IFMT =? S_IFLNK.

(** ** The planner's data: CopyQueue items, CopyActions, callbacks *)

(** A completion callback is one of the closures the source builds, or one
    the caller put on a queue item. [DoneChild c parent] is the arrow
    function of line 198: [c] names the [remaining] variable it captured. *)
Inductive done_cb :=
| DoneNone                                   (* the field is absent: [noop] *)
| DoneCaller (id : nat)                      (* supplied by the caller *)
| DoneProgress (dest : string)               (* () => events.onProgress(item.dest) *)
| DoneChild (cell : nat) (parent : done_cb). (* () => { if (--remaining === 0) onDone() } *)

Record request := mkRequest {
  src : string;
  dest : string;
  onFresh : option nat;   (* a caller's callback, named by a number *)
  onDone : done_cb
}.

Inductive action :=
| FileAction (a_src a_dest : string) (a_atime a_mtime a_mode : Z)
| SymlinkAction (a_dest a_linkname : string).

Definition is_file_action (a : action) : bool :=
  match a with FileAction _ _ _ _ _ => true | SymlinkAction _ _ => false end.
Definition is_symlink_action (a : action) : bool :=
  match a with FileAction _ _ _ _ _ => false | SymlinkAction _ _ => true end.

(** The caller's callbacks, as they are entered. *)
Inductive callback :=
| OnStart (num : Z)
| OnProgress (dest : string)
| OnFresh (id : nat)
| OnDoneCaller (id : nat).

(** ** Primitives, what they settle to, and errors *)

Inductive op :=
| Lstat (p : string)
| Readdir (p : string)
| Exists (p : string)
| Access (p : string) (m : Z)
| Unlink (p : string)                         (* rimraf *)
| Mkdirp (p : string)
| Readlink (p : string)
| Realpath (p : string)
| FsSymlink (target p : string) (type : option string)
| StreamCopy (from to : string) (m : Z)       (* read stream piped into a write stream *)
| Utimes (p : string) (a m : Z).

Inductive resp :=
| RErr (code : string)
| RUnit
| RBool (b : bool)
| RStats (s : Stats)
| RNames (l : list string)
| RString (s : string).

Inductive error :=
| FsError (code : string)       (* an error of a primitive, with its [code] *)
| JsError (message : string).   (* an error thrown by the code itself *)

Definition has_code (e : error) (c : string) : bool :=
  match e with FsError c' => String.eqb c' c | JsError _ => false end.

(** Statements on the planner's objects. *)
Inductive cmd :=
| FilesAdd (p : string)
| ExtraneousAdd (p : string)
| ExtraneousDelete (p : string)
| ActionsPush (a : action)
| QueuePush (r : request)
| CallFresh (cb : option nat)
| CallDone (cb : done_cb)
| CallStart (n : Z)
| CallProgress (dest : string).

(** ** Programs *)

Inductive proc (A : Type) : Type :=
| Ret (a : A)
| Throw (e : error)
| Do (c : cmd) (k : proc A)
| NewCell (n : Z) (k : nat -> proc A)   (* let remaining = n, captured by closures *)
| Await (o : op) (k : resp -> proc A)
| Diverge.                              (* the unfolding budget of a recursion ran out *)

Arguments Ret {A} a.
Arguments Throw {A} e.
Arguments Do {A} c k.
Arguments NewCell {A} n k.
Arguments Await {A} o k.
Arguments Diverge {A}.

Fixpoint bind {A B : Type} (p : proc A) (f : A -> proc B) : proc B :=
  match p with
  | Ret a => f a
  | Throw e => Throw e
  | Do c k => Do c (bind k f)
  | NewCell n k => NewCell n (fun i => bind (k i) f)
  | Await o k => Await o (fun r => bind (k r) f)
  | Diverge => Diverge
  end.

Fixpoint try_catch {A : Type} (p : proc A) (h : error -> proc A) : proc A :=
  match p with
  | Ret a => Ret a
  | Throw e => h e
  | Do c k => Do c (try_catch k h)
  | NewCell n k => NewCell n (fun i => try_catch (k i) h)
  | Await o k => Await o (fun r => try_catch (k r) h)
  | Diverge => Diverge
  end.

Notation "x <- p ;; q" := (bind p (fun x => q))
  (at level 200, p at level 99, right associativity, only parsing).
Notation "p ;;; q" := (bind p (fun _ => q))
  (at level 200, right associativity, only parsing).

Definition stmt (c : cmd) : proc unit := Do c (Ret tt).

Definition type_error {A : Type} : proc A := Throw (JsError "TypeError").

(** Modelled from the spec: promisify of ./promise.js, which wraps the
    primitives on lines 22-35 and is not among the sources.  The file-system
    primitives are provided services and every call of one is a suspension
    point (sections 5 and 6): the wrapped call returns a promise that is
    resolved with the primitive's result or rejected with its error.  A
    result of another shape than the caller uses is a TypeError. *)
Definition await_unit (o : op) : proc unit :=
  Await o (fun r => match r with RUnit => Ret tt | RErr c => Throw (FsError c) | _ => type_error end).
Definition await_stats (o : op) : proc Stats :=
  Await o (fun r => match r with RStats s => Ret s | RErr c => Throw (FsError c) | _ => type_error end).
Definition await_names (o : op) : proc (list string) :=
  Await o (fun r => match r with RNames l => Ret l | RErr c => Throw (FsError c) | _ => type_error end).
Definition await_bool (o : op) : proc bool :=
  Await o (fun r => match r with RBool b => Ret b | RErr c => Throw (FsError c) | _ => type_error end).
Definition await_string (o : op) : proc string :=
  Await o (fun r => match r with RString s => Ret s | RErr c => Throw (FsError c) | _ => type_error end).

Definition lstat (p : string) : proc Stats := await_stats (Lstat p).
Definition readdir (p : string) : proc (list string) := await_names (Readdir p).
Definition exists_ (p : string) : proc bool := await_bool (Exists p).
Definition access (p : string) (m : Z) : proc unit := await_unit (Access p m).
Definition unlink (p : string) : proc unit := await_unit (Unlink p).
Definition mkdirp (p : string) : proc unit := await_unit (Mkdirp p).
Definition readlink (p : string) : proc string := await_string (Readlink p).
Definition realpath (p : string) : proc string := await_string (Realpath p).
Definition fsSymlink (target p : string) (type : option string) : proc unit :=
  await_unit (FsSymlink target p type).

Definition invariant {A : Type} (v : option A) (msg : string) : proc A :=
  match v with Some a => Ret a | None => Throw (JsError msg) end.

Fixpoint for_each {A : Type} (l : list A) (body : A -> proc unit) : proc unit :=
  match l with
  | [] => Ret tt
  | x :: rest => body x ;;; for_each rest body
  end.

(** ** build (lines 106-219)

    [fuel] bounds how often [build] may call itself on the same item
    (line 132). *)

(** Lines 181-185: [destParts] is split once, and joined again before each
    [pop]. *)
Fixpoint pop_all (n : nat) (parts : list string) : list string :=
  match n with
  | O => []
  | S n' =>
      match parts with
      | [] => []
      | _ => Path.join_parts parts :: pop_all n' (removelast parts)
      end
  end.

Definition dest_prefixes (dest : string) : list string :=
  let destParts := Path.split dest in pop_all (length destParts) destParts.

Definition indexOf_lt0 (l : list string) (x : string) : bool :=
  negb (bool_decide (x ∈ l)).

(** Lines 154-165: the children of [dest] that [src] does not have. *)
Definition scan_dest (dest : string) (srcFiles destFiles : list string) : proc unit :=
  for_each destFiles (fun file =>
    if indexOf_lt0 srcFiles file then
      let loc := Path.join dest file in
      stmt (ExtraneousAdd loc) ;;;
      st <- lstat loc ;;
      if isDirectory st then
        names <- readdir loc ;;
        for_each names (fun file => stmt (ExtraneousAdd (Path.join loc file)))
      else Ret tt
    else Ret tt).

(** Lines 169-218: what is done for the source entry, by its kind. *)
Definition copy_entry (data : request) (srcStat : Stats)
    (srcFiles : option (list string)) : proc unit :=
  let src := src data in
  let dest := dest data in
  let onDone := onDone data in
  let onFresh := onFresh data in
  if isSymbolicLink srcStat then
    stmt (CallFresh onFresh) ;;;
    linkname <- readlink src ;;
    stmt (ActionsPush (SymlinkAction dest linkname)) ;;;
    stmt (CallDone onDone)
  else if isDirectory srcStat then
    mkdirp dest ;;;
    for_each (dest_prefixes dest) (fun p => stmt (FilesAdd p)) ;;;
    srcFiles <- invariant srcFiles "src files not initialised" ;;
    NewCell (Z.of_nat (length srcFiles)) (fun remaining =>
      (if Z.of_nat (length srcFiles) =? 0 then stmt (CallDone onDone) else Ret tt) ;;;
      for_each srcFiles (fun file =>
        stmt (QueuePush {| onFresh := onFresh;
                           src := Path.join src file;
                           dest := Path.join dest file;
                           onDone := DoneChild remaining onDone |})))
  else if isFile srcStat then
    stmt (CallFresh onFresh) ;;;
    stmt (ActionsPush (FileAction src dest (st_atime srcStat) (st_mtime srcStat)
                         (st_mode srcStat))) ;;;
    stmt (CallDone onDone)
  else
    Throw (JsError ("unsure how to copy this: " +:+ src)).

Fixpoint build (fuel : nat) (data : request) : proc unit :=
  match fuel with
  | O => Diverge
  | S fuel' =>
      let src := src data in
      let dest := dest data in
      let onDone := onDone data in
      stmt (FilesAdd dest) ;;;
      srcStat <- lstat src ;;
      srcFiles <- (if isDirectory srcStat
                   then names <- readdir src ;; Ret (Some names)
                   else Ret None) ;;
      destExists <- exists_ dest ;;
      if destExists then
        destStat <- lstat dest ;;
        let bothFiles := isFile srcStat && isFile destStat in
        let bothFolders := negb bothFiles && isDirectory srcStat && isDirectory destStat in
        let bothSymlinks := negb bothFolders && negb bothFiles
                            && isSymbolicLink srcStat && isSymbolicLink destStat in
        let compare :=
          if bothFiles && (st_size srcStat =? st_size destStat)
             && (st_mtime srcStat =? st_mtime destStat) then
            stmt (CallDone onDone)
          else
            same <- (if bothSymlinks
                     then a <- readlink src ;; b <- readlink dest ;; Ret (String.eqb a b)
                     else Ret false) ;;
            if same then
              stmt (CallDone onDone)
            else
              (if bothFolders then
                 destFiles <- readdir dest ;;
                 srcFiles <- invariant srcFiles "src files not initialised" ;;
                 scan_dest dest srcFiles destFiles
               else Ret tt) ;;;
              copy_entry data srcStat srcFiles in
        if negb (st_mode srcStat =? st_mode destStat) then
          if bothFiles then
            access dest (st_mode srcStat) ;;;
            compare
          else
            stmt (ExtraneousDelete dest) ;;;
            unlink dest ;;;
            build fuel' data
        else
          compare
      else
        copy_entry data srcStat srcFiles
  end.

(** ** The planner's objects and the meaning of its statements *)

Record heap := mkHeap {
  queue : list request;
  possibleExtraneous : list string;   (* a Set, in insertion order *)
  files : gset string;
  actions : list action;
  cells : list Z                      (* the [remaining] variables, by number *)
}.

Definition set_queue (q : list request) (h : heap) : heap :=
  mkHeap q (possibleExtraneous h) (files h) (actions h) (cells h).
Definition set_possibleExtraneous (s : list string) (h : heap) : heap :=
  mkHeap (queue h) s (files h) (actions h) (cells h).
Definition set_files (s : gset string) (h : heap) : heap :=
  mkHeap (queue h) (possibleExtraneous h) s (actions h) (cells h).
Definition set_actions (a : list action) (h : heap) : heap :=
  mkHeap (queue h) (possibleExtraneous h) (files h) a (cells h).
Definition set_cells (c : list Z) (h : heap) : heap :=
  mkHeap (queue h) (possibleExtraneous h) (files h) (actions h) c.

(** Set.prototype.add and Set.prototype.delete on an insertion-ordered set. *)
Definition set_add (p : string) (s : list string) : list string :=
  if bool_decide (p ∈ s) then s else s ++ [p].
Definition set_delete (p : string) (s : list string) : list string :=
  filter (fun q => q ≠ p) s.

(** Calling a completion callback: the heap after the call and the caller's
    callbacks entered by it. *)
Fixpoint fire_done (cb : done_cb) (h : heap) : heap * list callback :=
  match cb with
  | DoneNone => (h, [])
  | DoneCaller id => (h, [OnDoneCaller id])
  | DoneProgress d => (h, [OnProgress d])
  | DoneChild c parent =>
      match cells h !! c with
      | Some n =>
          let h' := set_cells (<[c := n - 1]> (cells h)) h in
          if n - 1 =? 0 then fire_done parent h' else (h', [])
      | None => (h, [])
      end
  end.

Definition exec_cmd (c : cmd) (h : heap) : heap * list callback :=
  match c with
  | FilesAdd p => (set_files ({[p]} ∪ files h) h, [])
  | ExtraneousAdd p => (set_possibleExtraneous (set_add p (possibleExtraneous h)) h, [])
  | ExtraneousDelete p => (set_possibleExtraneous (set_delete p (possibleExtraneous h)) h, [])
  | ActionsPush a => (set_actions (actions h ++ [a]) h, [])
  | QueuePush r => (set_queue (queue h ++ [r]) h, [])
  | CallFresh None => (h, [])
  | CallFresh (Some id) => (h, [OnFresh id])
  | CallDone cb => fire_done cb h
  | CallStart n => (h, [OnStart n])
  | CallProgress d => (h, [OnProgress d])
  end.

(** What a run leaves behind, in the order it happened: the statements
    executed, the caller's callbacks entered, the primitives called (the
    promise is pending) and the primitives settled. *)
Inductive event :=
| EvDo (c : cmd)
| EvCall (cb : callback)
| EvAwait (o : op)
| EvIO (o : op) (r : resp).

Inductive outcome (A : Type) : Type :=
| Resolved (a : A)
| Rejected (e : error)
| OutOfFuel.
Arguments Resolved {A} a.
Arguments Rejected {A} e.
Arguments OutOfFuel {A}.

(** A program run up to its next [await]. *)
Inductive sync (A : Type) : Type :=
| SRet (a : A)
| SThrow (e : error)
| SAwait (o : op) (k : resp -> proc A)
| SDiverge.
Arguments SRet {A} a.
Arguments SThrow {A} e.
Arguments SAwait {A} o k.
Arguments SDiverge {A}.

Fixpoint run_sync {A : Type} (p : proc A) (h : heap) (tr : list event)
  : sync A * heap * list event :=
  match p with
  | Ret a => (SRet a, h, tr)
  | Throw e => (SThrow e, h, tr)
  | Do c k =>
      let '(h', cbs) := exec_cmd c h in
      run_sync k h' (tr ++ EvDo c :: map EvCall cbs)
  | NewCell n k => run_sync (k (length (cells h))) (set_cells (cells h ++ [n]) h) tr
  | Await o k => (SAwait o k, h, tr ++ [EvAwait o])
  | Diverge => (SDiverge, h, tr)
  end.

Definition task : Type := op * (resp -> proc unit).

Definition resume (t : task) (r : resp) : proc unit := snd t r.

Section Run.

Context {World : Type}.
(** The file system: how one primitive settles in a world. *)
Variable fs_exec : op -> World -> resp * World.
(** The event loop: which of the suspended tasks settles next, given how
    many events there have been. *)
Variable pick : nat -> nat.

Record config := mkConfig {
  c_heap : heap;
  c_world : World;
  c_trace : list event
}.

Definition settle (o : op) (c : config) : resp * config :=
  let '(r, w') := fs_exec o (c_world c) in
  (r, mkConfig (c_heap c) w' (c_trace c ++ [EvIO o r])).

Definition do_cmd (cm : cmd) (c : config) : config :=
  let '(h', cbs) := exec_cmd cm (c_heap c) in
  mkConfig h' (c_world c) (c_trace c ++ EvDo cm :: map EvCall cbs).

Definition sync_in {A : Type} (p : proc A) (c : config) : sync A * config :=
  let '(s, h, tr) := run_sync p (c_heap c) (c_trace c) in
  (s, mkConfig h (c_world c) tr).

(** One async function awaited on its own. *)
Fixpoint exec {A : Type} (p : proc A) (c : config) : outcome A * config :=
  match p with
  | Ret a => (Resolved a, c)
  | Throw e => (Rejected e, c)
  | Do cm k => exec k (do_cmd cm c)
  | NewCell n k =>
      exec (k (length (cells (c_heap c))))
           (mkConfig (set_cells (cells (c_heap c) ++ [n]) (c_heap c)) (c_world c) (c_trace c))
  | Await o k =>
      let '(r, c') := settle o (mkConfig (c_heap c) (c_world c) (c_trace c ++ [EvAwait o])) in
      exec (k r) c'
  | Diverge => (OutOfFuel, c)
  end.

(** ** Pools of tasks

    A task is started by running it up to its first await; a started task
    is suspended on one primitive.  [launch] starts pending tasks, in
    order, while fewer than [K] are running. *)
Fixpoint launch (K : nat) (pending : list (proc unit)) (running : list task) (c : config)
  : outcome (list (proc unit) * list task) * config :=
  match pending with
  | [] => (Resolved ([], running), c)
  | p :: rest =>
      if (length running <? K)%nat then
        match sync_in p c with
        | (SRet _, c') => launch K rest running c'
        | (SThrow e, c') => (Rejected e, c')
        | (SAwait o k, c') => launch K rest (running ++ [(o, k)]) c'
        | (SDiverge, c') => (OutOfFuel, c')
        end
      else (Resolved (pending, running), c)
  end.

(** Modelled from the spec: the bounded task runner (section 6), which runs
    at most [K] of the tasks at a time, resolves when all have completed
    and rejects on the first failure.  The event loop picks which of the
    running tasks settles next; the task goes on to its next await, or
    completes and gives its place to the next pending task.  After a
    rejection the run is not followed further. *)
Fixpoint run_pool (fuel : nat) (K : nat) (pending : list (proc unit)) (running : list task)
    (c : config) : outcome unit * config :=
  match launch K pending running c with
  | (Resolved (pending', running'), c1) =>
      match running' with
      | [] =>
          match pending' with
          | [] => (Resolved tt, c1)
          | _ => (OutOfFuel, c1)
          end
      | _ =>
          match fuel with
          | O => (OutOfFuel, c1)
          | S fuel' =>
              let i := (pick (length (c_trace c1)) mod length running')%nat in
              match running' !! i with
              | None => (OutOfFuel, c1)
              | Some t =>
                  let '(r, c2) := settle (fst t) c1 in
                  match sync_in (resume t r) c2 with
                  | (SRet _, c3) => run_pool fuel' K pending' (delete i running') c3
                  | (SThrow e, c3) => (Rejected e, c3)
                  | (SAwait o k, c3) => run_pool fuel' K pending' (<[i := (o, k)]> running') c3
                  | (SDiverge, c3) => (OutOfFuel, c3)
                  end
              end
          end
      end
  | (Rejected e, c1) => (Rejected e, c1)
  | (OutOfFuel, c1) => (OutOfFuel, c1)
  end.

(** [Promise.all(items.map(f))] (line 93): every task is started at once. *)
Definition promise_all (fuel : nat) (ps : list (proc unit)) (c : config) : outcome unit * config :=
  run_pool fuel (length ps) ps [] c.

(** Modelled from the spec: promise.queue of ./promise.js (lines 240 and
    265), the bounded task runner with its optional bound; without a bound
    every task is started at once. *)
Definition promise_queue (fuel : nat) (ps : list (proc unit)) (concurrency : option nat)
    (c : config) : outcome unit * config :=
  run_pool fuel (default (length ps) concurrency) ps [] c.

(** ** buildActionsForCopy (lines 70-103) *)

(** Lines 91-94. *)
Fixpoint drain (fuel : nat) (n : nat) (c : config) : outcome unit * config :=
  match queue (c_heap c) with
  | [] => (Resolved tt, c)
  | _ =>
      match n with
      | O => (OutOfFuel, c)
      | S n' =>
          let items := take 4 (queue (c_heap c)) in
          let c1 := mkConfig (set_queue (drop 4 (queue (c_heap c))) (c_heap c))
                             (c_world c) (c_trace c) in
          match promise_all fuel (map (build fuel) items) c1 with
          | (Resolved _, c2) => drain fuel n' c2
          | r => r
          end
      end
  end.

(** Lines 96-101. *)
Fixpoint remove_extraneous (locs : list string) (seen : gset string) : proc unit :=
  match locs with
  | [] => Ret tt
  | loc :: rest =>
      if bool_decide (loc ∈ seen) then remove_extraneous rest seen
      else unlink loc ;;; remove_extraneous rest seen
  end.

(** Lines 79-83. *)
Definition initialise_events (q : list request) : list request :=
  map (fun item => mkRequest (src item) (dest item) (onFresh item) (DoneProgress (dest item))) q.

Definition initial_heap (q : list request) (possibleExtraneousSeed : option (list string)) : heap :=
  {| queue := initialise_events q;
     possibleExtraneous := foldl (fun s p => set_add p s) [] (default [] possibleExtraneousSeed);
     files := ∅;
     actions := [];
     cells := [] |}.

(** Lines 75-94: up to the end of the [while] loop. *)
Definition plan_walk (fuel : nat) (q : list request)
    (possibleExtraneousSeed : option (list string)) (w : World) : outcome unit * config :=
  let c0 := mkConfig (initial_heap q possibleExtraneousSeed) w [] in
  let c1 := do_cmd (CallStart (Z.of_nat (length q))) c0 in
  drain fuel fuel c1.

Definition buildActionsForCopy (fuel : nat) (q : list request)
    (possibleExtraneousSeed : option (list string)) (w : World)
  : outcome (list action) * config :=
  match plan_walk fuel q possibleExtraneousSeed w with
  | (Resolved _, c2) =>
      match exec (remove_extraneous (possibleExtraneous (c_heap c2)) (files (c_heap c2))) c2 with
      | (Resolved _, c3) => (Resolved (actions (c_heap c3)), c3)
      | (Rejected e, c3) => (Rejected e, c3)
      | (OutOfFuel, c3) => (OutOfFuel, c3)
      end
  | (Rejected e, c2) => (Rejected e, c2)
  | (OutOfFuel, c2) => (OutOfFuel, c2)
  end.

(** ** copyBulk and copy (lines 222-268) *)

(** Lines 240-261: the promise made for one file action. *)
Definition copy_file (data : action) : proc unit :=
  match data with
  | FileAction src dest atime mtime mode =>
      await_unit (StreamCopy src dest mode) ;;;
      await_unit (Utimes dest atime mtime) ;;;
      stmt (CallProgress dest)
  | SymlinkAction _ _ => type_error
  end.

(** Lines 265-267. *)
Definition link_action (data : action) : proc unit :=
  match data with
  | SymlinkAction dest linkname => fsSymlink linkname dest None
  | FileAction _ _ _ _ _ => type_error
  end.

Definition copyBulk (fuel : nat) (q : list request)
    (possibleExtraneous : option (list string)) (w : World) : outcome unit * config :=
  match buildActionsForCopy fuel q possibleExtraneous w with
  | (Resolved actions, c) =>
      let c1 := do_cmd (CallStart (Z.of_nat (length actions))) c in
      let fileActions := filter (fun a => is_file_action a = true) actions in
      match promise_queue fuel (map copy_file fileActions) (Some 4%nat) c1 with
      | (Resolved _, c2) =>
          let symlinkActions := filter (fun a => is_symlink_action a = true) actions in
          promise_queue fuel (map link_action symlinkActions) None c2
      | r => r
      end
  | (Rejected e, c) => (Rejected e, c)
  | (OutOfFuel, c) => (OutOfFuel, c)
  end.

Definition copy (fuel : nat) (src dest : string) (w : World) : outcome unit * config :=
  copyBulk fuel [mkRequest src dest None DoneNone] None w.

End Run.

(** ** symlink (lines 325-360)

    [process.platform === 'win32'], [path.relative] and [path.dirname] are
    parameters. [fuel] bounds how often [symlink] may call itself (line 355). *)

Section Symlink.

Variable win32 : bool.
Variable path_relative : string -> string -> string.
Variable path_dirname : string -> string.

(** Lines 326-341; the result says whether line 332 returned from [symlink]. *)
Definition symlink_clear (src dest : string) : proc bool :=
  try_catch
    (stats <- lstat dest ;;
     linked <- (if isSymbolicLink stats then exists_ dest else Ret false) ;;
     same <- (if linked
              then resolved <- realpath dest ;; Ret (String.eqb resolved src)
              else Ret false) ;;
     if same then Ret true
     else unlink dest ;;; Ret false)
    (fun err => if negb (has_code err "ENOENT") then Throw err else Ret false).

(** Lines 344-351. *)
Definition symlink_create (src dest : string) : proc unit :=
  if win32 then
    fsSymlink src dest (Some "junction")
  else
    let relative := path_relative (path_dirname dest) src in
    fsSymlink relative dest None.

Fixpoint symlink (fuel : nat) (src dest : string) : proc unit :=
  match fuel with
  | O => Diverge
  | S fuel' =>
      returned <- symlink_clear src dest ;;
      if (returned : bool) then Ret tt
      else
        try_catch (symlink_create src dest)
          (fun err => if has_code err "EEXIST" then symlink fuel' src dest else Throw err)
  end.

End Symlink.

(** ** walk (lines 362-395)

    [fuel] bounds the depth of the recursion of line 390. *)

Record WalkFile := mkWalkFile {
  relative : string;
  basename : string;
  absolute : string;
  mtime : Z
}.

(** [relativeDir ? path.join(relativeDir, name) : name] *)
Definition relative_of (relativeDir : option string) (name : string) : string :=
  match relativeDir with
  | Some r => if String.eqb r EmptyString then name else Path.join r name
  | None => name
  end.

(** Lines 377-392, with the recursive call as a parameter. *)
Fixpoint walk_loop (rec : string -> string -> proc (list WalkFile))
    (dir : string) (relativeDir : option string)
    (filenames : list string) (files : list WalkFile) : proc (list WalkFile) :=
  match filenames with
  | [] => Ret files
  | name :: rest =>
      let relative := relative_of relativeDir name in
      let loc := Path.join dir name in
      stat <- lstat loc ;;
      let files := files ++ [mkWalkFile relative name loc (st_mtime stat)] in
      if isDirectory stat then
        sub <- rec loc relative ;;
        walk_loop rec dir relativeDir rest (files ++ sub)
      else
        walk_loop rec dir relativeDir rest files
  end.

Definition keep_names (ignoreBasenames : option (list string)) (filenames : list string)
  : list string :=
  match ignoreBasenames with
  | Some ign => filter (fun name => indexOf_lt0 ign name = true) filenames
  | None => filenames
  end.

Fixpoint walk (fuel : nat) (dir : string) (relativeDir : option string)
    (ignoreBasenames : option (list string)) : proc (list WalkFile) :=
  match fuel with
  | O => Diverge
  | S fuel' =>
      filenames <- readdir dir ;;
      let filenames := keep_names ignoreBasenames filenames in
      walk_loop (fun loc relative => walk fuel' loc (Some relative) ignoreBasenames)
                dir relativeDir filenames []
  end.

(** ** find (lines 309-323)

    In each round of the loop [parts.concat(filename).join(path.sep)] is
    probed, and [parts.pop()] follows a miss; [n] counts the parts that are
    left.  The result [false] is [None]. *)

Fixpoint find_loop (n : nat) (filename : string) (parts : list string)
  : proc (option string) :=
  match n with
  | O => Ret None
  | S n' =>
      match parts with
      | [] => Ret None
      | _ =>
          let loc := Path.join_parts (parts ++ [filename]) in
          found <- exists_ loc ;;
          if found then Ret (Some loc)
          else find_loop n' filename (removelast parts)
      end
  end.

Definition find (filename dir : string) : proc (option string) :=
  let parts := Path.split dir in
  find_loop (length parts) filename parts.

(** ** A file system to run the code on

    A table from paths to entries, with the primitives as far as the code
    uses them.  It stands for one well-behaved file system that nothing
    else writes to; the theorems below hold for every [fs_exec]. *)

Module Sim.

Inductive node :=
| File (st : Stats) (content : string)
| Dir (st : Stats)
| Link (st : Stats) (target : string).

Definition fs : Type := list (string * node).

Definition stats_of (n : node) : Stats :=
  match n with File st _ => st | Dir st => st | Link st _ => st end.

Fixpoint lookup (p : string) (t : fs) : option node :=
  match t with
  | [] => None
  | (q, n) :: rest => if String.eqb q p then Some n else lookup p rest
  end.

Definition remove (p : string) (t : fs) : fs :=
  filter (fun e => fst e ≠ p) t.

Definition put (p : string) (n : node) (t : fs) : fs :=
  match lookup p t with
  | Some _ => map (fun e => if String.eqb (fst e) p then (p, n) else e) t
  | None => t ++ [(p, n)]
  end.

Fixpoint strip_prefix (pre s : string) : option string :=
  match pre with
  | EmptyString => Some s
  | String a pre' =>
      match s with
      | String b s' => if Ascii.eqb a b then strip_prefix pre' s' else None
      | EmptyString => None
      end
  end.

Definition below (dir p : string) : bool :=
  match strip_prefix (dir +:+ Path.sep) p with Some _ => true | None => false end.

Definition child_name (dir p : string) : option string :=
  match strip_prefix (dir +:+ Path.sep) p with
  | Some name =>
      match Path.split name with
      | [_] => if String.eqb name EmptyString then None else Some name
      | _ => None
      end
  | None => None
  end.

Definition dir_mode : Z := 16877.    (* 0o040755 *)
Definition link_mode : Z := 41471.   (* 0o120777 *)

Definition make_dir (t : fs) (p : string) : fs :=
  if String.eqb p EmptyString then t
  else match lookup p t with
       | Some _ => t
       | None => t ++ [(p, Dir (mkStats dir_mode 0 0 0))]
       end.

Definition set_times (a m : Z) (n : node) : node :=
  let upd st := mkStats (st_mode st) (st_size st) a m in
  match n with
  | File st c => File (upd st) c
  | Dir st => Dir (upd st)
  | Link st tg => Link (upd st) tg
  end.

Definition fs_exec (o : op) (t : fs) : resp * fs :=
  match o with
  | Lstat p =>
      match lookup p t with
      | Some n => (RStats (stats_of n), t)
      | None => (RErr "ENOENT", t)
      end
  | Readdir p =>
      match lookup p t with
      | Some (Dir _) => (RNames (omap (fun e => child_name p (fst e)) t), t)
      | Some _ => (RErr "ENOTDIR", t)
      | None => (RErr "ENOENT", t)
      end
  | Exists p => (RBool (bool_decide (is_Some (lookup p t))), t)
  | Access p _ =>
      match lookup p t with
      | Some _ => (RUnit, t)
      | None => (RErr "ENOENT", t)
      end
  | Unlink p => (RUnit, filter (fun e => fst e ≠ p ∧ below p (fst e) = false) t)
  | Mkdirp p => (RUnit, foldl make_dir t (rev (dest_prefixes p)))
  | Readlink p =>
      match lookup p t with
      | Some (Link _ tg) => (RString tg, t)
      | Some _ => (RErr "EINVAL", t)
      | None => (RErr "ENOENT", t)
      end
  | Realpath p =>
      match lookup p t with
      | Some (Link _ tg) => (RString tg, t)
      | Some _ => (RString p, t)
      | None => (RErr "ENOENT", t)
      end
  | FsSymlink target p _ =>
      match lookup p t with
      | Some _ => (RErr "EEXIST", t)
      | None => (RUnit, t ++ [(p, Link (mkStats link_mode 0 0 0) target)])
      end
  | StreamCopy from to m =>
      match lookup from t with
      | Some (File st c) =>
          match lookup to t with
          | Some (File st' _) =>
              (RUnit, put to (File (mkStats (st_mode st') (st_size st) 0 0) c) t)
          | Some _ => (RErr "EISDIR", t)
          | None =>
              (RUnit, put to (File (mkStats (Z.lor S_IFREG (Z.land m 511)) (st_size st) 0 0) c) t)
          end
      | Some _ => (RErr "EISDIR", t)
      | None => (RErr "ENOENT", t)
      end
  | Utimes p a m =>
      match lookup p t with
      | Some n => (RUnit, put p (set_times a m n) t)
      | None => (RErr "ENOENT", t)
      end
  end.

(** The tasks settle in the order they were started. *)
Definition fifo (n : nat) : nat := 0%nat.

End Sim.

(** ** A destination that a rival keeps creating

    The rival process creates the destination [rival] more times, each
    time just before our own creation is carried out. *)

Module Racy.

Record world := mkWorld { rival : nat; present : bool }.

Definition fs_exec (o : op) (w : world) : resp * world :=
  match o with
  | Lstat _ =>
      if present w then (RStats (mkStats 33188 0 0 0), w) else (RErr "ENOENT", w)
  | Exists _ => (RBool (present w), w)
  | Unlink _ => (RUnit, mkWorld (rival w) false)
  | FsSymlink _ _ _ =>
      match rival w with
      | S n => (RErr "EEXIST", mkWorld n true)
      | O => if present w then (RErr "EEXIST", w) else (RUnit, mkWorld 0 true)
      end
  | _ => (RErr "ENOSYS", w)
  end.

Definition relative (from to : string) : string := to.
Definition dirname (p : string) : string := p.

End Racy.

(** The primitive that creates the link (lines 344-351). *)
Definition create_op (win32 : bool) (path_relative : string -> string -> string)
    (path_dirname : string -> string) (src dest : string) : op :=
  if win32 then FsSymlink src dest (Some "junction")
  else FsSymlink (path_relative (path_dirname dest) src) dest None.

(** How often a link creation was called. *)
Definition creations (tr : list event) : nat :=
  length (filter (fun e => match e with EvAwait (FsSymlink _ _ _) => true | _ => false end = true) tr).

(** ** Example trees *)

Module Ex.

Definition file (perm sz mt : Z) (content : string) : Sim.node :=
  Sim.File (mkStats (Z.lor S_IFREG perm) sz 0 mt) content.
Definition dir : Sim.node := Sim.Dir (mkStats Sim.dir_mode 0 0 0).
Definition link (target : string) : Sim.node := Sim.Link (mkStats Sim.link_mode 0 0 0) target.

(** A directory [s] with two files, and no [d]. *)
Definition two_files : Sim.fs :=
  [("s", dir); ("s/a", file 420 2 7 "hi"); ("s/b", file 420 3 8 "hey")].

(** A directory [s] with a file and a link to it, and no [d]. *)
Definition file_and_link : Sim.fs :=
  [("s", dir); ("s/a", file 420 2 7 "hi"); ("s/l", link "a")].

(** The file [d/f] is [s/f] with the same size and time, but mode 0600
    where [s/f] has 0644. *)
Definition mode_differs : Sim.fs :=
  [("s", dir); ("s/f", file 420 2 7 "hi"); ("d", dir); ("d/f", file 384 2 7 "hi")].

(** [d/x] is a directory tree where [s/x] is a regular file. *)
Definition kind_changed : Sim.fs :=
  [("s", dir); ("s/x", file 420 2 7 "hi");
   ("d", dir); ("d/x", dir); ("d/x/y", file 420 1 3 "y")].

(** [d] has an entry [old] that [s] does not have. *)
Definition with_extraneous : Sim.fs :=
  [("s", dir); ("s/a", file 420 2 7 "hi");
   ("d", dir); ("d/a", file 420 2 7 "hi"); ("d/old", dir); ("d/old/x", file 420 1 3 "x")].

Definition top (s d : string) : request := mkRequest s d (Some 1%nat) (DoneCaller 7).

End Ex.

Module ExWalk.

(** [s] holds a file, a directory [sub] with a file, and a directory
    [node_modules] with a file. *)
Definition tree : Sim.fs :=
  [("s", Ex.dir); ("s/a", Ex.file 420 2 7 "hi");
   ("s/sub", Ex.dir); ("s/sub/c", Ex.file 420 1 9 "x");
   ("s/node_modules", Ex.dir); ("s/node_modules/m", Ex.file 420 1 5 "m")].

Definition depth (p : string) : nat := if String.eqb p "s" then 1%nat else 0%nat.

Definition start : @config Sim.fs := mkConfig (initial_heap [] None) tree [].

Definition listing : list WalkFile :=
  [mkWalkFile "a" "a" "s/a" 7; mkWalkFile "sub" "sub" "s/sub" 0;
   mkWalkFile "sub/c" "c" "s/sub/c" 9].

End ExWalk.

(** * The vocabulary of the statements *)

(** Every statement of the program satisfies [Qc] and every primitive it
    awaits satisfies [Qo]. *)
Fixpoint guarded {A : Type} (Qc : cmd -> Prop) (Qo : op -> Prop) (p : proc A) : Prop :=
  match p with
  | Ret _ | Throw _ | Diverge => True
  | Do c k => Qc c /\ guarded Qc Qo k
  | NewCell _ k => forall i, guarded Qc Qo (k i)
  | Await o k => Qo o /\ forall r, guarded Qc Qo (k r)
  end.

(** The statements of [build] on the item [r]. *)
Definition build_cmd (r : request) (c : cmd) : Prop :=
  match c with
  | FilesAdd _ | ExtraneousAdd _ | ActionsPush _ => True
  | ExtraneousDelete p => p = dest r
  | QueuePush r' => onFresh r' = onFresh r /\ exists cell, onDone r' = DoneChild cell (onDone r)
  | CallFresh cb => cb = onFresh r
  | CallDone cb => cb = onDone r
  | CallStart _ | CallProgress _ => False
  end.

(** The primitives of [build]. *)
Definition build_op (o : op) : Prop :=
  match o with
  | Lstat _ | Readdir _ | Exists _ | Access _ _ | Unlink _ | Mkdirp _ | Readlink _ => True
  | Realpath _ | FsSymlink _ _ _ | StreamCopy _ _ _ | Utimes _ _ _ => False
  end.

(** The suspended and waiting tasks of a pool, as programs. *)
Definition of_task (t : task) : proc unit := Await (fst t) (snd t).
Definition residual (pending : list (proc unit)) (running : list task) : list (proc unit) :=
  pending ++ map of_task running.

Definition of_sync {A : Type} (s : sync A) : proc A :=
  match s with
  | SRet a => Ret a
  | SThrow e => Throw e
  | SAwait o k => Await o k
  | SDiverge => Diverge
  end.

(** An invariant of pools, at a configuration. *)
Definition InvC {World : Type} (Inv : heap -> list event -> list (proc unit) -> Prop)
    (c : @config World) (l : list (proc unit)) : Prop :=
  Inv (c_heap c) (c_trace c) l.

(** The trace is [tr0] followed by events that satisfy [P_ev]. *)
Definition since (P_ev : event -> Prop) (tr0 tr : list event) : Prop :=
  exists suf, tr = tr0 ++ suf /\ Forall P_ev suf.

(** Such a trace, a queue of items that satisfy [QR] and tasks guarded by
    [Qc] and [Qo]. *)
Definition safe_inv (P_ev : event -> Prop) (Qc : cmd -> Prop) (Qo : op -> Prop)
    (QR : request -> Prop) (tr0 : list event)
    (h : heap) (tr : list event) (l : list (proc unit)) : Prop :=
  since P_ev tr0 tr /\ Forall QR (queue h) /\ Forall (guarded Qc Qo) l.

(** No callback of the caller's is reachable from a completion callback. *)
Fixpoint caller_free (cb : done_cb) : Prop :=
  match cb with
  | DoneNone | DoneProgress _ => True
  | DoneCaller _ => False
  | DoneChild _ parent => caller_free parent
  end.

(** The statements of planning: no start or progress call of its own, and
    no completion callback of the caller's. *)
Definition plan_cmd (c : cmd) : Prop :=
  match c with
  | CallStart _ | CallProgress _ => False
  | CallDone cb => caller_free cb
  | QueuePush r => caller_free (onDone r)
  | _ => True
  end.

(** What planning leaves in the trace. *)
Definition plan_ev (e : event) : Prop :=
  match e with
  | EvDo c => plan_cmd c
  | EvCall (OnFresh _) | EvCall (OnProgress _) => True
  | EvCall (OnStart _) | EvCall (OnDoneCaller _) => False
  | EvAwait o | EvIO o _ => build_op o
  end.

(** The primitives of a file copy, and the primitive of a link. *)
Definition file_op (o : op) : Prop :=
  match o with StreamCopy _ _ _ | Utimes _ _ _ => True | _ => False end.
Definition link_op (o : op) : Prop :=
  match o with FsSymlink _ _ _ => True | _ => False end.

(** What the file copies leave in the trace, and what the links do. *)
Definition file_ev (e : event) : Prop :=
  match e with
  | EvDo (CallProgress _) | EvCall (OnProgress _) => True
  | EvAwait o | EvIO o _ => file_op o
  | _ => False
  end.
Definition link_ev (e : event) : Prop :=
  match e with
  | EvAwait o | EvIO o _ => link_op o
  | _ => False
  end.

(** What a call of the start callback leaves in the trace. *)
Definition start_events (n : nat) : list event :=
  [EvDo (CallStart (Z.of_nat n)); EvCall (OnStart (Z.of_nat n))].

(** A file action has completed: its bytes were piped and its times set. *)
Definition copied (a : action) (tr : list event) : Prop :=
  match a with
  | FileAction src dest atime mtime mode =>
      exists t1 t2 t3,
        tr = t1 ++ EvIO (StreamCopy src dest mode) RUnit :: t2
                ++ EvIO (Utimes dest atime mtime) RUnit :: t3
  | SymlinkAction _ _ => True
  end.

(** What is left of [copy_file] once the bytes are piped. *)
Definition copy_file_rest (a : action) : proc unit :=
  match a with
  | FileAction src dest atime mtime mode =>
      await_unit (Utimes dest atime mtime) ;;; stmt (CallProgress dest)
  | SymlinkAction _ _ => type_error
  end.

(** The bytes of a file action were piped. *)
Definition streamed (a : action) (tr : list event) : Prop :=
  match a with
  | FileAction src dest _ _ mode =>
      exists t1 t2, tr = t1 ++ EvIO (StreamCopy src dest mode) RUnit :: t2
  | SymlinkAction _ _ => True
  end.

(** A pool of file copies: a task has thrown, or every file action has
    completed, is still to start, or is between its two primitives. *)
Definition file_inv (acts : list action) (h : heap) (tr : list event)
    (l : list (proc unit)) : Prop :=
  (exists e, Throw e ∈ l)
  \/ Forall (fun a => is_file_action a = true ->
               copied a tr \/ copy_file a ∈ l \/ (streamed a tr /\ copy_file_rest a ∈ l)) acts.

(** The numbers the start callback was called with, in order. *)
Definition start_calls (tr : list event) : list Z :=
  omap (fun e => match e with EvCall (OnStart n) => Some n | _ => None end) tr.

(** A primitive of the copy itself is called or settles. *)
Definition copying (e : event) : Prop :=
  match e with
  | EvAwait o | EvIO o _ => file_op o \/ link_op o
  | _ => False
  end.

(** Every path the program deletes from the extraneous set is in [seen]
    by then: it was there before, or the program itself has added it to
    [files]. *)
Fixpoint deletes_seen {A : Type} (seen : gset string) (p : proc A) : Prop :=
  match p with
  | Ret _ | Throw _ | Diverge => True
  | Do (FilesAdd q) k => deletes_seen ({[q]} ∪ seen) k
  | Do (ExtraneousDelete q) k => q ∈ seen /\ deletes_seen seen k
  | Do _ k => deletes_seen seen k
  | NewCell _ k => forall i, deletes_seen seen (k i)
  | Await _ k => forall r, deletes_seen seen (k r)
  end.

(** The path was in the seed or was added to the extraneous set. *)
Definition provisionally_extraneous (seed : option (list string)) (tr : list event)
    (p : string) : Prop :=
  p ∈ default [] seed \/ EvDo (ExtraneousAdd p) ∈ tr.

(** What the deletion pass leaves in the trace when it unlinks [locs]. *)
Definition unlink_events (locs : list string) : list event :=
  flat_map (fun loc => [EvAwait (Unlink loc); EvIO (Unlink loc) RUnit]) locs.

(** The two sets of the planner against its trace: every path ever put
    into the extraneous set is still there or is in [files]; the extraneous
    set holds nothing else; [files] holds the paths added to it; and the
    tasks delete from the extraneous set only what is in [files]. *)
Definition extraneous_inv (seed : option (list string)) (h : heap) (tr : list event)
    (l : list (proc unit)) : Prop :=
  (forall p, provisionally_extraneous seed tr p -> p ∈ possibleExtraneous h \/ p ∈ files h)
  /\ (forall p, p ∈ possibleExtraneous h -> provisionally_extraneous seed tr p)
  /\ (forall p, p ∈ files h <-> EvDo (FilesAdd p) ∈ tr)
  /\ Forall (deletes_seen (files h)) l.

(** How often the callback [i] was entered. *)
Definition is_fresh (i : nat) (e : event) : bool :=
  match e with EvCall (OnFresh j) => Nat.eqb i j | _ => false end.

Definition fresh_calls (i : nat) (tr : list event) : nat :=
  length (filter (fun e => is_fresh i e = true) tr).

(** [fresh_wp i p b post]: in [p], started when [b] tells whether a call of
    onFresh is still to be followed by its action, every onFresh called is
    the callback [i], calls and pushed actions alternate, every item pushed
    to the queue carries [i], and [post] holds where [p] returns. *)
Fixpoint fresh_wp {A : Type} (i : nat) (p : proc A) (b : bool) (post : A -> bool -> Prop)
  : Prop :=
  match p with
  | Ret a => post a b
  | Throw _ | Diverge => True
  | Do (CallFresh cb) k => cb = Some i /\ b = false /\ fresh_wp i k true post
  | Do (ActionsPush _) k => b = true /\ fresh_wp i k false post
  | Do (QueuePush r) k => onFresh r = Some i /\ fresh_wp i k b post
  | Do _ k => fresh_wp i k b post
  | NewCell _ k => forall j, fresh_wp i (k j) b post
  | Await _ k => forall r, fresh_wp i (k r) b post
  end.

(** A task of the planner, which owes an action when [b] holds. *)
Definition fresh_ok (i : nat) (b : bool) (p : proc unit) : Prop :=
  fresh_wp i p b (fun _ b' => b' = false).

(** The tasks that have called onFresh and not yet pushed the action. *)
Definition owing (l : list (bool * proc unit)) : nat :=
  length (filter (fun x => fst x = true) l).

(** The callback [i] was entered once for every action pushed and once for
    every task that owes its action. *)
Definition fresh_inv (i : nat) (h : heap) (tr : list event) (l : list (proc unit)) : Prop :=
  Forall (fun r => onFresh r = Some i) (queue h)
  /\ exists tagged,
       l = map snd tagged
       /\ Forall (fun x => fresh_ok i (fst x) (snd x)) tagged
       /\ fresh_calls i tr = (length (actions h) + owing tagged)%nat.

(** The primitives settle one after the other as the script says. *)
Fixpoint settles {World : Type} (fs_exec : op -> World -> resp * World) (w : World)
    (script : list (op * resp)) (w' : World) : Prop :=
  match script with
  | [] => w' = w
  | (o, r) :: rest => exists w1, fs_exec o w = (r, w1) /\ settles fs_exec w1 rest w'
  end.

(** What the primitives of a script leave in the trace. *)
Definition script_events (script : list (op * resp)) : list event :=
  flat_map (fun x => [EvAwait (fst x); EvIO (fst x) (snd x)]) script.

(** The configuration after [o] was called and has settled to [r]. *)
Definition settled {World : Type} (o : op) (r : resp) (w' : World) (c : @config World)
  : config :=
  mkConfig (c_heap c) w' (c_trace c ++ [EvAwait o; EvIO o r]).

(** The relative and the absolute path walk gives to the entry it reaches
    by going down the chain of base names. *)
Fixpoint rel_path (relativeDir : option string) (chain : list string) : string :=
  match chain with
  | [] => default EmptyString relativeDir
  | name :: rest => rel_path (Some (relative_of relativeDir name)) rest
  end.

Definition abs_path (dir : string) (chain : list string) : string :=
  foldl Path.join dir chain.

(** [k'] is below [k]. *)
Definition proper_prefix (k k' : list string) : Prop :=
  exists ext, ext <> [] /\ k' = k ++ ext.

(** No chain is listed after a chain that properly extends it. *)
Fixpoint before_desc (chains : list (list string)) : Prop :=
  match chains with
  | [] => True
  | k :: rest => Forall (fun k' => ~ proper_prefix k' k) rest /\ before_desc rest
  end.

(** The entry [e] is what walk pushes for the chain [ch], and [tr] has the
    lstat that gave its time. *)
Definition entry_ok (dir : string) (relativeDir : option string) (tr : list event)
    (ch : list string) (e : WalkFile) : Prop :=
  ch <> []
  /\ relative e = rel_path relativeDir ch
  /\ absolute e = abs_path dir ch
  /\ basename e = List.last ch EmptyString
  /\ exists st, EvIO (Lstat (absolute e)) (RStats st) ∈ tr /\ mtime e = st_mtime st.

(** The base names walk filters out. *)
Definition ignored (ignoreBasenames : option (list string)) : list string :=
  default [] ignoreBasenames.

(** No primitive has settled to an error. *)
Definition no_error (e : event) : Prop :=
  match e with EvIO _ (RErr _) => False | _ => True end.

(** The listings readdir gave have no name twice. *)
Definition nodup_listings (tr : list event) : Prop :=
  forall p names, EvIO (Readdir p) (RNames names) ∈ tr -> NoDup names.

(** A chain that starts with one of [names] and has no ignored name. *)
Definition chain_under (ign names : list string) (ch : list string) : Prop :=
  exists n rest, ch = n :: rest /\ n ∈ names /\ Forall (fun x => x ∉ ign) ch.

(** What a resolved walk of [dir] has produced. *)
Definition walked (dir : string) (relativeDir : option string) (ign : list string)
    (tr : list event) (files : list WalkFile) : Prop :=
  exists chains,
    Forall2 (entry_ok dir relativeDir tr) chains files
    /\ Forall (fun ch => ch <> [] /\ Forall (fun x => x ∉ ign) ch) chains
    /\ (nodup_listings tr -> before_desc chains).

(** What the recursive call of walk is known to produce. *)
Definition rec_walked {World : Type} (fs_exec : op -> World -> resp * World)
    (ign : list string) (rec : string -> string -> proc (list WalkFile)) : Prop :=
  forall loc relative (c : config) files c',
    exec fs_exec (rec loc relative) c = (Resolved files, c') ->
    exists tr, c_trace c' = c_trace c ++ tr /\ Forall no_error tr
               /\ walked loc (Some relative) ign tr files.

(** Every await of the program throws the error its primitive settles to. *)
Fixpoint strict {A : Type} (p : proc A) : Prop :=
  match p with
  | Ret _ | Throw _ | Diverge => True
  | Do _ k => strict k
  | NewCell _ k => forall i, strict (k i)
  | Await _ k => (forall code, k (RErr code) = Throw (FsError code)) /\ forall r, strict (k r)
  end.

(** Reading the file system does not change it, in the world [w]. *)
Definition static_reads {World : Type} (fs_exec : op -> World -> resp * World) (w : World)
  : Prop :=
  forall p, snd (fs_exec (Readdir p) w) = w /\ snd (fs_exec (Lstat p) w) = w.

(** [rank] bounds the depth of the tree below each directory of [w]. *)
Definition ranked {World : Type} (fs_exec : op -> World -> resp * World) (w : World)
    (rank : string -> nat) : Prop :=
  forall p names name st,
    fst (fs_exec (Readdir p) w) = RNames names -> name ∈ names ->
    fst (fs_exec (Lstat (Path.join p name)) w) = RStats st -> isDirectory st = true ->
    (rank (Path.join p name) < rank p)%nat.

(** The program returns, resolved or rejected, and leaves the world [w0]. *)
Definition returns {World : Type} (fs_exec : op -> World -> resp * World) (w0 : World)
    {A : Type} (p : proc A) (c : config) : Prop :=
  exists out c', exec fs_exec p c = (out, c') /\ out <> OutOfFuel /\ c_world c' = w0.

(** How many primitives [exec] awaits on its way through [p]. *)
Fixpoint awaits_along {World : Type} (fs_exec : op -> World -> resp * World) {A : Type}
    (p : proc A) (c : @config World) : nat :=
  match p with
  | Ret _ | Throw _ | Diverge => O
  | Do cm k => awaits_along fs_exec k (do_cmd cm c)
  | NewCell n k =>
      awaits_along fs_exec (k (length (cells (c_heap c))))
        (mkConfig (set_cells (cells (c_heap c) ++ [n]) (c_heap c)) (c_world c) (c_trace c))
  | Await o k =>
      let '(r, c') := settle fs_exec o (mkConfig (c_heap c) (c_world c) (c_trace c ++ [EvAwait o])) in
      S (awaits_along fs_exec (k r) c')
  end.

(** The primitives called along a trace. *)
Definition is_await (e : event) : bool :=
  match e with EvAwait _ => true | _ => false end.

Definition awaits_in (tr : list event) : nat :=
  length (filter (fun e => is_await e = true) tr).

(** The runs the statements below are tried on. *)
Definition C1_run :=
  buildActionsForCopy Sim.fs_exec Sim.fifo 20 [Ex.top "s" "d"] None Ex.with_extraneous.

(** The creation of a link is called. *)
Definition link_called (e : event) : Prop :=
  match e with EvAwait (FsSymlink _ _ _) => True | _ => False end.

Definition C2_run := copyBulk Sim.fs_exec Sim.fifo 20 [Ex.top "s" "d"] None Ex.file_and_link.

Definition C3_start : @config Sim.fs := mkConfig (initial_heap [] None) Ex.mode_differs [].

Definition C5_start : @config Sim.fs := mkConfig (initial_heap [] None) Ex.kind_changed [].
Definition C5_after_unlink : Sim.fs :=
  [("s", Ex.dir); ("s/x", Ex.file 420 2 7 "hi"); ("d", Ex.dir)].

Definition C7_run := copyBulk Sim.fs_exec Sim.fifo 20 [Ex.top "s" "d"] None Ex.two_files.

Definition C8_start : @config Racy.world := mkConfig (initial_heap [] None) (Racy.mkWorld 2 false) [].

Definition C9_run :=
  exec Sim.fs_exec (walk 2 "s" None (Some ["node_modules"])) ExWalk.start.

(** The elements of [l] up to and including the first that satisfies [f]. *)
Fixpoint upto {A : Type} (f : A -> bool) (l : list A) : list A :=
  match l with
  | [] => []
  | x :: rest => x :: (if f x then [] else upto f rest)
  end.

(** The paths [find] probes: [dir] and what is left of it after each
    [pop], each joined with the file name. *)
Definition find_candidates (filename dir : string) : list string :=
  map (fun d => Path.join d filename) (dest_prefixes dir).

(** How the probes of a file system that nothing writes to settle. *)
Definition probes (ex : string -> bool) (locs : list string) : list (op * resp) :=
  map (fun loc => (Exists loc, RBool (ex loc))) locs.

Definition X2_tree : Sim.fs :=
  [("a", Ex.dir); ("a/b", Ex.dir); ("a/b/c", Ex.dir); ("a/package.json", Ex.file 420 2 7 "{}")].

(** [s] and [d] are at the same place below the source and below the
    destination of one of the submitted requests: the same chain of names
    was joined to both. *)
Definition mirrors (q : list request) (s d : string) : Prop :=
  exists r chain, r ∈ q /\ s = abs_path (src r) chain /\ d = abs_path (dest r) chain.

(** [d] is the destination of a submitted request or a path below it. *)
Definition inside (q : list request) (d : string) : Prop :=
  exists r chain, r ∈ q /\ d = abs_path (dest r) chain.

Definition local_action (q : list request) (a : action) : Prop :=
  match a with
  | FileAction s d _ _ _ => mirrors q s d
  | SymlinkAction d _ => inside q d
  end.

Definition local_cmd (q : list request) (c : cmd) : Prop :=
  match c with
  | QueuePush r => mirrors q (src r) (dest r)
  | ActionsPush a => local_action q a
  | ExtraneousAdd p | ExtraneousDelete p => inside q p
  | _ => True
  end.

(** The primitives that only read are free; the ones that change the file
    system are bound to the destinations (and, for the deletions, to the
    seed of the extraneous set). *)
Definition local_op (q : list request) (seed : option (list string)) (o : op) : Prop :=
  match o with
  | Lstat _ | Readdir _ | Exists _ | Access _ _ | Readlink _ => True
  | Unlink p => inside q p \/ p ∈ default [] seed
  | Mkdirp p | Utimes p _ _ | FsSymlink _ p _ => inside q p
  | StreamCopy s d _ => mirrors q s d
  | Realpath _ => False
  end.

Definition local_ev (q : list request) (seed : option (list string)) (e : event) : Prop :=
  match e with
  | EvDo c => local_cmd q c
  | EvCall _ => True
  | EvAwait o | EvIO o _ => local_op q seed o
  end.

(** The actions pushed along a trace, in order. *)
Definition pushed (tr : list event) : list action :=
  omap (fun e => match e with EvDo (ActionsPush a) => Some a | _ => None end) tr.

(** The action list is what was pushed. *)
Definition pushed_inv (h : heap) (tr : list event) (l : list (proc unit)) : Prop :=
  actions h = pushed tr.

(** The planner after [build] has marked [dest] as seen and the primitives
    of [script] have settled, leaving the world [w']. *)
Definition after_script {World : Type} (dest : string) (script : list (op * resp))
    (w' : World) (c : @config World) : config :=
  mkConfig (set_files ({[dest]} ∪ files (c_heap c)) (c_heap c)) w'
    (c_trace c ++ EvDo (FilesAdd dest) :: script_events script).

(** The source is none of the three kinds [build] knows. *)
Definition unknown_kind (s : Stats) : Prop :=
  isSymbolicLink s = false /\ isDirectory s = false /\ isFile s = false.

Definition X6_start : @config Sim.fs := mkConfig (initial_heap [] None) Ex.two_files [].

Definition X7_start : @config Sim.fs := mkConfig (initial_heap [] None) Ex.file_and_link [].

Definition X8_tree : Sim.fs :=
  [("s", Ex.dir); ("s/l", Ex.link "new"); ("d", Ex.dir); ("d/l", Ex.link "old")].
Definition X8_start : @config Sim.fs := mkConfig (initial_heap [] None) X8_tree [].

Definition X9_tree : Sim.fs :=
  [("s", Ex.dir); ("s/p", Sim.File (mkStats 4516 0 0 0) EmptyString);
   ("d", Ex.dir); ("d/p", Ex.file 420 2 7 "hi")].
Definition X9_start : @config Sim.fs := mkConfig (initial_heap [] None) X9_tree [].

(** The statements [f x], for the [x] of [l] in order. *)
Definition do_all {World A : Type} (f : A -> cmd) (l : list A) (c : @config World) : config :=
  foldl (fun c x => do_cmd (f x) c) c l.

(** [let remaining = n]. *)
Definition new_cell {World : Type} (n : Z) (c : @config World) : config :=
  mkConfig (set_cells (cells (c_heap c) ++ [n]) (c_heap c)) (c_world c) (c_trace c).

(** The item pushed for the entry [file] of the directory of [data]
    (lines 194-203); [remaining] names the counter its onDone decrements. *)
Definition child_request (data : request) (remaining : nat) (file : string) : request :=
  {| onFresh := onFresh data;
     src := Path.join (src data) file;
     dest := Path.join (dest data) file;
     onDone := DoneChild remaining (onDone data) |}.

(** A path marked for a name that the destination has and the source has
    not: the entry itself, or something directly in it. *)
Definition stale_mark (dest : string) (srcFiles destFiles : list string) (p : string) : Prop :=
  exists file, file ∈ destFiles /\ (file ∉ srcFiles)
               /\ (p = Path.join dest file
                   \/ (exists g, p = Path.join (Path.join dest file) g)).

Definition marks_only (P : string -> Prop) (c : cmd) : Prop :=
  match c with ExtraneousAdd p => P p | _ => True end.

Definition marks_only_ev (P : string -> Prop) (e : event) : Prop :=
  match e with EvDo c => marks_only P c | _ => True end.

Definition X11_start : @config Sim.fs := mkConfig (initial_heap [] None) Ex.with_extraneous [].

(** What an attempt of [symlink] finds in the way at [dest] and gets rid
    of (lines 326-341): nothing; an entry that is not a link; a link that
    does not resolve; a link that resolves elsewhere than to [src].  The
    entry may be gone by the time it is unlinked. *)
Definition in_the_way (src dest : string) (script : list (op * resp)) : Prop :=
  script = [(Lstat dest, RErr "ENOENT")]
  \/ exists st pre gone,
       script = (Lstat dest, RStats st) :: pre ++ [(Unlink dest, gone)]
       /\ (gone = RUnit \/ gone = RErr "ENOENT")
       /\ ((isSymbolicLink st = false /\ pre = [])
           \/ (isSymbolicLink st = true /\ pre = [(Exists dest, RBool false)])
           \/ (isSymbolicLink st = true
               /\ exists resolved, resolved <> src
                    /\ pre = [(Exists dest, RBool true); (Realpath dest, RString resolved)])).

Definition X12_tree : Sim.fs := [("s", Ex.dir); ("d", Ex.link "s")].

Definition X13_tree : Sim.fs := [("s", Ex.dir); ("d", Ex.file 420 2 7 "hi")].

Definition is_io (e : event) : bool :=
  match e with EvIO _ _ => true | _ => false end.

(** The number of primitives pending after [tr], [b] of them pending before. *)
Fixpoint balance (b : nat) (tr : list event) : nat :=
  match tr with
  | [] => b
  | EvAwait _ :: tr' => balance (S b) tr'
  | EvIO _ _ :: tr' => balance (pred b) tr'
  | _ :: tr' => balance b tr'
  end.

(** Along [tr], started with [b] primitives pending, never more than [K]
    primitives are pending. *)
Fixpoint pending_le (K : nat) (b : nat) (tr : list event) : Prop :=
  match tr with
  | [] => True
  | EvAwait _ :: tr' => (S b <= K)%nat /\ pending_le K (S b) tr'
  | EvIO _ _ :: tr' => pending_le K (pred b) tr'
  | _ :: tr' => pending_le K b tr'
  end.

(** Neither a call nor a settling of a primitive. *)
Definition quiet (e : event) : Prop := is_await e = false /\ is_io e = false.

(** What running up to the next await has added to the trace at the end. *)
Definition sync_tail {A : Type} (s : sync A) : list event :=
  match s with SAwait o _ => [EvAwait o] | _ => [] end.

(** The trace, with [n] primitives pending at its end, has kept the bound. *)
Definition bounded_at (K : nat) (tr : list event) (n : nat) : Prop :=
  pending_le K 0 tr /\ balance 0 tr = n.

Definition X14_tree : Sim.fs :=
  [("s", Ex.dir); ("s/a", Ex.file 420 1 1 "a"); ("s/b", Ex.file 420 1 2 "b");
   ("s/c", Ex.file 420 1 3 "c"); ("s/d", Ex.file 420 1 4 "d");
   ("s/e", Ex.file 420 1 5 "e"); ("s/f", Ex.file 420 1 6 "f")].

Definition X14_run :=
  buildActionsForCopy Sim.fs_exec Sim.fifo 30 [Ex.top "s" "d"] None X14_tree.

(** The call [events.onProgress(data.dest)] of line 257. *)
Definition is_progress_call (e : event) : bool :=
  match e with EvDo (CallProgress _) => true | _ => false end.

Definition progress_calls (tr : list event) : nat :=
  length (filter (fun e => is_progress_call e = true) tr).

(** A file action of [acts] for [d] has completed along [tr]. *)
Definition completed (acts : list action) (d : string) (tr : list event) : Prop :=
  exists s a m mode,
    FileAction s d a m mode ∈ acts /\ copied (FileAction s d a m mode) tr.

(** Every progress call of [tr], run after [pre], is for a destination
    whose file action had completed by then. *)
Fixpoint reported (acts : list action) (pre tr : list event) : Prop :=
  match tr with
  | [] => True
  | e :: tr' =>
      match e with
      | EvDo (CallProgress d) => completed acts d pre
      | _ => True
      end
      /\ reported acts (pre ++ [e]) tr'
  end.

(** The tasks of the file pool that have not returned. *)
Fixpoint unfinished (l : list (proc unit)) : nat :=
  match l with
  | [] => 0
  | Ret _ :: l' => unfinished l'
  | _ :: l' => S (unfinished l')
  end.

(** Where a task of the file pool stands. *)
Definition stage (acts : list action) (tr : list event) (p : proc unit) : Prop :=
  p = Ret tt
  \/ (exists e, p = Throw e)
  \/ exists s d a m mode,
       FileAction s d a m mode ∈ acts
       /\ (p = copy_file (FileAction s d a m mode)
           \/ (p = copy_file_rest (FileAction s d a m mode)
               /\ streamed (FileAction s d a m mode) tr)
           \/ (p = stmt (CallProgress d) /\ copied (FileAction s d a m mode) tr)).

Definition progress_inv (acts : list action) (N : nat) (h : heap) (tr : list event)
    (l : list (proc unit)) : Prop :=
  reported acts [] tr
  /\ Forall (stage acts tr) l
  /\ ((exists e, Throw e ∈ l) \/ (progress_calls tr + unfinished l = N)%nat).

Definition X15_run :=
  copyBulk Sim.fs_exec Sim.fifo 20 [Ex.top "s" "d"] None Ex.file_and_link.

Definition X15_plan :=
  buildActionsForCopy Sim.fs_exec Sim.fifo 20 [Ex.top "s" "d"] None Ex.file_and_link.

Definition X15_acts : list action :=
  match fst X15_plan with Resolved acts => acts | _ => [] end.

(** Every name of a listing read that is not ignored has its entry. *)
Definition listed (ign : list string) (tr : list event) (files : list WalkFile) : Prop :=
  forall p names name,
    EvIO (Readdir p) (RNames names) ∈ tr -> name ∈ names -> (name ∉ ign) ->
    exists e, e ∈ files /\ absolute e = Path.join p name /\ basename e = name.

(** Every path that lstat gave as a directory has been listed. *)
Definition descended (tr : list event) : Prop :=
  forall p st,
    EvIO (Lstat p) (RStats st) ∈ tr -> isDirectory st = true ->
    exists names, EvIO (Readdir p) (RNames names) ∈ tr.

Definition is_lstat_call (e : event) : bool :=
  match e with EvAwait (Lstat _) => true | _ => false end.

Definition lstat_calls (tr : list event) : nat :=
  length (filter (fun e => is_lstat_call e = true) tr).

(** What a resolved walk of [dir] has not missed. *)
Definition complete (dir : string) (ign : list string) (tr : list event)
    (files : list WalkFile) : Prop :=
  (exists names, EvIO (Readdir dir) (RNames names) ∈ tr)
  /\ listed ign tr files
  /\ descended tr
  /\ length files = lstat_calls tr.

Definition X16_run :=
  exec Sim.fs_exec (walk 2 "s" None (Some ["node_modules"])) ExWalk.start.

(** What [onFresh()] of line 106 leaves in the trace. *)
Definition fresh_events (onFresh : option nat) : list event :=
  EvDo (CallFresh onFresh)
  :: match onFresh with Some id => [EvCall (OnFresh id)] | None => [] end.

(** The item of the queue that line 79 makes of a submitted request. *)
Definition top_item (data : request) : request :=
  mkRequest (src data) (dest data) (onFresh data) (DoneProgress (dest data)).

Definition X18_run :=
  copyBulk Sim.fs_exec Sim.fifo 2 [Ex.top "s/a" "d/a"] None Ex.two_files.

(** * Reasoning about runs *)

(** ** What a program can do, read off its tree *)

Lemma guarded_impl {A : Type} (Qc Qc' : cmd -> Prop) (Qo Qo' : op -> Prop) (p : proc A) :
  (forall c, Qc c -> Qc' c) -> (forall o, Qo o -> Qo' o) ->
  guarded Qc Qo p -> guarded Qc' Qo' p.
Proof.
  intros Hc Ho. induction p as [a|e|c k IH|n k IH|o k IH|]; simpl; auto.
  - intros [? ?]; split; auto.
  - intros [? ?]; split; auto.
Qed.

Lemma guarded_bind {A B : Type} Qc Qo (p : proc A) (f : A -> proc B) :
  guarded Qc Qo p -> (forall a, guarded Qc Qo (f a)) -> guarded Qc Qo (bind p f).
Proof.
  intros Hp Hf. induction p as [a|e|c k IH|n k IH|o k IH|]; simpl in *; auto.
  - destruct Hp; split; auto.
  - destruct Hp; split; auto.
Qed.

Lemma guarded_for_each {A : Type} Qc Qo (l : list A) (body : A -> proc unit) :
  (forall x, guarded Qc Qo (body x)) -> guarded Qc Qo (for_each l body).
Proof.
  intros Hb. induction l as [|x l IH]; simpl; auto.
  apply guarded_bind; auto.
Qed.

Lemma guarded_await_unit Qc (Qo : op -> Prop) o : Qo o -> guarded Qc Qo (await_unit o).
Proof. intros H. split; auto. intros []; simpl; auto. Qed.
Lemma guarded_await_stats Qc (Qo : op -> Prop) o : Qo o -> guarded Qc Qo (await_stats o).
Proof. intros H. split; auto. intros []; simpl; auto. Qed.
Lemma guarded_await_names Qc (Qo : op -> Prop) o : Qo o -> guarded Qc Qo (await_names o).
Proof. intros H. split; auto. intros []; simpl; auto. Qed.
Lemma guarded_await_bool Qc (Qo : op -> Prop) o : Qo o -> guarded Qc Qo (await_bool o).
Proof. intros H. split; auto. intros []; simpl; auto. Qed.
Lemma guarded_await_string Qc (Qo : op -> Prop) o : Qo o -> guarded Qc Qo (await_string o).
Proof. intros H. split; auto. intros []; simpl; auto. Qed.

Lemma guarded_stmt Qc Qo (c : cmd) : Qc c -> guarded Qc Qo (stmt c).
Proof. intros H. split; auto. exact I. Qed.

Lemma guarded_invariant {A : Type} Qc Qo (v : option A) msg : guarded Qc Qo (invariant v msg).
Proof. destruct v; exact I. Qed.

Ltac guard_step :=
  repeat match goal with
    | |- guarded _ _ (bind _ _) => apply guarded_bind; [| intros ?]
    | |- guarded _ _ (for_each _ _) => apply guarded_for_each; intros ?
    | |- guarded _ _ (await_unit _) => apply guarded_await_unit
    | |- guarded _ _ (await_stats _) => apply guarded_await_stats
    | |- guarded _ _ (await_names _) => apply guarded_await_names
    | |- guarded _ _ (await_bool _) => apply guarded_await_bool
    | |- guarded _ _ (await_string _) => apply guarded_await_string
    | |- guarded _ _ (stmt _) => apply guarded_stmt
    | |- guarded _ _ (invariant _ _) => apply guarded_invariant
    | |- guarded _ _ (if ?b then _ else _) => destruct b
    | |- guarded _ _ (Ret _) => exact I
    | |- guarded _ _ (Throw _) => exact I
    end.

Lemma scan_dest_guarded r d srcFiles destFiles :
  guarded (build_cmd r) build_op (scan_dest d srcFiles destFiles).
Proof. unfold scan_dest, lstat, readdir. guard_step; simpl; auto. Qed.

Lemma copy_entry_guarded r srcStat srcFiles :
  guarded (build_cmd r) build_op (copy_entry r srcStat srcFiles).
Proof.
  unfold copy_entry, readlink, mkdirp.
  destruct (isSymbolicLink srcStat); [guard_step; simpl; auto|].
  destruct (isDirectory srcStat); [|guard_step; simpl; auto].
  guard_step; simpl; auto.
  intros i. guard_step; simpl; eauto.
Qed.

Lemma build_guarded fuel r : guarded (build_cmd r) build_op (build fuel r).
Proof.
  induction fuel as [|fuel IH]; [exact I|].
  cbn [build]. unfold lstat, readdir, exists_, access, unlink, readlink.
  guard_step; simpl; auto using scan_dest_guarded, copy_entry_guarded.
Qed.

(** ** Invariants of a pool of tasks

    [Inv h tr l]: the planner's objects [h], the trace [tr] and the tasks
    [l] that are waiting or suspended fit together.  When every step of a
    task keeps [Inv], so does a whole run of the pool, of the [while] loop
    and of one awaited program. *)

Section PoolInvariant.

Context {World : Type}.
Variable fs_exec : op -> World -> resp * World.
Variable pick : nat -> nat.

Variable Inv : heap -> list event -> list (proc unit) -> Prop.

Local Abbreviation InvC := (@InvC World Inv).

Hypothesis inv_perm : forall h tr l l', l ≡ₚ l' -> Inv h tr l -> Inv h tr l'.
Hypothesis inv_do : forall h tr c k l,
  Inv h tr (Do c k :: l) ->
  Inv (fst (exec_cmd c h)) (tr ++ EvDo c :: map EvCall (snd (exec_cmd c h))) (k :: l).
Hypothesis inv_new : forall h tr n k l,
  Inv h tr (NewCell n k :: l) ->
  Inv (set_cells (cells h ++ [n]) h) tr (k (length (cells h)) :: l).
Hypothesis inv_call : forall h tr o k l,
  Inv h tr (Await o k :: l) -> Inv h (tr ++ [EvAwait o]) (Await o k :: l).
Hypothesis inv_settle : forall h tr o k r l,
  Inv h tr (Await o k :: l) -> Inv h (tr ++ [EvIO o r]) (k r :: l).
Hypothesis inv_ret : forall h tr u l, Inv h tr (Ret u :: l) -> Inv h tr l.

Lemma run_sync_inv (p : proc unit) : forall h tr l s h' tr',
  Inv h tr (p :: l) -> run_sync p h tr = (s, h', tr') -> Inv h' tr' (of_sync s :: l).
Proof.
  induction p as [a|e|c k IH|n k IH|o k IH|]; intros h tr l s h' tr' HI Hr; simpl in Hr.
  - inversion Hr; subst; exact HI.
  - inversion Hr; subst; exact HI.
  - destruct (exec_cmd c h) as [h1 cbs] eqn:E.
    eapply IH; [|exact Hr].
    pose proof (inv_do _ _ _ _ _ HI) as H. rewrite E in H. exact H.
  - eapply IH; [|exact Hr]. apply inv_new. exact HI.
  - inversion Hr; subst. apply inv_call. exact HI.
  - inversion Hr; subst; exact HI.
Qed.

Lemma sync_in_inv (p : proc unit) (c : config) l s c' :
  InvC c (p :: l) -> sync_in p c = (s, c') -> InvC c' (of_sync s :: l).
Proof.
  unfold sync_in, InvC. intros HI Hs.
  destruct (run_sync p (c_heap c) (c_trace c)) as [[s0 h0] tr0] eqn:E.
  inversion Hs; subst; simpl. eapply run_sync_inv; eauto.
Qed.

Lemma settle_inv o k (c : config) l r c' :
  InvC c (Await o k :: l) -> settle fs_exec o c = (r, c') -> InvC c' (k r :: l).
Proof.
  unfold settle, InvC. intros HI Hs.
  destruct (fs_exec o (c_world c)) as [r0 w0].
  inversion Hs; subst; simpl. apply inv_settle. exact HI.
Qed.

Lemma launch_inv K : forall pending running c out c',
  InvC c (residual pending running) ->
  launch K pending running c = (out, c') ->
  match out with
  | Resolved (pending', running') => InvC c' (residual pending' running')
  | _ => exists l, InvC c' l
  end.
Proof.
  induction pending as [|p rest IH]; intros running c out c' HI HL; simpl in HL.
  - inversion HL; subst. exact HI.
  - destruct (length running <? K)%nat.
    + destruct (sync_in p c) as [s c1] eqn:Es.
      pose proof (sync_in_inv p c _ s c1 HI Es) as H1.
      destruct s as [u|e|o k|]; simpl in H1.
      * eapply IH; [|exact HL]. eapply inv_ret. exact H1.
      * inversion HL; subst. eexists; exact H1.
      * eapply IH; [|exact HL]. unfold residual, InvC in *.
        eapply inv_perm; [|exact H1].
        rewrite map_app. simpl. unfold of_task at 3. simpl.
        rewrite (Permutation_app_comm (map of_task running)). simpl.
        apply Permutation_middle.
      * inversion HL; subst. eexists; exact H1.
    + inversion HL; subst. exact HI.
Qed.

Lemma residual_pick pending (running : list task) i t :
  running !! i = Some t ->
  residual pending running ≡ₚ of_task t :: residual pending (delete i running).
Proof.
  intros Hi. unfold residual.
  rewrite (delete_Permutation running i t Hi) at 1. simpl.
  symmetry. apply Permutation_middle.
Qed.

Lemma residual_insert pending (running : list task) i t t' :
  running !! i = Some t ->
  of_task t' :: residual pending (delete i running) ≡ₚ residual pending (<[i := t']> running).
Proof.
  intros Hi. unfold residual.
  assert (Hl : (i < length running)%nat) by (eapply lookup_lt_Some; eauto).
  rewrite delete_take_drop, insert_take_drop by exact Hl.
  rewrite !map_app. simpl.
  rewrite (Permutation_middle pending). apply Permutation_app_head.
  apply Permutation_middle.
Qed.

Lemma run_pool_inv K : forall fuel pending running c out c',
  InvC c (residual pending running) ->
  run_pool fs_exec pick fuel K pending running c = (out, c') ->
  (out = Resolved tt -> InvC c' []) /\ exists l, InvC c' l.
Proof.
  induction fuel as [|fuel IH]; intros pending running c out c' HI HR; simpl in HR.
  - destruct (launch K pending running c) as [o1 c1] eqn:EL.
    pose proof (launch_inv K _ _ _ _ _ HI EL) as H1.
    destruct o1 as [[p' r']|e|].
    + destruct r' as [|t r'].
      * destruct p' as [|p0 p'].
        -- inversion HR; subst. split; [intros _; exact H1|eexists; exact H1].
        -- inversion HR; subst. split; [discriminate|eexists; exact H1].
      * inversion HR; subst. split; [discriminate|eexists; exact H1].
    + inversion HR; subst. split; [discriminate|exact H1].
    + inversion HR; subst. split; [discriminate|exact H1].
  - destruct (launch K pending running c) as [o1 c1] eqn:EL.
    pose proof (launch_inv K _ _ _ _ _ HI EL) as H1.
    destruct o1 as [[p' r']|e|].
    + destruct r' as [|t0 r0] eqn:Er.
      * destruct p' as [|p0 p'].
        -- inversion HR; subst. split; [intros _; exact H1|eexists; exact H1].
        -- inversion HR; subst. split; [discriminate|eexists; exact H1].
      * rewrite <- Er in *. clear Er.
        set (i := (pick (length (c_trace c1)) mod length r')%nat) in *.
        destruct (r' !! i) as [t|] eqn:Ei.
        2:{ inversion HR; subst. split; [discriminate|eexists; exact H1]. }
        destruct (settle fs_exec (fst t) c1) as [r c2] eqn:Es.
        assert (H2 : InvC c2 (resume t r :: residual p' (delete i r'))).
        { eapply settle_inv; [|exact Es].
          unfold InvC. eapply inv_perm; [|exact H1].
          apply (residual_pick p' r' i t Ei). }
        destruct (sync_in (resume t r) c2) as [s c3] eqn:Ey.
        pose proof (sync_in_inv _ _ _ _ _ H2 Ey) as H3.
        destruct s as [u|e|o k|]; simpl in H3.
        -- eapply IH; [|exact HR]. eapply inv_ret; exact H3.
        -- inversion HR; subst. split; [discriminate|eexists; exact H3].
        -- eapply IH; [|exact HR]. unfold InvC. eapply inv_perm; [|exact H3].
           apply (residual_insert p' r' i t (o, k) Ei).
        -- inversion HR; subst. split; [discriminate|eexists; exact H3].
    + inversion HR; subst. split; [discriminate|exact H1].
    + inversion HR; subst. split; [discriminate|exact H1].
Qed.

(** One program awaited on its own. *)
Lemma exec_inv (p : proc unit) : forall c out c',
  InvC c [p] -> exec fs_exec p c = (out, c') ->
  (forall u, out = Resolved u -> InvC c' []) /\ exists l, InvC c' l.
Proof.
  induction p as [a|e|cm k IH|n k IH|o k IH|]; intros c out c' HI HE; simpl in HE.
  - inversion HE; subst. split; [intros _ _; eapply inv_ret; exact HI|eexists; exact HI].
  - inversion HE; subst. split; [discriminate|eexists; exact HI].
  - eapply IH; [|exact HE]. unfold InvC, do_cmd in *.
    pose proof (inv_do _ _ _ _ _ HI) as H.
    destruct (exec_cmd cm (c_heap c)); simpl in *. exact H.
  - eapply IH; [|exact HE]. unfold InvC in *; simpl. apply inv_new. exact HI.
  - destruct (settle fs_exec o _) as [r c1] eqn:Es.
    eapply IH; [|exact HE]. eapply settle_inv; [|exact Es].
    unfold InvC; simpl. apply inv_call. exact HI.
  - inversion HE; subst. split; [discriminate|eexists; exact HI].
Qed.

(** The [while] loop of lines 91-94. *)
Variable fuel : nat.
Hypothesis inv_splice : forall h tr,
  Inv h tr [] ->
  Inv (set_queue (drop 4 (queue h)) h) tr (map (build fuel) (take 4 (queue h))).

Lemma drain_inv : forall n c out c',
  InvC c [] -> drain fs_exec pick fuel n c = (out, c') ->
  (out = Resolved tt -> InvC c' [] /\ queue (c_heap c') = []) /\ exists l, InvC c' l.
Proof.
  induction n as [|n IH]; intros c out c' HI HD; simpl in HD.
  - destruct (queue (c_heap c)) eqn:Eq; inversion HD; subst.
    + split; [intros _; split; auto|eexists; exact HI].
    + split; [discriminate|eexists; exact HI].
  - destruct (queue (c_heap c)) as [|r0 q0] eqn:Eq.
    + inversion HD; subst. split; [intros _; split; auto|eexists; exact HI].
    + rewrite <- Eq in HD.
      destruct (promise_all _ _ _ _ _) as [o1 c1] eqn:EP.
      unfold promise_all in EP.
      apply run_pool_inv in EP.
      2:{ unfold InvC, residual; simpl. rewrite app_nil_r. apply inv_splice. exact HI. }
      destruct EP as [Hres Hany].
      destruct o1 as [u|e|].
      * destruct u. eapply IH; [|exact HD]. auto.
      * inversion HD; subst. split; [discriminate|exact Hany].
      * inversion HD; subst. split; [discriminate|exact Hany].
Qed.

End PoolInvariant.

(** ** What the statements change *)

Lemma fire_done_fields cb : forall h,
  queue (fst (fire_done cb h)) = queue h
  /\ possibleExtraneous (fst (fire_done cb h)) = possibleExtraneous h
  /\ files (fst (fire_done cb h)) = files h
  /\ actions (fst (fire_done cb h)) = actions h.
Proof.
  induction cb as [| | |c parent IH]; intros h; simpl; auto.
  destruct (cells h !! c) as [n|]; simpl; auto.
  destruct (n - 1 =? 0); simpl; auto.
  destruct (IH (set_cells (<[c:=n - 1]> (cells h)) h)) as (?&?&?&?). auto.
Qed.

Lemma exec_cmd_queue c h :
  queue (fst (exec_cmd c h)) =
  match c with QueuePush r => queue h ++ [r] | _ => queue h end.
Proof.
  destruct c; simpl; auto.
  - destruct cb; auto.
  - apply fire_done_fields.
Qed.

Lemma exec_cmd_files c h :
  files (fst (exec_cmd c h)) =
  match c with FilesAdd p => {[p]} ∪ files h | _ => files h end.
Proof.
  destruct c; simpl; auto.
  - destruct cb; auto.
  - apply fire_done_fields.
Qed.

Lemma exec_cmd_actions c h :
  actions (fst (exec_cmd c h)) =
  match c with ActionsPush a => actions h ++ [a] | _ => actions h end.
Proof.
  destruct c; simpl; auto.
  - destruct cb; auto.
  - apply fire_done_fields.
Qed.

Lemma exec_cmd_possibleExtraneous c h :
  possibleExtraneous (fst (exec_cmd c h)) =
  match c with
  | ExtraneousAdd p => set_add p (possibleExtraneous h)
  | ExtraneousDelete p => set_delete p (possibleExtraneous h)
  | _ => possibleExtraneous h
  end.
Proof.
  destruct c; simpl; auto.
  - destruct cb; auto.
  - apply fire_done_fields.
Qed.

(** ** Traces guarded by what the tasks can do *)

Section Safety.

Context {World : Type}.
Variable fs_exec : op -> World -> resp * World.
Variable pick : nat -> nat.

Variable P_ev : event -> Prop.
Variable Qc : cmd -> Prop.
Variable Qo : op -> Prop.
Variable QR : request -> Prop.
Variable tr0 : list event.

Hypothesis Qc_ok : forall c h,
  Qc c -> Forall P_ev (EvDo c :: map EvCall (snd (exec_cmd c h))).
Hypothesis Qo_ok : forall o, Qo o -> P_ev (EvAwait o) /\ forall r, P_ev (EvIO o r).
Hypothesis Qc_push : forall r, Qc (QueuePush r) -> QR r.

Local Abbreviation since := (since P_ev tr0).
Local Abbreviation safe_inv := (safe_inv P_ev Qc Qo QR tr0).

Lemma since_app tr evs : since tr -> Forall P_ev evs -> since (tr ++ evs).
Proof.
  intros (suf & -> & Hs) He. exists (suf ++ evs). split.
  - by rewrite app_assoc.
  - apply Forall_app; auto.
Qed.

Lemma safe_perm h tr l l' : l ≡ₚ l' -> safe_inv h tr l -> safe_inv h tr l'.
Proof. intros Hp (?&?&Hl). split; [|split]; auto. by rewrite <- Hp. Qed.

Lemma safe_do h tr c k l :
  safe_inv h tr (Do c k :: l) ->
  safe_inv (fst (exec_cmd c h)) (tr ++ EvDo c :: map EvCall (snd (exec_cmd c h))) (k :: l).
Proof.
  intros (Hs & Hq & Hl). apply Forall_cons in Hl as [[Hc Hk] Hl].
  split; [|split].
  - apply since_app; auto.
  - rewrite exec_cmd_queue. destruct c; auto.
    apply Forall_app; split; auto.
  - apply Forall_cons; auto.
Qed.

Lemma safe_new h tr n k l :
  safe_inv h tr (NewCell n k :: l) ->
  safe_inv (set_cells (cells h ++ [n]) h) tr (k (length (cells h)) :: l).
Proof.
  intros (Hs & Hq & Hl). apply Forall_cons in Hl as [Hk Hl].
  split; [exact Hs|split; [exact Hq|]]. apply Forall_cons; split; [apply Hk|exact Hl].
Qed.

Lemma safe_call h tr o k l :
  safe_inv h tr (Await o k :: l) -> safe_inv h (tr ++ [EvAwait o]) (Await o k :: l).
Proof.
  intros (Hs & Hq & Hl). pose proof Hl as Hl'. apply Forall_cons in Hl' as [[Ho Hk] _].
  split; [|split; [exact Hq|exact Hl]]. apply since_app; auto.
  apply Forall_cons; split; [apply Qo_ok; auto|constructor].
Qed.

Lemma safe_settle h tr o k r l :
  safe_inv h tr (Await o k :: l) -> safe_inv h (tr ++ [EvIO o r]) (k r :: l).
Proof.
  intros (Hs & Hq & Hl). apply Forall_cons in Hl as [[Ho Hk] Hl].
  split; [|split; [exact Hq|]].
  - apply since_app; auto. apply Forall_cons; split; [apply Qo_ok; auto|constructor].
  - apply Forall_cons; auto.
Qed.

Lemma safe_ret h tr (u : unit) l : safe_inv h tr (Ret u :: l) -> safe_inv h tr l.
Proof. intros (Hs & Hq & Hl). apply Forall_cons in Hl as [_ Hl]. split; [|split]; auto. Qed.

Lemma run_pool_safe K fuel pending (c : config) out c' :
  since (c_trace c) -> Forall QR (queue (c_heap c)) -> Forall (guarded Qc Qo) pending ->
  run_pool fs_exec pick fuel K pending [] c = (out, c') ->
  since (c_trace c') /\ Forall QR (queue (c_heap c')).
Proof.
  intros Hs Hq Hp HR.
  eapply (run_pool_inv fs_exec pick safe_inv safe_perm safe_do safe_new safe_call
            safe_settle safe_ret) in HR.
  - destruct HR as [_ [l (?&?&?)]]. auto.
  - unfold InvC, residual, safe_inv. simpl. rewrite app_nil_r. auto.
Qed.

Lemma exec_safe (p : proc unit) (c : config) out c' :
  since (c_trace c) -> Forall QR (queue (c_heap c)) -> guarded Qc Qo p ->
  exec fs_exec p c = (out, c') ->
  since (c_trace c') /\ Forall QR (queue (c_heap c')).
Proof.
  intros Hs Hq Hp HE.
  eapply (exec_inv fs_exec safe_inv safe_do safe_new safe_call safe_settle safe_ret) in HE.
  - destruct HE as [_ [l (?&?&?)]]. auto.
  - unfold InvC, safe_inv. auto.
Qed.

Variable fuel : nat.
Hypothesis QR_build : forall r, QR r -> guarded Qc Qo (build fuel r).

Lemma safe_splice h tr :
  safe_inv h tr [] ->
  safe_inv (set_queue (drop 4 (queue h)) h) tr (map (build fuel) (take 4 (queue h))).
Proof.
  intros (Hs & Hq & _). split; [exact Hs|split].
  - simpl. apply Forall_drop. exact Hq.
  - apply Forall_map. apply (Forall_take _ 4%nat) in Hq.
    eapply Forall_impl; [exact Hq|]. intros r Hr. simpl. auto.
Qed.

Lemma drain_safe n (c : config) out c' :
  since (c_trace c) -> Forall QR (queue (c_heap c)) ->
  drain fs_exec pick fuel n c = (out, c') ->
  since (c_trace c') /\ Forall QR (queue (c_heap c')).
Proof.
  intros Hs Hq HD.
  eapply (drain_inv fs_exec pick safe_inv safe_perm safe_do safe_new safe_call
            safe_settle safe_ret fuel safe_splice) in HD.
  - destruct HD as [_ [l (?&?&?)]]. auto.
  - unfold InvC, safe_inv. auto.
Qed.

End Safety.

(** ** The three phases of copyBulk *)

Lemma fire_done_caller_free cb : forall h,
  caller_free cb ->
  Forall (fun c => match c with OnProgress _ => True | _ => False end) (snd (fire_done cb h)).
Proof.
  induction cb as [| | |c parent IH]; intros h Hf; simpl in *.
  - constructor.
  - destruct Hf.
  - repeat constructor.
  - destruct (cells h !! c) as [n|]; simpl; [|constructor].
    destruct (n - 1 =? 0); simpl; [|constructor]. apply IH. exact Hf.
Qed.

Lemma plan_cmd_ok c h :
  plan_cmd c -> Forall plan_ev (EvDo c :: map EvCall (snd (exec_cmd c h))).
Proof.
  intros Hc. constructor; [exact Hc|].
  destruct c; simpl in *; try constructor; try contradiction.
  - destruct cb; simpl; repeat constructor.
  - apply Forall_map. eapply Forall_impl; [apply fire_done_caller_free; exact Hc|].
    intros []; simpl; auto.
Qed.

Lemma build_op_ok o : build_op o -> plan_ev (EvAwait o) /\ forall r, plan_ev (EvIO o r).
Proof. intros H; split; auto. Qed.

Lemma plan_cmd_push r : plan_cmd (QueuePush r) -> caller_free (onDone r).
Proof. auto. Qed.

Lemma build_plan fuel r : caller_free (onDone r) -> guarded plan_cmd build_op (build fuel r).
Proof.
  intros Hr. eapply guarded_impl; [| |apply build_guarded]; [|auto].
  intros c Hc. destruct c; simpl in *; auto.
  - destruct Hc as [_ [cell ->]]. exact Hr.
  - subst; exact Hr.
Qed.

Lemma remove_extraneous_guarded Qc locs seen :
  guarded Qc build_op (remove_extraneous locs seen).
Proof.
  induction locs as [|loc rest IH]; cbn [remove_extraneous]; [exact I|].
  destruct (bool_decide (loc ∈ seen)); auto.
  apply guarded_bind; [apply guarded_await_unit; exact I|intros _; exact IH].
Qed.

Lemma initialise_events_free q :
  Forall (fun r => caller_free (onDone r)) (initialise_events q).
Proof. unfold initialise_events. apply Forall_map. apply Forall_true. intros r; exact I. Qed.

Lemma copy_file_guarded a :
  guarded (fun c => match c with CallProgress _ => True | _ => False end) file_op (copy_file a).
Proof. destruct a; cbn [copy_file]; [|exact I]. guard_step; simpl; auto. Qed.

Lemma link_action_guarded a : guarded (fun _ => False) link_op (link_action a).
Proof. destruct a; cbn [link_action]; [exact I|]. unfold fsSymlink. guard_step; simpl; auto. Qed.

Section Phases.

Context {World : Type}.
Variable fs_exec : op -> World -> resp * World.
Variable pick : nat -> nat.

Lemma plan_walk_trace fuel q seed w out c :
  plan_walk fs_exec pick fuel q seed w = (out, c) ->
  exists tr, c_trace c = start_events (length q) ++ tr /\ Forall plan_ev tr.
Proof.
  unfold plan_walk. intros HD.
  eapply (drain_safe fs_exec pick plan_ev plan_cmd build_op (fun r => caller_free (onDone r))
            (start_events (length q)) plan_cmd_ok build_op_ok plan_cmd_push fuel
            (build_plan fuel)) in HD.
  - destruct HD as [Hs _]. exact Hs.
  - exists []. split; [|constructor]. reflexivity.
  - simpl. apply initialise_events_free.
Qed.

Lemma buildActionsForCopy_trace fuel q seed w out c :
  buildActionsForCopy fs_exec pick fuel q seed w = (out, c) ->
  exists tr, c_trace c = start_events (length q) ++ tr /\ Forall plan_ev tr.
Proof.
  unfold buildActionsForCopy. intros HB.
  destruct (plan_walk fs_exec pick fuel q seed w) as [o1 c1] eqn:EW.
  pose proof (plan_walk_trace _ _ _ _ _ _ EW) as H1.
  destruct o1 as [u|e|]; try (inversion HB; subst; exact H1).
  destruct (exec fs_exec _ c1) as [o2 c2] eqn:EE.
  eapply (exec_safe fs_exec plan_ev plan_cmd build_op (fun _ => True)
            (start_events (length q)) plan_cmd_ok build_op_ok (fun _ _ => I)) in EE.
  - destruct EE as [Hs _]. destruct o2; inversion HB; subst; exact Hs.
  - exact H1.
  - apply Forall_true. auto.
  - apply remove_extraneous_guarded.
Qed.

End Phases.

(** ** The file copies of a resolved pool have all completed *)

Lemma copied_app a tr evs : copied a tr -> copied a (tr ++ evs).
Proof.
  destruct a; simpl; auto. intros (t1 & t2 & t3 & ->).
  exists t1, t2, (t3 ++ evs).
  rewrite <- app_assoc. simpl. rewrite <- app_assoc. reflexivity.
Qed.

Lemma streamed_app a tr evs : streamed a tr -> streamed a (tr ++ evs).
Proof.
  destruct a; simpl; auto. intros (t1 & t2 & ->).
  exists t1, (t2 ++ evs). rewrite <- app_assoc. reflexivity.
Qed.

Lemma classic_throw {A : Type} (p : proc A) :
  (exists e, p = Throw e) \/ (forall e, p <> Throw e).
Proof. destruct p; try (right; discriminate). left; eauto. Qed.

Lemma copy_file_not_ret a (u : unit) : copy_file a <> Ret u /\ copy_file_rest a <> Ret u.
Proof. destruct a; split; discriminate. Qed.

Lemma copy_file_not_do a c k : copy_file a <> Do c k /\ copy_file_rest a <> Do c k.
Proof. destruct a; split; discriminate. Qed.

Lemma copy_file_not_new a n k : copy_file a <> NewCell n k /\ copy_file_rest a <> NewCell n k.
Proof. destruct a; split; discriminate. Qed.

Section FilePool.

Variable acts : list action.

Lemma file_perm h tr l l' : l ≡ₚ l' -> file_inv acts h tr l -> file_inv acts h tr l'.
Proof.
  intros Hp [[e He]|H]; [left; exists e; by rewrite <- Hp|right].
  eapply Forall_impl; [exact H|]. intros a Ha Hf. specialize (Ha Hf).
  rewrite <- !Hp. exact Ha.
Qed.

(** A step of the head task that no file copy is waiting at. *)
Lemma file_skip h h' tr evs (p p' : proc unit) l :
  (forall a, copy_file a <> p /\ copy_file_rest a <> p) ->
  (forall e, p <> Throw e) ->
  file_inv acts h tr (p :: l) -> file_inv acts h' (tr ++ evs) (p' :: l).
Proof.
  intros Hne Hnt [[e He]|H].
  - left. exists e. apply elem_of_cons in He as [He|He]; [by destruct (Hnt e)|].
    apply elem_of_cons; auto.
  - right. eapply Forall_impl; [exact H|]. intros a Ha Hf.
    destruct (Ha Hf) as [Hc|[Hi|[Hs Hi]]].
    + left. by apply copied_app.
    + right; left. apply elem_of_cons in Hi as [Hi|Hi]; [by destruct (Hne a)|].
      apply elem_of_cons; auto.
    + right; right. split; [by apply streamed_app|].
      apply elem_of_cons in Hi as [Hi|Hi]; [by destruct (Hne a)|].
      apply elem_of_cons; auto.
Qed.

Lemma file_do h tr c k l :
  file_inv acts h tr (Do c k :: l) ->
  file_inv acts (fst (exec_cmd c h)) (tr ++ EvDo c :: map EvCall (snd (exec_cmd c h))) (k :: l).
Proof.
  apply file_skip; [|discriminate].
  intros a. destruct (copy_file_not_do a c k). split; congruence.
Qed.

Lemma file_new h tr n k l :
  file_inv acts h tr (NewCell n k :: l) ->
  file_inv acts (set_cells (cells h ++ [n]) h) tr (k (length (cells h)) :: l).
Proof.
  intros H. rewrite <- (app_nil_r tr). revert H.
  apply file_skip; [|discriminate].
  intros a. destruct (copy_file_not_new a n k). split; congruence.
Qed.

Lemma file_call h tr o k l :
  file_inv acts h tr (Await o k :: l) -> file_inv acts h (tr ++ [EvAwait o]) (Await o k :: l).
Proof.
  intros [[e He]|H]; [left; eauto|right].
  eapply Forall_impl; [exact H|]. intros a Ha Hf.
  destruct (Ha Hf) as [Hc|[Hi|[Hs Hi]]]; auto using copied_app, streamed_app.
Qed.

Lemma file_ret h tr (u : unit) l : file_inv acts h tr (Ret u :: l) -> file_inv acts h tr l.
Proof.
  intros [[e He]|H].
  - left. exists e. apply elem_of_cons in He as [He|He]; [discriminate|auto].
  - right. eapply Forall_impl; [exact H|]. intros a Ha Hf.
    destruct (copy_file_not_ret a u).
    destruct (Ha Hf) as [Hc|[Hi|[Hs Hi]]]; auto.
    + right; left. apply elem_of_cons in Hi as [Hi|Hi]; [congruence|auto].
    + right; right. split; auto. apply elem_of_cons in Hi as [Hi|Hi]; [congruence|auto].
Qed.

Lemma file_settle h tr o k r l :
  file_inv acts h tr (Await o k :: l) -> file_inv acts h (tr ++ [EvIO o r]) (k r :: l).
Proof.
  intros [[e He]|H].
  - left. exists e. apply elem_of_cons in He as [He|He]; [discriminate|].
    apply elem_of_cons; auto.
  - destruct (classic_throw (k r)) as [[e He]|Hnt].
    { left. exists e. rewrite He. apply elem_of_cons; auto. }
    right. eapply Forall_impl; [exact H|]. intros a Ha Hf.
    destruct a as [src dest atime mtime mode|]; [|discriminate].
    destruct (Ha Hf) as [Hc|[Hi|[Hs Hi]]].
    + left. by apply copied_app.
    + apply elem_of_cons in Hi as [Hi|Hi].
      * right; right. cbn [copy_file] in Hi. inversion Hi; subst. clear Hi.
        destruct r; simpl in Hnt; try (exfalso; eapply Hnt; reflexivity).
        split; [exists tr, []; reflexivity|]. apply elem_of_cons; left. reflexivity.
      * right; left. apply elem_of_cons; auto.
    + apply elem_of_cons in Hi as [Hi|Hi].
      * left. cbn [copy_file_rest] in Hi. inversion Hi; subst. clear Hi.
        destruct r; simpl in Hnt; try (exfalso; eapply Hnt; reflexivity).
        destruct Hs as (t1 & t2 & ->). exists t1, t2, [].
        rewrite <- app_assoc. reflexivity.
      * right; right. split; [by apply streamed_app|]. apply elem_of_cons; auto.
Qed.

End FilePool.

Lemma app_eq_split {A : Type} (P : A -> Prop) (l1 l2 pre post : list A) x :
  l1 ++ l2 = pre ++ x :: post -> Forall P l1 -> ~ P x ->
  exists m, pre = l1 ++ m /\ l2 = m ++ x :: post.
Proof.
  revert pre. induction l1 as [|y l1 IH]; intros pre Heq Hall Hx; simpl in *.
  - exists pre. auto.
  - apply Forall_cons in Hall as [Hy Hall].
    destruct pre as [|z pre]; simpl in Heq.
    + inversion Heq; subst. contradiction.
    + inversion Heq; subst. destruct (IH pre H1 Hall Hx) as (m & -> & ->).
      exists m. auto.
Qed.

Section CopyBulk.

Context {World : Type}.
Variable fs_exec : op -> World -> resp * World.
Variable pick : nat -> nat.

Lemma file_pool_done fuel K acts (c : config) c' :
  run_pool fs_exec pick fuel K (map copy_file acts) [] c = (Resolved tt, c') ->
  Forall (fun a => is_file_action a = true -> copied a (c_trace c')) acts.
Proof.
  intros HR.
  eapply (run_pool_inv fs_exec pick (file_inv acts) (file_perm acts) (file_do acts)
            (file_new acts) (file_call acts) (file_settle acts) (file_ret acts)) in HR.
  - destruct HR as [HR _]. specialize (HR eq_refl). destruct HR as [[e He]|H].
    + by apply elem_of_nil in He.
    + eapply Forall_impl; [exact H|]. intros a Ha Hf.
      destruct (Ha Hf) as [Hc|[Hi|[_ Hi]]]; auto; by apply elem_of_nil in Hi.
  - unfold InvC, residual. simpl. rewrite app_nil_r. right.
    apply Forall_forall. intros a Ha _. right; left.
    apply list_elem_of_fmap. exists a. auto.
Qed.

Lemma file_pool_trace fuel K acts (c : config) out c' :
  run_pool fs_exec pick fuel K (map copy_file acts) [] c = (out, c') ->
  exists tr, c_trace c' = c_trace c ++ tr /\ Forall file_ev tr.
Proof.
  intros HR.
  eapply (run_pool_safe fs_exec pick file_ev
            (fun c => match c with CallProgress _ => True | _ => False end)
            file_op (fun _ => True) (c_trace c)) in HR.
  - destruct HR as [Hs _]. exact Hs.
  - intros [] h Hc; try contradiction. simpl. repeat constructor.
  - intros o Ho; split; auto.
  - auto.
  - exists []. split; [by rewrite app_nil_r|constructor].
  - apply Forall_true. auto.
  - apply Forall_map. apply Forall_true. intros a. apply copy_file_guarded.
Qed.

Lemma link_pool_trace fuel K acts (c : config) out c' :
  run_pool fs_exec pick fuel K (map link_action acts) [] c = (out, c') ->
  exists tr, c_trace c' = c_trace c ++ tr /\ Forall link_ev tr.
Proof.
  intros HR.
  eapply (run_pool_safe fs_exec pick link_ev (fun _ => False) link_op (fun _ => True)
            (c_trace c)) in HR.
  - destruct HR as [Hs _]. exact Hs.
  - intros ? ? [].
  - intros o Ho; split; auto.
  - auto.
  - exists []. split; [by rewrite app_nil_r|constructor].
  - apply Forall_true. auto.
  - apply Forall_map. apply Forall_true. intros a. apply link_action_guarded.
Qed.

Lemma copyBulk_phases fuel q seed w out c :
  copyBulk fs_exec pick fuel q seed w = (out, c) ->
  exists po cp tr_plan,
    buildActionsForCopy fs_exec pick fuel q seed w = (po, cp)
    /\ c_trace cp = start_events (length q) ++ tr_plan
    /\ Forall plan_ev tr_plan
    /\ match po with
       | Resolved acts =>
           exists tr_files tr_links,
             c_trace c = (c_trace cp ++ start_events (length acts) ++ tr_files) ++ tr_links
             /\ Forall file_ev tr_files
             /\ Forall link_ev tr_links
             /\ (tr_links <> [] ->
                 Forall (fun a => is_file_action a = true ->
                           copied a (c_trace cp ++ start_events (length acts) ++ tr_files)) acts)
       | _ => c = cp
       end.
Proof.
  unfold copyBulk. intros HC.
  destruct (buildActionsForCopy fs_exec pick fuel q seed w) as [po cp] eqn:EB.
  destruct (buildActionsForCopy_trace _ _ _ _ _ _ _ _ EB) as (tr_plan & Htr & Hplan).
  exists po, cp, tr_plan. split; [reflexivity|]. split; [exact Htr|]. split; [exact Hplan|].
  destruct po as [acts|e|]; try (inversion HC; subst; reflexivity).
  unfold promise_queue in HC. simpl in HC.
  set (c1 := do_cmd (CallStart (Z.of_nat (length acts))) cp) in *.
  assert (Hc1 : c_trace c1 = c_trace cp ++ start_events (length acts)) by reflexivity.
  destruct (run_pool fs_exec pick fuel 4 _ [] c1) as [of_ cf] eqn:EF.
  destruct (file_pool_trace _ _ _ _ _ _ EF) as (tr_files & Hf & Hfev).
  rewrite Hc1, <- app_assoc in Hf.
  destruct of_ as [u|e|].
  - destruct (link_pool_trace _ _ _ _ _ _ HC) as (tr_links & Hl & Hlev).
    exists tr_files, tr_links. rewrite <- Hf.
    split; [exact Hl|]. split; [exact Hfev|]. split; [exact Hlev|].
    intros _. destruct u. apply file_pool_done in EF.
    apply Forall_forall. intros a Ha Hfa.
    rewrite Forall_forall in EF. apply EF; auto.
    apply list_elem_of_filter. auto.
  - inversion HC; subst. exists tr_files, [].
    rewrite app_nil_r. split; [exact Hf|]. split; [exact Hfev|]. split; [constructor|].
    congruence.
  - inversion HC; subst. exists tr_files, [].
    rewrite app_nil_r. split; [exact Hf|]. split; [exact Hfev|]. split; [constructor|].
    congruence.
Qed.

End CopyBulk.

(** ** The extraneous set and the set of seen paths *)

Lemma deletes_seen_mono {A : Type} (p : proc A) : forall S S',
  S ⊆ S' -> deletes_seen S p -> deletes_seen S' p.
Proof.
  induction p as [a|e|c k IH|n k IH|o k IH|]; intros S S' Hsub; simpl; auto.
  - destruct c; try (apply IH; exact Hsub).
    + apply IH. apply union_mono_l. exact Hsub.
    + intros [? ?]. split; [apply Hsub; assumption|eauto].
  - intros H i. eapply IH; eauto.
  - intros H r. eapply IH; eauto.
Qed.

Lemma guarded_deletes_seen {A : Type} r Qo (p : proc A) : forall S,
  dest r ∈ S -> guarded (build_cmd r) Qo p -> deletes_seen S p.
Proof.
  induction p as [a|e|c k IH|n k IH|o k IH|]; intros S Hin; simpl; auto.
  - intros [Hc Hk]. destruct c; simpl in Hc; try (apply IH; assumption).
    + apply IH; [apply elem_of_union_r; assumption|assumption].
    + subst. split; auto.
  - intros [_ Hk] r0. apply IH; auto.
Qed.

Lemma build_deletes_seen fuel r seen : deletes_seen seen (build fuel r).
Proof.
  destruct fuel as [|fuel]; [exact I|].
  pose proof (build_guarded (S fuel) r) as Hg.
  cbn [build] in *. unfold stmt in *. cbn [bind guarded deletes_seen] in *.
  destruct Hg as [_ Hg].
  eapply guarded_deletes_seen; [|exact Hg]. apply elem_of_union_l, elem_of_singleton. reflexivity.
Qed.

Lemma elem_of_set_add p q s : p ∈ set_add q s <-> p = q \/ p ∈ s.
Proof.
  unfold set_add. case_bool_decide as Hq; [split; [tauto|intros [->|Hp]; assumption]|].
  rewrite elem_of_app, list_elem_of_singleton. tauto.
Qed.

Lemma elem_of_set_delete p q s : p ∈ set_delete q s <-> p ∈ s /\ p <> q.
Proof. unfold set_delete. rewrite list_elem_of_filter. tauto. Qed.

Lemma elem_of_seed p l : p ∈ foldl (fun s x => set_add x s) [] l <-> p ∈ l.
Proof.
  assert (H : forall acc, p ∈ foldl (fun s x => set_add x s) acc l <-> p ∈ acc \/ p ∈ l).
  { induction l as [|x l IH]; intros acc; simpl.
    - rewrite elem_of_nil. tauto.
    - rewrite IH, elem_of_set_add, elem_of_cons. tauto. }
  rewrite H, elem_of_nil. tauto.
Qed.

Lemma elem_of_trace_do (e : event) tr c cbs :
  e ∈ tr ++ EvDo c :: map EvCall cbs <-> e ∈ tr \/ e = EvDo c \/ e ∈ map EvCall cbs.
Proof. rewrite elem_of_app, elem_of_cons. tauto. Qed.

Lemma not_call_in_do c cbs : EvDo c ∉ map EvCall cbs.
Proof. intros H. apply list_elem_of_fmap in H as (x & Hx & _). discriminate. Qed.

Section Extraneous.

Variable seed : option (list string).

Lemma extraneous_perm h tr l l' :
  l ≡ₚ l' -> extraneous_inv seed h tr l -> extraneous_inv seed h tr l'.
Proof. intros Hp (?&?&?&Hl). repeat (split; [assumption|]). by rewrite <- Hp. Qed.

Lemma extraneous_do h tr c k l :
  extraneous_inv seed h tr (Do c k :: l) ->
  extraneous_inv seed (fst (exec_cmd c h))
    (tr ++ EvDo c :: map EvCall (snd (exec_cmd c h))) (k :: l).
Proof.
  intros (J1 & J2 & J3 & Hl). apply Forall_cons in Hl as [Hk Hl].
  unfold extraneous_inv, provisionally_extraneous in *.
  rewrite exec_cmd_possibleExtraneous, exec_cmd_files.
  assert (Hmono : forall S', files h ⊆ S' -> Forall (deletes_seen S') l).
  { intros S' Hs. eapply Forall_impl; [exact Hl|]. intros p. by apply deletes_seen_mono. }
  split; [|split; [|split]].
  - intros p [Hp|Hp].
    + destruct (J1 p (or_introl Hp)) as [Hi|Hi].
      * destruct c; auto.
        -- left. apply elem_of_set_add. auto.
        -- simpl in Hk. destruct Hk as [Hq _].
           destruct (decide (p = p0)) as [->|Hne]; [right; auto|].
           left. apply elem_of_set_delete. auto.
      * right. destruct c; auto. apply elem_of_union_r. exact Hi.
    + apply elem_of_trace_do in Hp as [Hp|[Hp|Hp]].
      * destruct (J1 p (or_intror Hp)) as [Hi|Hi].
        -- destruct c; auto.
           ++ left. apply elem_of_set_add. auto.
           ++ simpl in Hk. destruct Hk as [Hq _].
              destruct (decide (p = p0)) as [->|Hne]; [right; auto|].
              left. apply elem_of_set_delete. auto.
        -- right. destruct c; auto. apply elem_of_union_r. exact Hi.
      * inversion Hp; subst. left. apply elem_of_set_add. auto.
      * by apply not_call_in_do in Hp.
  - intros p Hp.
    assert (Hold : p ∈ possibleExtraneous h -> p ∈ default [] seed
                   \/ EvDo (ExtraneousAdd p) ∈ tr ++ EvDo c :: map EvCall (snd (exec_cmd c h))).
    { intros Hi. destruct (J2 p Hi); auto. right. apply elem_of_trace_do. auto. }
    destruct c; auto.
    + apply elem_of_set_add in Hp as [->|Hp]; auto.
      right. apply elem_of_trace_do. auto.
    + apply elem_of_set_delete in Hp as [Hp _]. auto.
  - intros p. rewrite elem_of_trace_do. split.
    + intros Hp. destruct c; try (left; apply J3; exact Hp).
      apply elem_of_union in Hp as [Hp|Hp]; [|left; apply J3; exact Hp].
      apply elem_of_singleton in Hp. subst. auto.
    + intros [Hp|[Hp|Hp]].
      * apply J3 in Hp. destruct c; auto. apply elem_of_union_r. exact Hp.
      * inversion Hp; subst. apply elem_of_union_l, elem_of_singleton. reflexivity.
      * by apply not_call_in_do in Hp.
  - apply Forall_cons. split.
    + destruct c; simpl in Hk; auto. tauto.
    + destruct c; try exact Hl. apply Hmono. apply union_subseteq_r.
Qed.

Lemma extraneous_new h tr n k l :
  extraneous_inv seed h tr (NewCell n k :: l) ->
  extraneous_inv seed (set_cells (cells h ++ [n]) h) tr (k (length (cells h)) :: l).
Proof.
  intros (J1 & J2 & J3 & Hl). apply Forall_cons in Hl as [Hk Hl].
  repeat (split; [assumption|]). apply Forall_cons. split; [apply Hk|exact Hl].
Qed.

Lemma provisionally_app tr evs p :
  (forall q, EvDo (ExtraneousAdd q) ∉ evs) ->
  provisionally_extraneous seed (tr ++ evs) p <-> provisionally_extraneous seed tr p.
Proof.
  intros Hn. unfold provisionally_extraneous. rewrite elem_of_app.
  split; [intros [?|[?|?]]; auto; by destruct (Hn p)|tauto].
Qed.

Lemma extraneous_event h tr l e :
  (forall c, e <> EvDo c) ->
  extraneous_inv seed h tr l -> extraneous_inv seed h (tr ++ [e]) l.
Proof.
  intros He (J1 & J2 & J3 & Hl).
  assert (Hn : forall c, EvDo c ∉ [e]).
  { intros c Hc. apply list_elem_of_singleton in Hc. by destruct (He c). }
  split; [|split; [|split]]; auto.
  - intros p Hp. apply provisionally_app in Hp; auto.
  - intros p Hp. apply provisionally_app; auto.
  - intros p. rewrite elem_of_app, J3. split; [auto|]. intros [?|?]; auto. by destruct (Hn (FilesAdd p)).
Qed.

Lemma extraneous_call h tr o k l :
  extraneous_inv seed h tr (Await o k :: l) ->
  extraneous_inv seed h (tr ++ [EvAwait o]) (Await o k :: l).
Proof. apply extraneous_event. discriminate. Qed.

Lemma extraneous_settle h tr o k r l :
  extraneous_inv seed h tr (Await o k :: l) ->
  extraneous_inv seed h (tr ++ [EvIO o r]) (k r :: l).
Proof.
  intros H. apply (extraneous_event _ _ _ (EvIO o r)) in H; [|discriminate].
  destruct H as (J1 & J2 & J3 & Hl). apply Forall_cons in Hl as [Hk Hl].
  repeat (split; [assumption|]). apply Forall_cons. split; [apply Hk|exact Hl].
Qed.

Lemma extraneous_ret h tr (u : unit) l :
  extraneous_inv seed h tr (Ret u :: l) -> extraneous_inv seed h tr l.
Proof.
  intros (J1 & J2 & J3 & Hl). apply Forall_cons in Hl as [_ Hl].
  repeat (split; [assumption|]). exact Hl.
Qed.

Lemma extraneous_splice fuel h tr :
  extraneous_inv seed h tr [] ->
  extraneous_inv seed (set_queue (drop 4 (queue h)) h) tr (map (build fuel) (take 4 (queue h))).
Proof.
  intros (J1 & J2 & J3 & _). repeat (split; [assumption|]).
  apply Forall_map. apply Forall_true. intros r. apply build_deletes_seen.
Qed.

End Extraneous.

(** ** Calls of onFresh and emitted actions *)

Lemma fresh_wp_impl {A : Type} i (p : proc A) : forall b (post post' : A -> bool -> Prop),
  (forall a b', post a b' -> post' a b') -> fresh_wp i p b post -> fresh_wp i p b post'.
Proof.
  induction p as [a|e|c k IH|n k IH|o k IH|]; intros b post post' Hi; simpl; auto.
  - destruct c; try (apply IH; exact Hi).
    + intros [? ?]. split; [assumption|]. eapply IH; eauto.
    + intros [? ?]. split; [assumption|]. eapply IH; eauto.
    + intros (?&?&?). split; [assumption|]. split; [assumption|]. eapply IH; eauto.
  - intros H j. eapply IH; eauto.
  - intros H r. eapply IH; eauto.
Qed.

Lemma fresh_wp_bind {A B : Type} i (p : proc A) (f : A -> proc B) : forall b post,
  fresh_wp i p b (fun a b' => fresh_wp i (f a) b' post) -> fresh_wp i (bind p f) b post.
Proof.
  induction p as [a|e|c k IH|n k IH|o k IH|]; intros b post; simpl; auto.
  - destruct c; try (apply IH).
    + intros [? ?]. split; [assumption|]. apply IH; assumption.
    + intros [? ?]. split; [assumption|]. apply IH; assumption.
    + intros (?&?&?). split; [assumption|]. split; [assumption|]. apply IH; assumption.
Qed.

Lemma fresh_wp_for_each {A : Type} i (l : list A) (body : A -> proc unit) b
    (post : unit -> bool -> Prop) :
  (forall x (post' : unit -> bool -> Prop), post' tt b -> fresh_wp i (body x) b post') ->
  post tt b -> fresh_wp i (for_each l body) b post.
Proof.
  intros Hb Hp. induction l as [|x l IH]; simpl; [exact Hp|].
  apply fresh_wp_bind. apply Hb. exact IH.
Qed.

Lemma fresh_wp_await_unit i o b (post : unit -> bool -> Prop) :
  post tt b -> fresh_wp i (await_unit o) b post.
Proof. intros H []; simpl; auto. Qed.
Lemma fresh_wp_await_stats i o b (post : Stats -> bool -> Prop) :
  (forall s, post s b) -> fresh_wp i (await_stats o) b post.
Proof. intros H []; simpl; auto. Qed.
Lemma fresh_wp_await_names i o b (post : list string -> bool -> Prop) :
  (forall s, post s b) -> fresh_wp i (await_names o) b post.
Proof. intros H []; simpl; auto. Qed.
Lemma fresh_wp_await_bool i o b (post : bool -> bool -> Prop) :
  (forall s, post s b) -> fresh_wp i (await_bool o) b post.
Proof. intros H []; simpl; auto. Qed.
Lemma fresh_wp_await_string i o b (post : string -> bool -> Prop) :
  (forall s, post s b) -> fresh_wp i (await_string o) b post.
Proof. intros H []; simpl; auto. Qed.
Lemma fresh_wp_invariant {A : Type} i (v : option A) msg b (post : A -> bool -> Prop) :
  (forall a, post a b) -> fresh_wp i (invariant v msg) b post.
Proof. intros H. destruct v; simpl; auto. Qed.

Ltac fresh_step :=
  repeat match goal with
    | |- fresh_wp _ (bind _ _) _ _ => apply fresh_wp_bind
    | |- fresh_wp _ (await_unit _) _ _ => apply fresh_wp_await_unit
    | |- fresh_wp _ (await_stats _) _ _ => apply fresh_wp_await_stats; intros ?
    | |- fresh_wp _ (await_names _) _ _ => apply fresh_wp_await_names; intros ?
    | |- fresh_wp _ (await_bool _) _ _ => apply fresh_wp_await_bool; intros ?
    | |- fresh_wp _ (await_string _) _ _ => apply fresh_wp_await_string; intros ?
    | |- fresh_wp _ (invariant _ _) _ _ => apply fresh_wp_invariant; intros ?
    | |- fresh_wp _ (if ?c then _ else _) _ _ => destruct c
    | |- fresh_wp _ (Ret _) _ _ => cbn [fresh_wp]
    | |- fresh_wp _ (Throw _) _ _ => exact I
    | |- fresh_wp _ (stmt _) _ _ => unfold stmt; cbn [fresh_wp]
    | |- fresh_wp _ (Do _ _) _ _ => cbn [fresh_wp]
    | |- _ /\ _ => split; [reflexivity || assumption|]
    | |- _ => progress cbv beta
    end.

Lemma scan_dest_fresh i d srcFiles destFiles (post : unit -> bool -> Prop) :
  post tt false -> fresh_wp i (scan_dest d srcFiles destFiles) false post.
Proof.
  intros Hp. unfold scan_dest. apply fresh_wp_for_each; [|exact Hp].
  intros file post' Hp'. unfold lstat, readdir. fresh_step; try exact Hp'.
  apply fresh_wp_for_each; [|exact Hp'].
  intros f post'' Hp''. fresh_step. exact Hp''.
Qed.

Lemma copy_entry_fresh i r srcStat srcFiles :
  onFresh r = Some i -> fresh_ok i false (copy_entry r srcStat srcFiles).
Proof.
  intros Hr. unfold fresh_ok, copy_entry, readlink, mkdirp.
  destruct (isSymbolicLink srcStat); [fresh_step; reflexivity|].
  destruct (isDirectory srcStat); [|fresh_step; reflexivity].
  fresh_step.
  apply fresh_wp_for_each; [intros p post' Hp'; fresh_step; exact Hp'|].
  fresh_step. intros j. fresh_step.
  - apply fresh_wp_for_each; [|reflexivity].
    intros f post' Hp'. fresh_step. exact Hp'.
  - apply fresh_wp_for_each; [|reflexivity].
    intros f post' Hp'. fresh_step. exact Hp'.
Qed.

Lemma build_fresh i fuel r : onFresh r = Some i -> fresh_ok i false (build fuel r).
Proof.
  intros Hr. induction fuel as [|fuel IH]; [exact I|].
  unfold fresh_ok in *. cbn [build].
  unfold lstat, readdir, exists_, access, unlink, readlink.
  fresh_step; try reflexivity; try exact IH;
    try (apply copy_entry_fresh; exact Hr);
    try (apply scan_dest_fresh; apply copy_entry_fresh; exact Hr).
Qed.

Lemma fresh_calls_app i tr1 tr2 :
  fresh_calls i (tr1 ++ tr2) = (fresh_calls i tr1 + fresh_calls i tr2)%nat.
Proof. unfold fresh_calls. by rewrite filter_app, length_app. Qed.

Lemma fresh_calls_none i (P : event -> Prop) tr :
  (forall e, P e -> is_fresh i e = false) -> Forall P tr -> fresh_calls i tr = 0%nat.
Proof.
  intros HP. induction 1 as [|e tr He _ IH]; [reflexivity|].
  unfold fresh_calls in *. rewrite filter_cons.
  rewrite decide_False by (rewrite (HP e He); discriminate). exact IH.
Qed.

Lemma fire_done_not_fresh cb : forall h,
  Forall (fun c => match c with OnFresh _ => False | _ => True end) (snd (fire_done cb h)).
Proof.
  induction cb as [| | |c parent IH]; intros h; simpl; repeat constructor.
  destruct (cells h !! c) as [n|]; simpl; [|constructor].
  destruct (n - 1 =? 0); simpl; [apply IH|constructor].
Qed.

(** The calls of onFresh that one statement makes. *)
Lemma fresh_calls_cmd i c h :
  fresh_calls i (EvDo c :: map EvCall (snd (exec_cmd c h))) =
  match c with
  | CallFresh (Some j) => if Nat.eqb i j then 1%nat else 0%nat
  | _ => 0%nat
  end.
Proof.
  destruct c; try reflexivity.
  - destruct cb as [j|]; [|reflexivity]. unfold fresh_calls. simpl.
    rewrite filter_cons. simpl. rewrite filter_cons. simpl.
    destruct (Nat.eqb i j); reflexivity.
  - simpl. apply (fresh_calls_none i
      (fun e => match e with EvCall (OnFresh _) => False | _ => True end)).
    + intros [|[]| |]; simpl; auto; contradiction.
    + constructor; [exact I|]. apply Forall_map.
      eapply Forall_impl; [apply fire_done_not_fresh|]. intros []; simpl; auto.
Qed.

Lemma owing_cons b p l :
  owing ((b, p) :: l) = ((if b then 1 else 0) + owing l)%nat.
Proof. unfold owing. rewrite filter_cons. simpl. destruct b; reflexivity. Qed.

Section Fresh.

Variable i : nat.

Lemma fresh_perm h tr l l' : l ≡ₚ l' -> fresh_inv i h tr l -> fresh_inv i h tr l'.
Proof.
  intros Hp (Hq & tagged & -> & Hall & Hcount). split; [exact Hq|].
  symmetry in Hp. apply Permutation_map_inv in Hp as (tagged' & -> & Hp').
  exists tagged'. split; [reflexivity|]. split.
  - by rewrite <- Hp'.
  - rewrite Hcount. unfold owing. by rewrite Hp'.
Qed.

(** A step of the head task: the new head, its flag, and the count. *)
Lemma fresh_step_head h h' tr tr' (p p' : proc unit) l :
  (forall b, fresh_ok i b p ->
     exists b', fresh_ok i b' p'
       /\ (fresh_calls i tr' + length (actions h) + (if b then 1 else 0)
           = fresh_calls i tr + length (actions h') + (if b' then 1 else 0))%nat) ->
  Forall (fun r => onFresh r = Some i) (queue h') ->
  fresh_inv i h tr (p :: l) -> fresh_inv i h' tr' (p' :: l).
Proof.
  intros Hstep Hq' (Hq & tagged & Hl & Hall & Hcount). split; [exact Hq'|].
  destruct tagged as [|[b p0] tagged]; [discriminate|].
  simpl in Hl. inversion Hl; subst. clear Hl.
  apply Forall_cons in Hall as [Hp Hall]. simpl in Hp.
  destruct (Hstep b Hp) as (b' & Hp' & Heq).
  exists ((b', p') :: tagged). split; [reflexivity|]. split.
  - apply Forall_cons. auto.
  - rewrite owing_cons in *. destruct b, b'; lia.
Qed.

Lemma fresh_do h tr c k l :
  fresh_inv i h tr (Do c k :: l) ->
  fresh_inv i (fst (exec_cmd c h)) (tr ++ EvDo c :: map EvCall (snd (exec_cmd c h))) (k :: l).
Proof.
  intros HI. pose proof HI as (Hq & tagged & Hl & Hall & _).
  destruct tagged as [|[b0 p0] tagged]; [discriminate|].
  simpl in Hl. injection Hl as Hp0eq Hleq. subst p0. clear Hleq.
  apply Forall_cons in Hall as [Hp0 _].
  unfold fresh_ok in Hp0. simpl in Hp0.
  revert HI. apply fresh_step_head.
  - intros b Hb. unfold fresh_ok in *. simpl in Hb.
    rewrite fresh_calls_app, fresh_calls_cmd, exec_cmd_actions.
    destruct c; try (exists b; split; [exact Hb|destruct b; lia]).
    + destruct Hb as [-> Hk]. exists false. split; [exact Hk|].
      rewrite length_app. simpl. lia.
    + destruct Hb as [_ Hk]. exists b. split; [exact Hk|destruct b; lia].
    + destruct Hb as (-> & -> & Hk). exists true. split; [exact Hk|].
      rewrite Nat.eqb_refl. lia.
  - rewrite exec_cmd_queue. destruct c; auto.
    apply Forall_app; split; [exact Hq|]. repeat constructor. tauto.
Qed.

Lemma fresh_new h tr n k l :
  fresh_inv i h tr (NewCell n k :: l) ->
  fresh_inv i (set_cells (cells h ++ [n]) h) tr (k (length (cells h)) :: l).
Proof.
  intros HI. pose proof HI as (Hq & _). revert HI. apply fresh_step_head; [|exact Hq].
  intros b Hb. exists b. split; [apply Hb|]. reflexivity.
Qed.

Lemma fresh_call h tr o k l :
  fresh_inv i h tr (Await o k :: l) -> fresh_inv i h (tr ++ [EvAwait o]) (Await o k :: l).
Proof.
  intros HI. pose proof HI as (Hq & _). revert HI. apply fresh_step_head; [|exact Hq].
  intros b Hb. exists b. split; [exact Hb|]. rewrite fresh_calls_app.
  replace (fresh_calls i [EvAwait o]) with 0%nat by reflexivity.
  destruct b; lia.
Qed.

Lemma fresh_settle h tr o k r l :
  fresh_inv i h tr (Await o k :: l) -> fresh_inv i h (tr ++ [EvIO o r]) (k r :: l).
Proof.
  intros HI. pose proof HI as (Hq & _). revert HI. apply fresh_step_head; [|exact Hq].
  intros b Hb. exists b. split; [apply Hb|]. rewrite fresh_calls_app.
  replace (fresh_calls i [EvIO o r]) with 0%nat by reflexivity.
  destruct b; lia.
Qed.

Lemma fresh_ret h tr (u : unit) l : fresh_inv i h tr (Ret u :: l) -> fresh_inv i h tr l.
Proof.
  intros (Hq & tagged & Hl & Hall & Hcount). split; [exact Hq|].
  destruct tagged as [|[b p0] tagged]; [discriminate|].
  simpl in Hl. inversion Hl; subst. apply Forall_cons in Hall as [Hp Hall].
  unfold fresh_ok in Hp. simpl in Hp. subst b.
  exists tagged. split; [reflexivity|]. split; [exact Hall|].
  rewrite owing_cons in Hcount. simpl in Hcount. exact Hcount.
Qed.

Lemma fresh_splice fuel h tr :
  fresh_inv i h tr [] ->
  fresh_inv i (set_queue (drop 4 (queue h)) h) tr (map (build fuel) (take 4 (queue h))).
Proof.
  intros (Hq & tagged & Hl & _ & Hcount).
  destruct tagged; [|discriminate]. split.
  - simpl. apply Forall_drop. exact Hq.
  - exists (map (fun r => (false, build fuel r)) (take 4 (queue h))).
    split; [by rewrite map_map|]. split.
    + apply Forall_map. apply (Forall_take _ 4%nat) in Hq.
      eapply Forall_impl; [exact Hq|]. intros r Hr. simpl. apply build_fresh. exact Hr.
    + simpl. rewrite Hcount. unfold owing. simpl. f_equal.
      induction (take 4 (queue h)) as [|r rs IH]; [reflexivity|].
      simpl. rewrite filter_cons. simpl. exact IH.
Qed.

End Fresh.

(** ** One program awaited on its own: how [exec] goes through it *)

Section Exec.

Context {World : Type}.
Variable fs_exec : op -> World -> resp * World.

Lemma exec_bind {A B : Type} (p : proc A) (f : A -> proc B) : forall c,
  exec fs_exec (bind p f) c =
  match exec fs_exec p c with
  | (Resolved a, c1) => exec fs_exec (f a) c1
  | (Rejected e, c1) => (Rejected e, c1)
  | (OutOfFuel, c1) => (OutOfFuel, c1)
  end.
Proof.
  induction p as [a|e|cm k IH|n k IH|o k IH|]; intros c; simpl; auto.
  destruct (settle fs_exec o _) as [r c1]. apply IH.
Qed.

Lemma exec_await {A : Type} o (k : resp -> proc A) (c : config) r w' :
  fs_exec o (c_world c) = (r, w') ->
  exec fs_exec (Await o k) c = exec fs_exec (k r) (settled o r w' c).
Proof.
  intros H. simpl. unfold settle, settled. simpl. rewrite H. simpl.
  rewrite <- app_assoc. reflexivity.
Qed.

Lemma exec_stmt cm (c : config) : exec fs_exec (stmt cm) c = (Resolved tt, do_cmd cm c).
Proof. reflexivity. Qed.

Lemma exec_try_catch {A : Type} (p : proc A) (h : error -> proc A) : forall c,
  exec fs_exec (try_catch p h) c =
  match exec fs_exec p c with
  | (Rejected e, c1) => exec fs_exec (h e) c1
  | r => r
  end.
Proof.
  induction p as [a|e|cm k IH|n k IH|o k IH|]; intros c; simpl; auto.
  destruct (settle fs_exec o _) as [r c1]. apply IH.
Qed.

Lemma exec_lstat p (c : config) s w' :
  fs_exec (Lstat p) (c_world c) = (RStats s, w') ->
  exec fs_exec (lstat p) c = (Resolved s, settled (Lstat p) (RStats s) w' c).
Proof. intros H. unfold lstat, await_stats. by rewrite (exec_await _ _ _ _ _ H). Qed.

Lemma exec_readdir p (c : config) l w' :
  fs_exec (Readdir p) (c_world c) = (RNames l, w') ->
  exec fs_exec (readdir p) c = (Resolved l, settled (Readdir p) (RNames l) w' c).
Proof. intros H. unfold readdir, await_names. by rewrite (exec_await _ _ _ _ _ H). Qed.

Lemma exec_exists p (c : config) b w' :
  fs_exec (Exists p) (c_world c) = (RBool b, w') ->
  exec fs_exec (exists_ p) c = (Resolved b, settled (Exists p) (RBool b) w' c).
Proof. intros H. unfold exists_, await_bool. by rewrite (exec_await _ _ _ _ _ H). Qed.

Lemma exec_await_unit o (c : config) w' :
  fs_exec o (c_world c) = (RUnit, w') ->
  exec fs_exec (await_unit o) c = (Resolved tt, settled o RUnit w' c).
Proof. intros H. unfold await_unit. by rewrite (exec_await _ _ _ _ _ H). Qed.

Lemma exec_await_unit_err o (c : config) code w' :
  fs_exec o (c_world c) = (RErr code, w') ->
  exec fs_exec (await_unit o) c = (Rejected (FsError code), settled o (RErr code) w' c).
Proof. intros H. unfold await_unit. by rewrite (exec_await _ _ _ _ _ H). Qed.

Lemma exec_await_stats_err o (c : config) code w' :
  fs_exec o (c_world c) = (RErr code, w') ->
  exec fs_exec (await_stats o) c = (Rejected (FsError code), settled o (RErr code) w' c).
Proof. intros H. unfold await_stats. by rewrite (exec_await _ _ _ _ _ H). Qed.

End Exec.

Lemma kind_file_not_directory s : isFile s = true -> isDirectory s = false.
Proof.
  unfold isFile, isDirectory. intros H. apply Z.eqb_eq in H. rewrite H. reflexivity.
Qed.

Lemma kind_file_not_link s : isFile s = true -> isSymbolicLink s = false.
Proof.
  unfold isFile, isSymbolicLink. intros H. apply Z.eqb_eq in H. rewrite H. reflexivity.
Qed.

(** ** The listing of walk

    An entry is named by its chain: the base names from the walked
    directory down to the entry.  A descendant of an entry is an entry
    whose chain properly extends its chain. *)

Lemma before_desc_app l1 l2 :
  before_desc (l1 ++ l2) <->
  before_desc l1 /\ before_desc l2
  /\ forall a b, a ∈ l1 -> b ∈ l2 -> ~ proper_prefix b a.
Proof.
  induction l1 as [|k l1 IH]; simpl.
  - split; [intros H; repeat split; auto; intros a b Ha; by apply elem_of_nil in Ha|tauto].
  - rewrite IH, Forall_app. split.
    + intros ((H1 & H2) & H3 & H4 & H5). repeat split; auto.
      intros a b Ha Hb. apply elem_of_cons in Ha as [->|Ha]; [|auto].
      rewrite Forall_forall in H2. auto.
    + intros ((H1 & H2) & H3 & H4). repeat split; auto.
      * apply Forall_forall. intros b Hb. apply H4; [apply list_elem_of_here|exact Hb].
      * intros a b Ha Hb. apply H4; [apply list_elem_of_further; exact Ha|exact Hb].
Qed.

Lemma proper_prefix_cons n k k' : proper_prefix (n :: k) (n :: k') <-> proper_prefix k k'.
Proof.
  split; intros (ext & Hne & Heq); exists ext; split; auto.
  - simpl in Heq. by inversion Heq.
  - simpl. by rewrite Heq.
Qed.

Lemma proper_prefix_heads n m k k' : proper_prefix (n :: k) (m :: k') -> n = m.
Proof. intros (ext & _ & Heq). simpl in Heq. by inversion Heq. Qed.

Lemma before_desc_map n l : before_desc l -> before_desc (map (cons n) l).
Proof.
  induction l as [|k l IH]; simpl; auto. intros [H1 H2]. split; auto.
  apply Forall_map. eapply Forall_impl; [exact H1|].
  intros k' Hk' Hp. apply Hk'. simpl in Hp. by apply proper_prefix_cons in Hp.
Qed.

Lemma before_desc_lookup chains : before_desc chains ->
  forall i j ci cj, chains !! i = Some ci -> chains !! j = Some cj ->
    proper_prefix ci cj -> (i < j)%nat.
Proof.
  induction chains as [|k rest IH]; intros Hb i j ci cj Hi Hj Hp.
  - by rewrite lookup_nil in Hi.
  - destruct Hb as [H1 H2]. destruct i as [|i], j as [|j]; simpl in *.
    + inversion Hi; inversion Hj; subst. destruct Hp as (ext & Hne & Heq).
      exfalso. apply Hne. apply (f_equal length) in Heq.
      rewrite length_app in Heq. destruct ext; [reflexivity|simpl in Heq; lia].
    + lia.
    + inversion Hj; subst. exfalso. rewrite Forall_forall in H1.
      apply (H1 ci); [|exact Hp]. eapply list_elem_of_lookup_2. exact Hi.
    + assert (i < j)%nat by (eapply (IH H2); eauto). lia.
Qed.

Lemma entry_ok_under dir rel tr tr' n ch e :
  (forall ev, ev ∈ tr -> ev ∈ tr') ->
  entry_ok (Path.join dir n) (Some (relative_of rel n)) tr ch e ->
  entry_ok dir rel tr' (n :: ch) e.
Proof.
  intros Hsub (Hne & Hr & Ha & Hb & st & Hin & Hm).
  split; [discriminate|]. split; [exact Hr|]. split; [exact Ha|]. split.
  - rewrite Hb. destruct ch; [contradiction|reflexivity].
  - exists st. auto.
Qed.

Lemma entry_ok_mono dir rel tr tr' ch e :
  (forall ev, ev ∈ tr -> ev ∈ tr') -> entry_ok dir rel tr ch e -> entry_ok dir rel tr' ch e.
Proof.
  intros Hsub (Hne & Hr & Ha & Hb & st & Hin & Hm).
  repeat (split; [assumption|]). exists st. auto.
Qed.

Lemma nodup_listings_sub tr tr' :
  (forall ev, ev ∈ tr -> ev ∈ tr') -> nodup_listings tr' -> nodup_listings tr.
Proof. intros Hsub H p names Hin. apply (H p). auto. Qed.

Section WalkRun.

Context {World : Type}.
Variable fs_exec : op -> World -> resp * World.

Lemma exec_bind_resolved {A B : Type} (p : proc A) (f : A -> proc B) (c : config) b c' :
  exec fs_exec (bind p f) c = (Resolved b, c') ->
  exists a c1, exec fs_exec p c = (Resolved a, c1) /\ exec fs_exec (f a) c1 = (Resolved b, c').
Proof.
  rewrite exec_bind. destruct (exec fs_exec p c) as [[a|e|] c1]; try discriminate. eauto.
Qed.

Lemma exec_lstat_resolved p (c : config) s c1 :
  exec fs_exec (lstat p) c = (Resolved s, c1) ->
  exists w', c1 = settled (Lstat p) (RStats s) w' c.
Proof.
  unfold lstat, await_stats. destruct (fs_exec (Lstat p) (c_world c)) as [r w'] eqn:E.
  rewrite (exec_await fs_exec _ _ _ _ _ E). destruct r; simpl; try discriminate.
  intros H. inversion H; subst. eauto.
Qed.

Lemma exec_readdir_resolved p (c : config) l c1 :
  exec fs_exec (readdir p) c = (Resolved l, c1) ->
  exists w', c1 = settled (Readdir p) (RNames l) w' c.
Proof.
  unfold readdir, await_names. destruct (fs_exec (Readdir p) (c_world c)) as [r w'] eqn:E.
  rewrite (exec_await fs_exec _ _ _ _ _ E). destruct r; simpl; try discriminate.
  intros H. inversion H; subst. eauto.
Qed.

Lemma walk_loop_run ign rec dir rel :
  rec_walked fs_exec ign rec ->
  forall names acc (c : config) files c',
    Forall (fun x => x ∉ ign) names ->
    exec fs_exec (walk_loop rec dir rel names acc) c = (Resolved files, c') ->
    exists tr new chains,
      c_trace c' = c_trace c ++ tr
      /\ files = acc ++ new
      /\ Forall no_error tr
      /\ Forall2 (entry_ok dir rel tr) chains new
      /\ Forall (chain_under ign names) chains
      /\ (NoDup names -> nodup_listings tr -> before_desc chains).
Proof.
  intros Hrec. induction names as [|n rest IH]; intros acc c files c' Hign HE.
  - simpl in HE. inversion HE; subst. exists [], [], [].
    rewrite !app_nil_r. repeat split; auto; constructor.
  - apply Forall_cons in Hign as [Hn Hign]. cbn [walk_loop] in HE.
    apply exec_bind_resolved in HE as (st & c1 & Hl & HE).
    apply exec_lstat_resolved in Hl as (w1 & ->).
    set (loc := Path.join dir n) in *.
    set (e0 := mkWalkFile (relative_of rel n) n loc (st_mtime st)) in *.
    set (ev := [EvAwait (Lstat loc); EvIO (Lstat loc) (RStats st)]) in *.
    assert (He0 : forall tr', entry_ok dir rel (ev ++ tr') [n] e0).
    { intros tr'. split; [discriminate|]. repeat (split; [reflexivity|]).
      exists st. split; [|reflexivity]. subst ev e0. simpl. set_solver. }
    assert (Hev : Forall no_error ev) by (repeat constructor).
    destruct (isDirectory st).
    + apply exec_bind_resolved in HE as (sub & c2 & Hsub & HE).
      apply Hrec in Hsub as (tr_sub & Ht2 & Herr2 & chains_sub & Hent2 & Hok2 & Hbd2).
      apply IH in HE as (tr_r & new_r & chains_r & Ht3 & -> & Herr3 & Hent3 & Hok3 & Hbd3);
        [|exact Hign].
      exists (ev ++ tr_sub ++ tr_r), (e0 :: sub ++ new_r),
             ([n] :: map (cons n) chains_sub ++ chains_r).
      split; [rewrite Ht3, Ht2; unfold settled; cbn [c_trace]; by rewrite <- !app_assoc|].
      split; [by rewrite <- !app_assoc|].
      split; [by rewrite !Forall_app|].
      split; [|split].
      * constructor; [apply He0|]. apply Forall2_app.
        -- apply Forall2_fmap_l. eapply Forall2_impl; [exact Hent2|].
           intros ch e Hch. eapply entry_ok_under; [|exact Hch].
           intros x Hx. set_solver.
        -- eapply Forall2_impl; [exact Hent3|].
           intros ch e Hch. eapply entry_ok_mono; [|exact Hch]. intros x Hx. set_solver.
      * constructor; [exists n, []; repeat split; [set_solver|by constructor]|].
        apply Forall_app. split.
        -- apply Forall_map. eapply Forall_impl; [exact Hok2|].
           intros ch [_ Hch]. exists n, ch. repeat split; [set_solver|by constructor].
        -- eapply Forall_impl; [exact Hok3|].
           intros ch (m & r & -> & Hm & Hch). exists m, r. repeat split; [set_solver|auto].
      * intros Hnd Hnl. apply NoDup_cons in Hnd as [Hnotin Hnd].
        assert (Hcross : forall b, b ∈ chains_r -> forall a, ~ proper_prefix b (n :: a)).
        { intros b Hb a Hp. rewrite Forall_forall in Hok3.
          destruct (Hok3 b Hb) as (m & r & -> & Hm & _).
          apply proper_prefix_heads in Hp. subst. contradiction. }
        cbn [before_desc]. split.
        -- apply Forall_app. split.
           ++ apply Forall_map. apply Forall_true. intros ch (ext & Hne & Heq).
              simpl in Heq. apply (f_equal length) in Heq. simpl in Heq.
              rewrite length_app in Heq. destruct ext; [congruence|simpl in Heq; lia].
           ++ apply Forall_forall. intros b Hb. apply Hcross. exact Hb.
        -- apply before_desc_app. split; [|split].
           ++ apply before_desc_map. apply Hbd2.
              eapply nodup_listings_sub; [|exact Hnl]. intros x Hx. set_solver.
           ++ apply Hbd3; [exact Hnd|].
              eapply nodup_listings_sub; [|exact Hnl]. intros x Hx. set_solver.
           ++ intros a b Ha Hb. apply list_elem_of_fmap in Ha as (a' & -> & _).
              apply Hcross. exact Hb.
    + apply IH in HE as (tr_r & new_r & chains_r & Ht3 & -> & Herr3 & Hent3 & Hok3 & Hbd3);
        [|exact Hign].
      exists (ev ++ tr_r), (e0 :: new_r), ([n] :: chains_r).
      split; [rewrite Ht3; unfold settled; cbn [c_trace]; by rewrite <- !app_assoc|].
      split; [by rewrite <- !app_assoc|].
      split; [by rewrite !Forall_app|].
      split; [|split].
      * constructor; [apply He0|].
        eapply Forall2_impl; [exact Hent3|].
        intros ch e Hch. eapply entry_ok_mono; [|exact Hch]. intros x Hx. set_solver.
      * constructor; [exists n, []; repeat split; [set_solver|by constructor]|].
        eapply Forall_impl; [exact Hok3|].
        intros ch (m & r & -> & Hm & Hch). exists m, r. repeat split; [set_solver|auto].
      * intros Hnd Hnl. apply NoDup_cons in Hnd as [Hnotin Hnd].
        cbn [before_desc]. split.
        -- apply Forall_forall. intros b Hb Hp. rewrite Forall_forall in Hok3.
           destruct (Hok3 b Hb) as (m & r & -> & Hm & _).
           apply proper_prefix_heads in Hp. subst. contradiction.
        -- apply Hbd3; [exact Hnd|].
           eapply nodup_listings_sub; [|exact Hnl]. intros x Hx. set_solver.
Qed.

Lemma keep_names_ok ign names :
  Forall (fun x => x ∉ ignored ign) (keep_names ign names)
  /\ (NoDup names -> NoDup (keep_names ign names)).
Proof.
  destruct ign as [l|]; simpl.
  - split.
    + apply Forall_forall. intros x Hx. apply list_elem_of_filter in Hx as [Hx _].
      unfold indexOf_lt0 in Hx. apply negb_true_iff in Hx.
      by apply bool_decide_eq_false in Hx.
    + apply NoDup_filter.
  - split; [|auto]. apply Forall_true. intros x Hx. by apply elem_of_nil in Hx.
Qed.

Lemma walk_run ign : forall fuel dir rel (c : config) files c',
  exec fs_exec (walk fuel dir rel ign) c = (Resolved files, c') ->
  exists tr, c_trace c' = c_trace c ++ tr /\ Forall no_error tr
             /\ walked dir rel (ignored ign) tr files.
Proof.
  induction fuel as [|fuel IH]; intros dir rel c files c' HE; [discriminate|].
  cbn [walk] in HE.
  apply exec_bind_resolved in HE as (names & c1 & Hr & HE).
  apply exec_readdir_resolved in Hr as (w1 & ->).
  destruct (keep_names_ok ign names) as [Hign Hnd].
  eapply walk_loop_run in HE; [| |exact Hign].
  2:{ intros loc relative c0 files0 c0' H0. apply IH in H0. exact H0. }
  destruct HE as (tr & new & chains & Ht & -> & Herr & Hent & Hok & Hbd).
  exists ([EvAwait (Readdir dir); EvIO (Readdir dir) (RNames names)] ++ tr).
  split; [rewrite Ht; unfold settled; cbn [c_trace]; by rewrite <- !app_assoc|].
  split; [apply Forall_app; split; [repeat constructor|exact Herr]|].
  exists chains. split; [|split].
  - simpl. eapply Forall2_impl; [exact Hent|].
    intros ch e Hch. eapply entry_ok_mono; [|exact Hch]. intros x Hx. set_solver.
  - eapply Forall_impl; [exact Hok|]. intros ch (n & r & -> & _ & Hch). split; [discriminate|auto].
  - intros Hnl. apply Hbd.
    + apply Hnd. apply (Hnl dir). set_solver.
    + eapply nodup_listings_sub; [|exact Hnl]. intros x Hx. set_solver.
Qed.

End WalkRun.

(** ** Errors of the primitives in a program without try/catch *)

Lemma classic_error (r : resp) : (exists code, r = RErr code) \/ (forall code, r <> RErr code).
Proof. destruct r; try (right; discriminate). left; eauto. Qed.

Lemma strict_bind {A B : Type} (p : proc A) (f : A -> proc B) :
  strict p -> (forall a, strict (f a)) -> strict (bind p f).
Proof.
  intros Hp Hf. induction p as [a|e|c k IH|n k IH|o k IH|]; simpl in *; auto.
  destruct Hp as [He Hk]. split; [|auto].
  intros code. rewrite He. reflexivity.
Qed.

Lemma strict_await_stats o : strict (await_stats o).
Proof. split; [reflexivity|]. intros []; exact I. Qed.
Lemma strict_await_names o : strict (await_names o).
Proof. split; [reflexivity|]. intros []; exact I. Qed.

Lemma walk_loop_strict rec dir rel :
  (forall loc relative, strict (rec loc relative)) ->
  forall names acc, strict (walk_loop rec dir rel names acc).
Proof.
  intros Hrec. induction names as [|n rest IH]; intros acc; [exact I|].
  cbn [walk_loop]. apply strict_bind; [apply strict_await_stats|].
  intros st. destruct (isDirectory st); [|apply IH].
  apply strict_bind; [apply Hrec|]. intros sub. apply IH.
Qed.

Lemma walk_strict ign : forall fuel dir rel, strict (walk fuel dir rel ign).
Proof.
  induction fuel as [|fuel IH]; intros dir rel; [exact I|].
  cbn [walk]. apply strict_bind; [apply strict_await_names|].
  intros names. apply walk_loop_strict. intros loc relative. apply IH.
Qed.

Section Strict.

Context {World : Type}.
Variable fs_exec : op -> World -> resp * World.

Lemma exec_strict {A : Type} (p : proc A) : forall (c : config) out c',
  strict p -> exec fs_exec p c = (out, c') ->
  exists tr, c_trace c' = c_trace c ++ tr
    /\ (Forall no_error tr
        \/ exists tr0 o code, tr = tr0 ++ [EvIO o (RErr code)] /\ Forall no_error tr0
                              /\ out = Rejected (FsError code)).
Proof.
  induction p as [a|e|cm k IH|n k IH|o k IH|]; intros c out c' Hs HE; simpl in HE.
  - inversion HE; subst. exists []. rewrite app_nil_r. auto.
  - inversion HE; subst. exists []. rewrite app_nil_r. auto.
  - apply IH in HE; [|exact Hs]. destruct HE as (tr & Ht & Hcase).
    unfold do_cmd in Ht. destruct (exec_cmd cm (c_heap c)) as [h1 cbs]. cbn [c_trace] in Ht.
    exists ((EvDo cm :: map EvCall cbs) ++ tr). split; [by rewrite Ht, <- app_assoc|].
    assert (Hd : Forall no_error (EvDo cm :: map EvCall cbs)).
    { constructor; [exact I|]. apply Forall_map. apply Forall_true. intros x; exact I. }
    destruct Hcase as [Hne|(tr0 & o & code & -> & Hne & ->)].
    + left. apply Forall_app; auto.
    + right. exists ((EvDo cm :: map EvCall cbs) ++ tr0), o, code.
      split; [by rewrite <- app_assoc|]. split; [apply Forall_app; auto|reflexivity].
  - apply IH in HE; [|apply Hs]. exact HE.
  - destruct Hs as [He Hk]. unfold settle in HE. cbn [c_world c_heap c_trace] in HE.
    destruct (fs_exec o (c_world c)) as [r w1].
    destruct (classic_error r) as [[code ->]|Hr].
    + rewrite He in HE. simpl in HE. inversion HE; subst. cbn [c_trace].
      exists ([EvAwait o] ++ [EvIO o (RErr code)]). split; [by rewrite <- app_assoc|].
      right. exists [EvAwait o], o, code. repeat split; auto. repeat constructor.
    + apply IH in HE; [|apply Hk]. destruct HE as (tr & Ht & Hcase). cbn [c_trace] in Ht.
      exists ([EvAwait o; EvIO o r] ++ tr).
      split; [rewrite Ht, <- !app_assoc; reflexivity|].
      assert (Hd : Forall no_error [EvAwait o; EvIO o r]).
      { repeat constructor. destruct r; simpl; auto. by destruct (Hr code). }
      destruct Hcase as [Hne|(tr0 & o' & code & -> & Hne & ->)].
      * left. apply Forall_app; auto.
      * right. exists ([EvAwait o; EvIO o r] ++ tr0), o', code.
        split; [by rewrite <- app_assoc|]. split; [apply Forall_app; auto|reflexivity].
  - inversion HE; subst. exists []. rewrite app_nil_r. auto.
Qed.

(** A failed primitive fails the run of a strict program, with its error. *)
Lemma exec_strict_error {A : Type} (p : proc A) (c : config) out c' o code :
  strict p -> exec fs_exec p c = (out, c') ->
  EvIO o (RErr code) ∈ drop (length (c_trace c)) (c_trace c') ->
  out = Rejected (FsError code).
Proof.
  intros Hs HE Hin. destruct (exec_strict p c out c' Hs HE) as (tr & Ht & Hcase).
  rewrite Ht, drop_app_length in Hin.
  destruct Hcase as [Hne|(tr0 & o' & code' & -> & Hne & ->)].
  - rewrite Forall_forall in Hne. destruct (Hne _ Hin).
  - apply elem_of_app in Hin as [Hin|Hin].
    + rewrite Forall_forall in Hne. destruct (Hne _ Hin).
    + apply list_elem_of_singleton in Hin. by inversion Hin.
Qed.

(** Termination of walk over a tree of bounded depth. *)
Variable w0 : World.
Variable rank : string -> nat.
Hypothesis Hstatic : static_reads fs_exec w0.
Hypothesis Hrank : ranked fs_exec w0 rank.

Local Abbreviation returns := (returns fs_exec w0).

Lemma walk_loop_returns rec dir rel bound :
  (forall loc relative c, c_world c = w0 -> (rank loc < bound)%nat ->
     returns (rec loc relative) c) ->
  forall names acc (c : config),
    c_world c = w0 ->
    (forall n st, n ∈ names -> fst (fs_exec (Lstat (Path.join dir n)) w0) = RStats st ->
       isDirectory st = true -> (rank (Path.join dir n) < bound)%nat) ->
    returns (walk_loop rec dir rel names acc) c.
Proof.
  intros Hrec. induction names as [|n rest IH]; intros acc c Hw Hb.
  - exists (Resolved acc), c. split; [reflexivity|]. split; [discriminate|exact Hw].
  - cbn [walk_loop]. unfold returns. rewrite exec_bind. unfold lstat, await_stats.
    destruct (fs_exec (Lstat (Path.join dir n)) (c_world c)) as [r w1] eqn:E.
    rewrite (exec_await fs_exec _ _ _ _ _ E).
    assert (Hw1 : w1 = w0).
    { rewrite Hw in E. destruct (Hstatic (Path.join dir n)) as [_ H]. by rewrite E in H. }
    subst w1.
    destruct r; simpl;
      try (eexists _, _; split; [reflexivity|]; split; [discriminate|reflexivity]).
    destruct (isDirectory s) eqn:Ed.
    + rewrite exec_bind.
      destruct (Hrec (Path.join dir n) (relative_of rel n)
                  (settled (Lstat (Path.join dir n)) (RStats s) w0 c))
        as (out & c2 & HE & Hout & Hw2); [reflexivity| |].
      { apply (Hb n s); [set_solver| |exact Ed]. rewrite Hw in E. by rewrite E. }
      rewrite HE. destruct out as [sub|e|]; [|eexists _, _; eauto|contradiction].
      apply IH; [exact Hw2|]. intros m st Hm. apply Hb. set_solver.
    + apply IH; [reflexivity|]. intros m st Hm. apply Hb. set_solver.
Qed.

Lemma walk_returns ign : forall fuel dir rel (c : config),
  c_world c = w0 -> (rank dir < fuel)%nat -> returns (walk fuel dir rel ign) c.
Proof.
  induction fuel as [|fuel IH]; intros dir rel c Hw Hlt; [lia|].
  cbn [walk]. unfold returns. rewrite exec_bind. unfold readdir, await_names.
  destruct (fs_exec (Readdir dir) (c_world c)) as [r w1] eqn:E.
  rewrite (exec_await fs_exec _ _ _ _ _ E).
  assert (Hw1 : w1 = w0).
  { rewrite Hw in E. destruct (Hstatic dir) as [H _]. by rewrite E in H. }
  subst w1.
  destruct r; simpl;
    try (eexists _, _; split; [reflexivity|]; split; [discriminate|reflexivity]).
  apply (walk_loop_returns _ dir rel fuel).
  - intros loc relative c0 Hc0 Hr. apply IH; auto.
  - reflexivity.
  - intros n st Hn Hst Hd.
    assert (rank (Path.join dir n) < rank dir)%nat; [|lia].
    apply (Hrank dir l n st); auto.
    + rewrite Hw in E. by rewrite E.
    + destruct ign as [ig|]; simpl in Hn; [|exact Hn].
      apply list_elem_of_filter in Hn as [_ Hn]. exact Hn.
Qed.

End Strict.

(** ** A pool of one task is the task awaited on its own *)

Section Single.

Context {World : Type}.
Variable fs_exec : op -> World -> resp * World.
Variable pick : nat -> nat.

Lemma sync_in_do {A : Type} cm (k : proc A) (c : @config World) :
  sync_in (Do cm k) c = sync_in k (do_cmd cm c).
Proof.
  unfold sync_in, do_cmd. simpl. destruct (exec_cmd cm (c_heap c)) as [h cbs]. reflexivity.
Qed.

Lemma run_pool_start K fuel (p : proc unit) (c : config) :
  (0 < K)%nat ->
  run_pool fs_exec pick fuel K [p] [] c =
  match sync_in p c with
  | (SRet _, c') => (Resolved tt, c')
  | (SThrow e, c') => (Rejected e, c')
  | (SAwait o k, c') => run_pool fs_exec pick fuel K [] [(o, k)] c'
  | (SDiverge, c') => (OutOfFuel, c')
  end.
Proof.
  intros HK. assert (Hlt : (0 <? K)%nat = true) by (apply Nat.ltb_lt; exact HK).
  destruct fuel; simpl; rewrite Hlt; destruct (sync_in p c) as [[u|e|o k|] c']; reflexivity.
Qed.

Lemma run_pool_single K (p : proc unit) : forall fuel (c : config),
  (0 < K)%nat -> (awaits_along fs_exec p c <= fuel)%nat ->
  run_pool fs_exec pick fuel K [p] [] c = exec fs_exec p c.
Proof.
  induction p as [u|e|cm k IH|n k IH|o k IH|]; intros fuel c HK Hle.
  - rewrite run_pool_start by exact HK. destruct u, c. reflexivity.
  - rewrite run_pool_start by exact HK. destruct c. reflexivity.
  - rewrite run_pool_start, sync_in_do, <- run_pool_start by exact HK.
    apply IH; auto.
  - rewrite run_pool_start by exact HK.
    change (sync_in (NewCell n k) c) with
      (sync_in (k (length (cells (c_heap c))))
         (mkConfig (set_cells (cells (c_heap c) ++ [n]) (c_heap c)) (c_world c) (c_trace c))).
    rewrite <- run_pool_start by exact HK. apply IH; auto.
  - rewrite run_pool_start by exact HK.
    change (sync_in (Await o k) c)
      with (SAwait o k, mkConfig (c_heap c) (c_world c) (c_trace c ++ [EvAwait o])).
    cbn [awaits_along exec] in *.
    destruct (settle fs_exec o _) as [r c2] eqn:Es.
    destruct fuel as [|fuel]; [lia|].
    cbn [run_pool launch length]. rewrite Nat.mod_1_r. cbn [lookup list_lookup fst].
    rewrite Es. unfold resume. cbn [snd].
    rewrite <- (IH r fuel c2 HK) by lia.
    rewrite run_pool_start by exact HK.
    destruct (sync_in (k r) c2) as [[u|e|o' k'|] c3]; try reflexivity.
    destruct fuel; reflexivity.
  - rewrite run_pool_start by exact HK. destruct c. reflexivity.
Qed.

Lemma awaits_along_bind {A B : Type} (p : proc A) (f : A -> proc B) : forall (c : config),
  awaits_along fs_exec (bind p f) c =
  (awaits_along fs_exec p c
   + match exec fs_exec p c with
     | (Resolved a, c1) => awaits_along fs_exec (f a) c1
     | _ => 0
     end)%nat.
Proof.
  induction p as [a|e|cm k IH|n k IH|o k IH|]; intros c; simpl; auto.
  destruct (settle fs_exec o _) as [r c1]. rewrite IH. reflexivity.
Qed.

Lemma awaits_along_await {A : Type} o (k : resp -> proc A) (c : config) r w' :
  fs_exec o (c_world c) = (r, w') ->
  awaits_along fs_exec (Await o k) c = S (awaits_along fs_exec (k r) (settled o r w' c)).
Proof.
  intros H. simpl. unfold settle, settled. simpl. rewrite H.
  rewrite <- app_assoc. reflexivity.
Qed.

End Single.

Lemma awaits_in_app tr1 tr2 : awaits_in (tr1 ++ tr2) = (awaits_in tr1 + awaits_in tr2)%nat.
Proof. unfold awaits_in. by rewrite filter_app, length_app. Qed.

Lemma awaits_in_cons e tr :
  awaits_in (e :: tr) = ((if is_await e then 1 else 0) + awaits_in tr)%nat.
Proof.
  unfold awaits_in. rewrite filter_cons.
  destruct (is_await e).
  - by rewrite decide_True.
  - by rewrite decide_False.
Qed.

Lemma awaits_in_calls cbs : awaits_in (map EvCall cbs) = 0%nat.
Proof. induction cbs as [|cb cbs IH]; [reflexivity|]. cbn [map]. by rewrite awaits_in_cons. Qed.

Lemma awaits_in_script script : awaits_in (script_events script) = length script.
Proof.
  induction script as [|[o r] script IH]; [reflexivity|].
  change (script_events ((o, r) :: script))
    with (EvAwait o :: EvIO o r :: script_events script).
  rewrite !awaits_in_cons, IH. reflexivity.
Qed.

Section Awaits.

Context {World : Type}.
Variable fs_exec : op -> World -> resp * World.
Variable pick : nat -> nat.

Lemma exec_awaits {A : Type} (p : proc A) : forall (c : config),
  awaits_in (c_trace (snd (exec fs_exec p c)))
  = (awaits_in (c_trace c) + awaits_along fs_exec p c)%nat.
Proof.
  induction p as [a|e|cm k IH|n k IH|o k IH|]; intros c; cbn [exec awaits_along snd];
    try lia.
  - rewrite IH. unfold do_cmd. destruct (exec_cmd cm (c_heap c)) as [h cbs].
    cbn [c_trace]. rewrite awaits_in_app.
    rewrite awaits_in_cons, awaits_in_calls. cbn [is_await]. lia.
  - rewrite IH. reflexivity.
  - unfold settle. cbn [c_world c_heap c_trace].
    destruct (fs_exec o (c_world c)) as [r w']. rewrite IH. cbn [c_trace].
    rewrite !awaits_in_app, !awaits_in_cons. cbn [is_await].
    change (awaits_in []) with 0%nat. lia.
Qed.

Lemma drain_empty fuel n (c : config) :
  queue (c_heap c) = [] -> drain fs_exec pick fuel n c = (Resolved tt, c).
Proof. intros H. destruct n; simpl; rewrite H; reflexivity. Qed.

Lemma run_pool_nil fuel K (c : config) :
  run_pool fs_exec pick fuel K [] [] c = (Resolved tt, c).
Proof. destruct fuel; reflexivity. Qed.

(** A request for an unchanged file, awaited on its own: where it leaves
    the planner. *)
Lemma build_unchanged_file fuel (data : request) (c : config) (s d : Stats) (w' : World) :
  let script :=
    [(Lstat (src data), RStats s); (Exists (dest data), RBool true);
     (Lstat (dest data), RStats d)]
    ++ (if st_mode s =? st_mode d then [] else [(Access (dest data) (st_mode s), RUnit)]) in
  let seen := set_files ({[dest data]} ∪ files (c_heap c)) (c_heap c) in
  isFile s = true -> isFile d = true ->
  st_size s = st_size d -> st_mtime s = st_mtime d ->
  settles fs_exec (c_world c) script w' ->
  exec fs_exec (build (S fuel) data) c =
  (Resolved tt,
   mkConfig (fst (fire_done (onDone data) seen)) w'
     (c_trace c ++ EvDo (FilesAdd (dest data)) :: script_events script
        ++ EvDo (CallDone (onDone data))
        :: map EvCall (snd (fire_done (onDone data) seen)))).
Proof.
  intros script seen Hs Hd Hsize Hmtime Hrun.
  subst script seen. cbn [app settles] in Hrun.
  destruct Hrun as (w1 & H1 & w2 & H2 & w3 & H3 & Hrest).
  cbn [build]. rewrite exec_bind, exec_stmt.
  rewrite exec_bind, (exec_lstat fs_exec _ _ s w1) by exact H1.
  rewrite (kind_file_not_directory s Hs).
  rewrite exec_bind. cbn [exec].
  rewrite exec_bind, (exec_exists fs_exec _ _ true w2) by exact H2.
  rewrite exec_bind, (exec_lstat fs_exec _ _ d w3) by exact H3.
  rewrite Hs, Hd, Hsize, Hmtime, !Z.eqb_refl. cbn [andb negb].
  destruct (st_mode s =? st_mode d) eqn:Em; cbn [negb].
  - cbn [settles] in Hrest. subst w'.
    rewrite exec_stmt.
    unfold do_cmd, settled. cbn [c_heap c_world c_trace exec_cmd].
    destruct (fire_done (onDone data) _) as [h1 cbs] eqn:Ef.
    cbn [c_heap c_trace fst snd].
    cbn [script_events flat_map fst snd app map]. rewrite <- !app_assoc. reflexivity.
  - cbn [settles] in Hrest. destruct Hrest as (w4 & H4 & ->).
    rewrite exec_bind. unfold access.
    rewrite (exec_await_unit fs_exec _ _ w4) by exact H4.
    rewrite exec_stmt.
    unfold do_cmd, settled. cbn [c_heap c_world c_trace exec_cmd].
    destruct (fire_done (onDone data) _) as [h1 cbs] eqn:Ef.
    cbn [c_heap c_trace fst snd].
    cbn [script_events flat_map fst snd app map]. rewrite <- !app_assoc. reflexivity.
Qed.

(** copy(src, dest) of an unchanged file, the whole call: the planner's
    checks are all that touches the file system; the plan is empty and
    both pools of the executor have nothing to run. *)
Lemma copy_unchanged_file fuel (from into : string) (w : World) (s d : Stats) (w' : World) :
  let script :=
    [(Lstat from, RStats s); (Exists into, RBool true); (Lstat into, RStats d)]
    ++ (if st_mode s =? st_mode d then [] else [(Access into (st_mode s), RUnit)]) in
  (4 <= fuel)%nat ->
  isFile s = true -> isFile d = true ->
  st_size s = st_size d -> st_mtime s = st_mtime d ->
  settles fs_exec w script w' ->
  exists c,
    copy fs_exec pick fuel from into w = (Resolved tt, c)
    /\ c_world c = w'
    /\ actions (c_heap c) = []
    /\ c_trace c =
         [EvDo (CallStart 1); EvCall (OnStart 1); EvDo (FilesAdd into)]
         ++ script_events script
         ++ [EvDo (CallDone (DoneProgress into)); EvCall (OnProgress into);
             EvDo (CallStart 0); EvCall (OnStart 0)].
Proof.
  intros script Hfuel Hs Hd Hsize Hmtime Hrun.
  destruct fuel as [|fuel]; [lia|].
  set (data := mkRequest from into None (DoneProgress into)).
  set (c1 := mkConfig {| queue := []; possibleExtraneous := []; files := ∅;
                         actions := []; cells := [] |} w
               [EvDo (CallStart 1); EvCall (OnStart 1)]).
  pose proof (build_unchanged_file fuel data c1 s d w' Hs Hd Hsize Hmtime Hrun) as HB.
  cbv zeta in HB. cbn [src dest onDone data] in HB. fold script in HB.
  assert (Hn : (awaits_along fs_exec (build (S fuel) data) c1 <= S fuel)%nat).
  { pose proof (exec_awaits (build (S fuel) data) c1) as HA.
    rewrite HB in HA. cbn [snd c_trace] in HA.
    assert (length script <= 4)%nat
      by (subst script; destruct (st_mode s =? st_mode d); simpl; lia).
    rewrite awaits_in_app, awaits_in_cons, awaits_in_app, awaits_in_script in HA.
    cbn [fire_done snd map] in HA.
    rewrite !awaits_in_cons in HA. cbn [is_await] in HA.
    change (awaits_in []) with 0%nat in HA. lia. }
  unfold copy, copyBulk, buildActionsForCopy, plan_walk.
  change (do_cmd (CallStart (Z.of_nat (length [mkRequest from into None DoneNone])))
            (mkConfig (initial_heap [mkRequest from into None DoneNone] None) w []))
    with (mkConfig {| queue := [data]; possibleExtraneous := []; files := ∅;
                      actions := []; cells := [] |} w
            [EvDo (CallStart 1); EvCall (OnStart 1)]).
  cbn [drain queue c_heap take drop map set_queue c_world c_trace
       possibleExtraneous files actions cells].
  unfold promise_all. cbn [length].
  change (mkConfig _ w [EvDo (CallStart 1); EvCall (OnStart 1)]) with c1 at 1.
  rewrite (run_pool_single fs_exec pick 1 _ (S fuel) c1) by (exact Hn || lia).
  rewrite HB.
  rewrite drain_empty by reflexivity.
  subst c1.
  cbn [fire_done fst snd c_heap possibleExtraneous set_files remove_extraneous exec
       actions length filter map].
  unfold promise_queue. cbn [default length map filter].
  eexists. split.
  - change (filter _ []) with (@nil action). cbn [map].
    rewrite !run_pool_nil. reflexivity.
  - cbn [c_world c_heap c_trace do_cmd exec_cmd actions]. repeat split.
    cbn [map Z.of_nat app]. rewrite <- app_assoc. reflexivity.
Qed.

End Awaits.

(** ** The rival of the symlink helper *)

Lemma creations_app tr1 tr2 : creations (tr1 ++ tr2) = (creations tr1 + creations tr2)%nat.
Proof. unfold creations. by rewrite filter_app, length_app. Qed.

Lemma symlink_create_op win32 rel dn src dest :
  symlink_create win32 rel dn src dest = await_unit (create_op win32 rel dn src dest).
Proof. unfold symlink_create, create_op, fsSymlink. destruct win32; reflexivity. Qed.

(** Lines 326-341 against the rival: whatever is at the destination is
    removed, without a creation. *)
Lemma racy_clear n b h tr :
  exists tr1,
    exec Racy.fs_exec (symlink_clear "s" "d") (mkConfig h (Racy.mkWorld n b) tr)
    = (Resolved false, mkConfig h (Racy.mkWorld n false) (tr ++ tr1))
    /\ creations tr1 = 0%nat.
Proof.
  unfold symlink_clear. rewrite exec_try_catch, exec_bind. destruct b.
  - exists [EvAwait (Lstat "d"); EvIO (Lstat "d") (RStats (mkStats 33188 0 0 0));
            EvAwait (Unlink "d"); EvIO (Unlink "d") RUnit].
    split; [|reflexivity].
    rewrite (exec_lstat Racy.fs_exec _ _ (mkStats 33188 0 0 0) (Racy.mkWorld n true))
      by reflexivity.
    change (isSymbolicLink (mkStats 33188 0 0 0)) with false. cbv iota.
    rewrite exec_bind. cbn [exec]. rewrite exec_bind. cbn [exec]. rewrite exec_bind.
    unfold unlink.
    rewrite (exec_await_unit Racy.fs_exec _ _ (Racy.mkWorld n false)) by reflexivity.
    unfold settled. cbn [exec c_heap c_world c_trace]. rewrite <- app_assoc. reflexivity.
  - exists [EvAwait (Lstat "d"); EvIO (Lstat "d") (RErr "ENOENT")].
    split; [|reflexivity].
    unfold lstat.
    rewrite (exec_await_stats_err Racy.fs_exec _ _ "ENOENT" (Racy.mkWorld n false))
      by reflexivity.
    reflexivity.
Qed.

(** One failed attempt: the rival was first, and symlink starts again. *)
Lemma racy_attempt fuel n b h tr :
  exists tr1,
    exec Racy.fs_exec (symlink false Racy.relative Racy.dirname (S fuel) "s" "d")
      (mkConfig h (Racy.mkWorld (S n) b) tr)
    = exec Racy.fs_exec (symlink false Racy.relative Racy.dirname fuel "s" "d")
        (mkConfig h (Racy.mkWorld n true) (tr ++ tr1))
    /\ creations tr1 = 1%nat.
Proof.
  destruct (racy_clear (S n) b h tr) as (tr1 & Hclear & Hn).
  exists (tr1 ++ [EvAwait (FsSymlink "s" "d" None); EvIO (FsSymlink "s" "d" None) (RErr "EEXIST")]).
  split.
  - cbn [symlink]. rewrite exec_bind, Hclear, exec_try_catch, symlink_create_op.
    rewrite (exec_await_unit_err Racy.fs_exec _ _ "EEXIST" (Racy.mkWorld n true))
      by reflexivity.
    unfold settled. cbn [c_heap c_world c_trace has_code String.eqb Ascii.eqb Bool.eqb].
    cbn [create_op Racy.relative Racy.dirname]. rewrite <- app_assoc. reflexivity.
  - rewrite creations_app, Hn. reflexivity.
Qed.

(** The retries are not bounded: when the rival creates the destination
    [n] times, symlink calls the creation [n + 1] times, and resolves. *)
Lemma racy_retries n : forall fuel b h tr,
  (n < fuel)%nat ->
  exists c,
    exec Racy.fs_exec (symlink false Racy.relative Racy.dirname fuel "s" "d")
      (mkConfig h (Racy.mkWorld n b) tr) = (Resolved tt, c)
    /\ creations (c_trace c) = (creations tr + S n)%nat.
Proof.
  induction n as [|n IH]; intros fuel b h tr Hfuel; (destruct fuel as [|fuel]; [lia|]).
  - destruct (racy_clear 0 b h tr) as (tr1 & Hclear & Hn).
    eexists. split.
    + cbn [symlink]. rewrite exec_bind, Hclear, exec_try_catch, symlink_create_op.
      rewrite (exec_await_unit Racy.fs_exec _ _ (Racy.mkWorld 0 true)) by reflexivity.
      reflexivity.
    + unfold settled. cbn [c_trace]. rewrite !creations_app, Hn.
      set (create := create_op false Racy.relative Racy.dirname "s" "d").
      change (creations [EvAwait create; EvIO create RUnit]) with 1%nat. lia.
  - destruct (racy_attempt fuel n b h tr) as (tr1 & HE & Hn).
    destruct (IH fuel true h (tr ++ tr1)) as (c & HE' & Hc); [lia|].
    exists c. split; [by rewrite HE|].
    rewrite Hc, creations_app, Hn. lia.
Qed.

(** ** Whole calls: the lemmas of the statements below *)

Section Cleanup.

Context {World : Type}.
Variable fs_exec : op -> World -> resp * World.
Variable pick : nat -> nat.

(** Lines 96-101, run: the heap is not touched, and when the pass resolves
    it has called [unlink] on the unseen members of the set, in order. *)
Lemma exec_remove_extraneous locs seen : forall (c : config) out c',
  exec fs_exec (remove_extraneous locs seen) c = (out, c') ->
  c_heap c' = c_heap c
  /\ (forall u, out = Resolved u ->
      c_trace c' = c_trace c ++ unlink_events (filter (fun loc => loc ∉ seen) locs)).
Proof.
  induction locs as [|loc rest IH]; intros c out c' HE; cbn [remove_extraneous] in HE.
  - simpl in HE. inversion HE; subst. split; [reflexivity|]. intros _ _.
    simpl. by rewrite app_nil_r.
  - rewrite filter_cons. case_bool_decide as Hin.
    + rewrite decide_False by (intros Hn; apply Hn; exact Hin). eauto.
    + rewrite decide_True by exact Hin.
      unfold unlink, await_unit in HE. cbn [bind exec] in HE.
      unfold settle in HE. cbn [c_world c_heap c_trace] in HE.
      destruct (fs_exec (Unlink loc) (c_world c)) as [r w'].
      destruct r; cbn [bind exec] in HE;
        try (inversion HE; subst; split; [reflexivity|discriminate]).
      apply IH in HE. cbn [c_heap c_trace] in HE. destruct HE as [Hh Ht].
      split; [exact Hh|]. intros u Hu. rewrite (Ht u Hu).
      unfold unlink_events. cbn [flat_map]. rewrite <- !app_assoc. reflexivity.
Qed.

Lemma plan_walk_extraneous fuel q seed w c :
  plan_walk fs_exec pick fuel q seed w = (Resolved tt, c) ->
  extraneous_inv seed (c_heap c) (c_trace c) [] /\ queue (c_heap c) = [].
Proof.
  unfold plan_walk. intros HD.
  eapply (drain_inv fs_exec pick (extraneous_inv seed) (extraneous_perm seed)
            (extraneous_do seed) (extraneous_new seed) (extraneous_call seed)
            (extraneous_settle seed) (extraneous_ret seed) fuel
            (extraneous_splice seed fuel)) in HD.
  - destruct HD as [HD _]. exact (HD eq_refl).
  - unfold InvC, do_cmd. simpl.
    split; [|split; [|split]].
    + intros p [Hp|Hp].
      * left. apply elem_of_seed. exact Hp.
      * rewrite !elem_of_cons in Hp. destruct Hp as [Hp|[Hp|Hp]]; try discriminate.
        by apply elem_of_nil in Hp.
    + intros p Hp. left. apply elem_of_seed. exact Hp.
    + intros p. split; [intros Hp; by apply not_elem_of_empty in Hp|].
      rewrite !elem_of_cons. intros [Hp|[Hp|Hp]]; try discriminate.
      by apply elem_of_nil in Hp.
    + constructor.
Qed.

End Cleanup.

Lemma plan_ev_not_link e : plan_ev e -> ~ link_called e.
Proof. destruct e as [| |o|]; simpl; auto. destruct o; simpl; auto. Qed.

Lemma file_ev_not_link e : file_ev e -> ~ link_called e.
Proof. destruct e as [| |o|]; simpl; auto. destruct o; simpl; auto. Qed.

Lemma link_ev_not_file e : link_ev e -> ~ file_ev e.
Proof.
  destruct e as [c|cb|o|o r]; simpl; try contradiction; destruct o; simpl; auto.
Qed.

Lemma start_events_not_link n : Forall (fun e => ~ link_called e) (start_events n).
Proof. repeat constructor; simpl; auto. Qed.

Section CopyEntry.

Context {World : Type}.
Variable fs_exec : op -> World -> resp * World.

(** Lines 205-215 for a regular file. *)
Lemma exec_copy_entry_file data s srcFiles (c : config) :
  isFile s = true ->
  exists c',
    exec fs_exec (copy_entry data s srcFiles) c = (Resolved tt, c')
    /\ actions (c_heap c') =
         actions (c_heap c)
           ++ [FileAction (src data) (dest data) (st_atime s) (st_mtime s) (st_mode s)]
    /\ c_world c' = c_world c.
Proof.
  intros Hs. unfold copy_entry.
  rewrite (kind_file_not_link s Hs), (kind_file_not_directory s Hs), Hs.
  rewrite exec_bind, exec_stmt, exec_bind, exec_stmt, exec_stmt.
  eexists. split; [reflexivity|].
  unfold do_cmd. cbn [c_heap c_world c_trace].
  repeat match goal with
         | |- context [exec_cmd ?cm ?h] =>
             let E := fresh "E" in
             let h1 := fresh "h" in
             let cbs := fresh "cbs" in
             pose proof (exec_cmd_actions cm h) as E;
             destruct (exec_cmd cm h) as [h1 cbs]; cbn [fst c_heap c_world c_trace] in *
         end.
  split; [|reflexivity]. congruence.
Qed.

End CopyEntry.

Section FreshCount.

Context {World : Type}.
Variable fs_exec : op -> World -> resp * World.
Variable pick : nat -> nat.

Lemma plan_walk_fresh i fuel q seed w c :
  Forall (fun r => onFresh r = Some i) q ->
  plan_walk fs_exec pick fuel q seed w = (Resolved tt, c) ->
  fresh_calls i (c_trace c) = length (actions (c_heap c)).
Proof.
  unfold plan_walk. intros Hq HD.
  eapply (drain_inv fs_exec pick (fresh_inv i) (fresh_perm i) (fresh_do i) (fresh_new i)
            (fresh_call i) (fresh_settle i) (fresh_ret i) fuel (fresh_splice i fuel)) in HD.
  - destruct HD as [HD _]. destruct (HD eq_refl) as [(_ & tagged & Hl & _ & Hcount) _].
    destruct tagged; [|discriminate]. rewrite Hcount. unfold owing. simpl. lia.
  - unfold InvC, do_cmd. cbn [exec_cmd c_heap c_trace initial_heap]. split.
    + cbn [queue]. unfold initialise_events. apply Forall_map.
      eapply Forall_impl; [exact Hq|]. intros r Hr. exact Hr.
    + exists []. split; [reflexivity|]. split; [constructor|]. reflexivity.
Qed.

Lemma unlink_events_not_fresh i locs : fresh_calls i (unlink_events locs) = 0%nat.
Proof.
  induction locs as [|loc rest IH]; [reflexivity|].
  unfold unlink_events in *. cbn [flat_map]. rewrite fresh_calls_app, IH. reflexivity.
Qed.

End FreshCount.

Lemma start_calls_app tr1 tr2 : start_calls (tr1 ++ tr2) = start_calls tr1 ++ start_calls tr2.
Proof. unfold start_calls. apply omap_app. Qed.

Lemma start_calls_none (P : event -> Prop) tr :
  (forall n, ~ P (EvCall (OnStart n))) -> Forall P tr -> start_calls tr = [].
Proof.
  intros HP. induction 1 as [|e tr He _ IH]; [reflexivity|].
  unfold start_calls in *.
  destruct e as [|[]| |]; simpl; try exact IH. destruct (HP _ He).
Qed.

Lemma plan_ev_not_copying e : plan_ev e -> ~ copying e.
Proof.
  destruct e as [c|cb|o|o r]; simpl; auto; destruct o; simpl; intros H [[]|[]]; auto.
Qed.

(** * The claims *)



(** In the run of the witness the deletion pass unlinks d/old and d/old/x,
    which the source does not have, and keeps d/a, which it has. *)
Lemma extraneous_example :
  filter (fun loc => loc ∉ files (c_heap (snd C1_run)))
         (possibleExtraneous (c_heap (snd C1_run)))
  = ["d/old"; "d/old/x"]
  /\ Sim.lookup "d/old" (c_world (snd C1_run)) = None
  /\ Sim.lookup "d/a" (c_world (snd C1_run)) = Some (Ex.file 420 2 7 "hi").
Proof. vm_compute. repeat split. Qed.

(** C2. In copyBulk, when the first primitive of a symlink action is called,
    every file action of the plan has completed before it: its bytes were
    piped and its times were set; and nothing of a file copy happens after
    it. *)
Theorem C2_symlinks_after_file_copies {World : Type}
    (fs_exec : op -> World -> resp * World) (pick : nat -> nat)
    (fuel : nat) (q : list request) (seed : option (list string)) (w : World)
    (out : outcome unit) (c : config) (pre post : list event)
    (target p : string) (type : option string) :
  copyBulk fs_exec pick fuel q seed w = (out, c) ->
  c_trace c = pre ++ EvAwait (FsSymlink target p type) :: post ->
  exists acts cp,
    buildActionsForCopy fs_exec pick fuel q seed w = (Resolved acts, cp)
    /\ Forall (fun a => is_file_action a = true -> copied a pre) acts
    /\ Forall (fun e => ~ file_ev e) post.
Proof.
  intros HC Htr.
  destruct (copyBulk_phases _ _ _ _ _ _ _ _ HC) as (po & cp & tr_plan & HB & Hcp & Hplan & Hpo).
  destruct po as [acts|e|].
  - destruct Hpo as (tr_files & tr_links & Hc & Hf & Hl & Hdone).
    rewrite Hc in Htr.
    apply (app_eq_split (fun e => ~ link_called e)) in Htr.
    + destruct Htr as (m & -> & Hlinks).
      exists acts, cp. split; [exact HB|]. split.
      * assert (Hne : tr_links <> []) by (rewrite Hlinks; destruct m; discriminate).
        eapply Forall_impl; [exact (Hdone Hne)|].
        intros a Ha Hfa. apply copied_app. auto.
      * rewrite Hlinks in Hl. apply Forall_app in Hl as [_ Hl].
        apply Forall_cons in Hl as [_ Hl].
        eapply Forall_impl; [exact Hl|]. apply link_ev_not_file.
    + rewrite Hcp. repeat apply Forall_app_2.
      * apply start_events_not_link.
      * eapply Forall_impl; [exact Hplan|]. apply plan_ev_not_link.
      * apply start_events_not_link.
      * eapply Forall_impl; [exact Hf|]. apply file_ev_not_link.
    + simpl. auto.
  - subst c. rewrite Hcp in Htr. exfalso.
    assert (Hall : Forall (fun e => ~ link_called e) (start_events (length q) ++ tr_plan)).
    { apply Forall_app_2; [apply start_events_not_link|].
      eapply Forall_impl; [exact Hplan|]. apply plan_ev_not_link. }
    rewrite Htr in Hall. apply Forall_app in Hall as [_ Hall].
    apply Forall_cons in Hall as [Hx _]. apply Hx. exact I.
  - subst c. rewrite Hcp in Htr. exfalso.
    assert (Hall : Forall (fun e => ~ link_called e) (start_events (length q) ++ tr_plan)).
    { apply Forall_app_2; [apply start_events_not_link|].
      eapply Forall_impl; [exact Hplan|]. apply plan_ev_not_link. }
    rewrite Htr in Hall. apply Forall_app in Hall as [_ Hall].
    apply Forall_cons in Hall as [Hx _]. apply Hx. exact I.
Qed.

Lemma C2_witness :
  exists acts cp,
    buildActionsForCopy Sim.fs_exec Sim.fifo 20 [Ex.top "s" "d"] None Ex.file_and_link
      = (Resolved acts, cp)
    /\ Forall (fun a => is_file_action a = true -> copied a (take 43 (c_trace (snd C2_run)))) acts
    /\ Forall (fun e => ~ file_ev e) (drop 44 (c_trace (snd C2_run))).
Proof.
  apply (C2_symlinks_after_file_copies Sim.fs_exec Sim.fifo 20 [Ex.top "s" "d"] None
           Ex.file_and_link (fst C2_run) (snd C2_run) _ _ "a" "d/l" None).
  - vm_compute. reflexivity.
  - vm_compute. reflexivity.
Defined.



(** C4, evaluated. The file d/f has mode 0600 where s/f has mode 0644, with
    the same size and time. Copying s/f to d/f calls access on d/f with the
    source's mode, resolves, and leaves d/f with mode 0600: the two modes
    still differ. *)
Theorem C4_destination_mode_is_left_as_it_was :
  let r := copyBulk Sim.fs_exec Sim.fifo 20 [Ex.top "s/f" "d/f"] None Ex.mode_differs in
  fst r = Resolved tt
  /\ EvIO (Access "d/f" 33188) RUnit ∈ c_trace (snd r)
  /\ Sim.stats_of <$> Sim.lookup "s/f" (c_world (snd r)) = Some (mkStats 33188 2 0 7)
  /\ Sim.stats_of <$> Sim.lookup "d/f" (c_world (snd r)) = Some (mkStats 33152 2 0 7)
  /\ c_world (snd r) = Ex.mode_differs.
Proof.
  vm_compute. split; [reflexivity|]. split; [|repeat split].
  repeat (first [apply list_elem_of_here | apply list_elem_of_further]).
Qed.

(** C5. A request whose destination exists with a mode different from the
    source's, the two not both being regular files (the primitives settling
    without error): the planner removes the destination from the extraneous
    set, deletes it with the recursive unlink, and runs build again on the
    same item from its first line.  When the source is a regular file and
    the destination is gone at the second run, that run emits the action
    that copies the source to the destination. *)
Theorem C5_mode_mismatch_deletes_and_rebuilds {World : Type}
    (fs_exec : op -> World -> resp * World)
    (fuel : nat) (data : request) (c : config) (s d : Stats) (names : list string)
    (w1 : World) :
  let script :=
    [(Lstat (src data), RStats s)]
    ++ (if isDirectory s then [(Readdir (src data), RNames names)] else [])
    ++ [(Exists (dest data), RBool true); (Lstat (dest data), RStats d)] in
  let c1 :=
    mkConfig
      (set_possibleExtraneous (set_delete (dest data) (possibleExtraneous (c_heap c)))
         (set_files ({[dest data]} ∪ files (c_heap c)) (c_heap c)))
      w1
      (c_trace c ++ EvDo (FilesAdd (dest data)) :: script_events script
         ++ EvDo (ExtraneousDelete (dest data))
         :: script_events [(Unlink (dest data), RUnit)]) in
  st_mode s <> st_mode d ->
  isFile s && isFile d = false ->
  settles fs_exec (c_world c) (script ++ [(Unlink (dest data), RUnit)]) w1 ->
  exec fs_exec (build (S (S fuel)) data) c = exec fs_exec (build (S fuel) data) c1
  /\ forall s' w2,
       isFile s' = true ->
       settles fs_exec w1 [(Lstat (src data), RStats s'); (Exists (dest data), RBool false)] w2 ->
       exists c',
         exec fs_exec (build (S (S fuel)) data) c = (Resolved tt, c')
         /\ actions (c_heap c') =
              actions (c_heap c)
                ++ [FileAction (src data) (dest data) (st_atime s') (st_mtime s') (st_mode s')]
         /\ c_world c' = w2.
Proof.
  intros script c1 Hmode Hboth Hrun.
  assert (Hm : (st_mode s =? st_mode d) = false) by (apply Z.eqb_neq; exact Hmode).
  assert (H1 : exec fs_exec (build (S (S fuel)) data) c
               = exec fs_exec (build (S fuel) data) c1).
  { subst script c1. cbn [app settles] in Hrun.
    destruct Hrun as (wa & Ha & Hrun).
    set (again := build (S fuel) data).
    cbn [build]. fold again. rewrite exec_bind, exec_stmt.
    rewrite exec_bind, (exec_lstat fs_exec _ _ s wa) by exact Ha.
    rewrite exec_bind.
    destruct (isDirectory s) eqn:Ed.
    - cbn [app settles] in Hrun.
      destruct Hrun as (wb & Hb & wc & Hc & wd & Hd & we & He & ->).
      rewrite exec_bind, (exec_readdir fs_exec _ _ names wb) by exact Hb.
      cbn [exec].
      rewrite exec_bind, (exec_exists fs_exec _ _ true wc) by exact Hc.
      rewrite exec_bind, (exec_lstat fs_exec _ _ d wd) by exact Hd.
      rewrite Hm, Hboth. cbn [negb].
      rewrite exec_bind, exec_stmt, exec_bind. unfold unlink.
      rewrite (exec_await_unit fs_exec _ _ we) by exact He.
      f_equal. unfold do_cmd, settled. cbn [c_heap c_world c_trace exec_cmd fst snd map].
      f_equal. cbn [script_events flat_map fst snd app]. rewrite <- !app_assoc. reflexivity.
    - cbn [app settles] in Hrun.
      destruct Hrun as (wc & Hc & wd & Hd & we & He & ->).
      cbn [exec].
      rewrite exec_bind, (exec_exists fs_exec _ _ true wc) by exact Hc.
      rewrite exec_bind, (exec_lstat fs_exec _ _ d wd) by exact Hd.
      rewrite Hm, Hboth. cbn [negb].
      rewrite exec_bind, exec_stmt, exec_bind. unfold unlink.
      rewrite (exec_await_unit fs_exec _ _ we) by exact He.
      f_equal. unfold do_cmd, settled. cbn [c_heap c_world c_trace exec_cmd fst snd map].
      f_equal. cbn [script_events flat_map fst snd app]. rewrite <- !app_assoc. reflexivity. }
  split; [exact H1|].
  intros s' w2 Hs' Hrun2. rewrite H1. clear H1.
  cbn [settles] in Hrun2. destruct Hrun2 as (wa & Ha & wb & Hb & ->).
  cbn [build]. rewrite exec_bind, exec_stmt.
  rewrite exec_bind, (exec_lstat fs_exec _ _ s' wa) by exact Ha.
  rewrite (kind_file_not_directory s' Hs').
  rewrite exec_bind. cbn [exec].
  rewrite exec_bind, (exec_exists fs_exec _ _ false wb) by exact Hb.
  match goal with |- context [exec fs_exec (copy_entry data s' None) ?cc] =>
    destruct (exec_copy_entry_file fs_exec data s' None cc Hs') as (c' & HE & Hact & Hw)
  end.
  exists c'. split; [exact HE|]. split; [|exact Hw].
  rewrite Hact. reflexivity.
Qed.

Lemma C5_witness :
  exec Sim.fs_exec (build 2 (Ex.top "s/x" "d/x")) C5_start
  = exec Sim.fs_exec (build 1 (Ex.top "s/x" "d/x"))
      (mkConfig
         (set_possibleExtraneous [] (set_files {["d/x"]} (initial_heap [] None)))
         C5_after_unlink
         [EvDo (FilesAdd "d/x");
          EvAwait (Lstat "s/x"); EvIO (Lstat "s/x") (RStats (mkStats 33188 2 0 7));
          EvAwait (Exists "d/x"); EvIO (Exists "d/x") (RBool true);
          EvAwait (Lstat "d/x"); EvIO (Lstat "d/x") (RStats (mkStats 16877 0 0 0));
          EvDo (ExtraneousDelete "d/x");
          EvAwait (Unlink "d/x"); EvIO (Unlink "d/x") RUnit])
  /\ exists c',
       exec Sim.fs_exec (build 2 (Ex.top "s/x" "d/x")) C5_start = (Resolved tt, c')
       /\ actions (c_heap c') = [FileAction "s/x" "d/x" 0 7 33188]
       /\ c_world c' = C5_after_unlink.
Proof.
  pose proof (C5_mode_mismatch_deletes_and_rebuilds Sim.fs_exec 0 (Ex.top "s/x" "d/x")
                C5_start (mkStats 33188 2 0 7) (mkStats 16877 0 0 0) [] C5_after_unlink) as H.
  cbv zeta in H.
  destruct H as [H1 H2].
  - discriminate.
  - reflexivity.
  - repeat (eexists; split; [reflexivity|]). reflexivity.
  - split.
    + exact H1.
    + apply (H2 (mkStats 33188 2 0 7) C5_after_unlink).
      * reflexivity.
      * repeat (eexists; split; [reflexivity|]). reflexivity.
Defined.

(** The whole copy of the example of C5: the directory tree d/x is gone and
    d/x is a regular file with the content, the times and the mode of s/x. *)
Lemma kind_change_end_to_end :
  let r := copyBulk Sim.fs_exec Sim.fifo 20 [Ex.top "s" "d"] None Ex.kind_changed in
  fst r = Resolved tt
  /\ Sim.lookup "d/x" (c_world (snd r)) = Some (Ex.file 420 2 7 "hi")
  /\ Sim.lookup "d/x/y" (c_world (snd r)) = None.
Proof. vm_compute. repeat split. Qed.











Lemma sim_static_reads t : static_reads Sim.fs_exec t.
Proof.
  intros p. split; simpl.
  - destruct (Sim.lookup p t) as [[]|]; reflexivity.
  - destruct (Sim.lookup p t) as [[]|]; reflexivity.
Qed.

Lemma sim_lookup_elem p n t : Sim.lookup p t = Some n -> (p, n) ∈ t.
Proof.
  induction t as [|[q m] t IH]; simpl; [discriminate|].
  destruct (String.eqb_spec q p) as [->|Hne].
  - intros H. inversion H; subst. apply list_elem_of_here.
  - intros H. apply list_elem_of_further. auto.
Qed.

Lemma sim_readdir_names p t names :
  fst (Sim.fs_exec (Readdir p) t) = RNames names ->
  exists st, (p, Sim.Dir st) ∈ t /\ names = omap (fun e => Sim.child_name p (fst e)) t.
Proof.
  simpl. destruct (Sim.lookup p t) as [[]|] eqn:E; simpl; try discriminate.
  intros H. inversion H; subst. exists st. split; [|reflexivity].
  apply sim_lookup_elem. exact E.
Qed.

Lemma walk_tree_dirs p st :
  (p, Sim.Dir st) ∈ ExWalk.tree -> p = "s" \/ p = "s/sub" \/ p = "s/node_modules".
Proof.
  unfold ExWalk.tree. rewrite !elem_of_cons.
  intros [H|[H|[H|[H|[H|[H|H]]]]]]; inversion H; subst; auto.
Qed.

Lemma walk_tree_ranked : ranked Sim.fs_exec ExWalk.tree ExWalk.depth.
Proof.
  intros p names name st Hr Hn Hl Hd.
  apply sim_readdir_names in Hr as (st0 & Hp & ->).
  apply walk_tree_dirs in Hp as [-> | [-> | ->]].
  - change (name ∈ ["a"; "sub"; "node_modules"]) in Hn.
    rewrite !elem_of_cons in Hn.
    destruct Hn as [-> | [-> | [-> | Hn]]]; [| | |by apply elem_of_nil in Hn];
      vm_compute in Hl; inversion Hl; subst; vm_compute in Hd;
      first [discriminate|vm_compute; lia].
  - change (name ∈ ["c"]) in Hn. apply list_elem_of_singleton in Hn as ->.
    vm_compute in Hl; inversion Hl; subst; vm_compute in Hd; discriminate.
  - change (name ∈ ["m"]) in Hn. apply list_elem_of_singleton in Hn as ->.
    vm_compute in Hl; inversion Hl; subst; vm_compute in Hd; discriminate.
Qed.


(** A walk that fails: the listing of a path that is not there. *)
Lemma walk_rejects_on_error :
  exec Sim.fs_exec (walk 2 "missing" None None) ExWalk.start
  = (Rejected (FsError "ENOENT"),
     mkConfig (initial_heap [] None) ExWalk.tree
       [EvAwait (Readdir "missing"); EvIO (Readdir "missing") (RErr "ENOENT")]).
Proof. reflexivity. Qed.

(** C10. The planner replaces the onDone of every submitted request by a call
    of the progress event for the request's destination, and no call of
    copyBulk ever enters an onDone callback that its caller supplied. *)
Theorem C10_caller_onDone_never_called {World : Type}
    (fs_exec : op -> World -> resp * World) (pick : nat -> nat)
    (fuel : nat) (q : list request) (seed : option (list string)) (w : World)
    (out : outcome unit) (c : config) :
  copyBulk fs_exec pick fuel q seed w = (out, c) ->
  Forall2 (fun r r' => r' = mkRequest (src r) (dest r) (onFresh r) (DoneProgress (dest r)))
          q (queue (initial_heap q seed))
  /\ forall id, EvCall (OnDoneCaller id) ∉ c_trace c.
Proof.
  intros HC. split.
  - simpl. unfold initialise_events. clear. induction q; simpl; constructor; auto.
  - intros id Hin.
    destruct (copyBulk_phases _ _ _ _ _ _ _ _ HC)
      as (po & cp & tr_plan & HB & Hcp & Hplan & Hpo).
    assert (Hp : Forall (fun e => e <> EvCall (OnDoneCaller id))
                   (start_events (length q) ++ tr_plan)).
    { apply Forall_app_2; [repeat constructor; discriminate|].
      eapply Forall_impl; [exact Hplan|]. intros e He ->. exact He. }
    assert (Hall : Forall (fun e => e <> EvCall (OnDoneCaller id)) (c_trace c)).
    { destruct po as [acts|e|]; try (subst c; rewrite Hcp; exact Hp).
      destruct Hpo as (tr_files & tr_links & Hc & Hf & Hl & _).
      rewrite Hc, Hcp.
      apply Forall_app_2; [apply Forall_app_2; [exact Hp|apply Forall_app_2]|].
      - repeat constructor; discriminate.
      - eapply Forall_impl; [exact Hf|]. intros e He ->. exact He.
      - eapply Forall_impl; [exact Hl|]. intros e He ->. exact He. }
    rewrite Forall_forall in Hall. exact (Hall _ Hin eq_refl).
Qed.

Lemma C10_witness :
  Forall2 (fun r r' => r' = mkRequest (src r) (dest r) (onFresh r) (DoneProgress (dest r)))
          [Ex.top "s" "d"] (queue (initial_heap [Ex.top "s" "d"] None))
  /\ forall id, EvCall (OnDoneCaller id) ∉ c_trace (snd C7_run).
Proof.
  apply (C10_caller_onDone_never_called Sim.fs_exec Sim.fifo 20 [Ex.top "s" "d"] None
           Ex.two_files (fst C7_run) (snd C7_run)).
  vm_compute. reflexivity.
Defined.

(** [build] itself does call the onDone of the item it is given: only the
    replacement of lines 79-83 keeps the caller's callback from being called. *)
Lemma build_calls_the_onDone_it_is_given :
  EvCall (OnDoneCaller 7) ∈
    c_trace (snd (exec Sim.fs_exec (build 1 (Ex.top "s/a" "d/a"))
                    (mkConfig (initial_heap [] None) Ex.with_extraneous []))).
Proof. vm_compute. repeat (first [apply list_elem_of_here | apply list_elem_of_further]). Qed.

(** * Further properties of the code *)

(** ** find and readFileAny *)

Lemma string_app_assoc (a b c : string) : (a +:+ b) +:+ c = a +:+ (b +:+ c).
Proof.
  induction a as [|x a IH]; [reflexivity|].
  change (String x ((a +:+ b) +:+ c) = String x (a +:+ (b +:+ c))). by rewrite IH.
Qed.

Lemma join_parts_snoc parts f :
  parts <> [] -> Path.join_parts (parts ++ [f]) = Path.join (Path.join_parts parts) f.
Proof.
  induction parts as [|p parts IH]; [congruence|]. intros _.
  destruct parts as [|q parts]; [reflexivity|].
  change (Path.join_parts ((p :: q :: parts) ++ [f]))
    with (p +:+ Path.sep +:+ Path.join_parts ((q :: parts) ++ [f])).
  rewrite IH by discriminate.
  change (Path.join_parts (p :: q :: parts))
    with (p +:+ Path.sep +:+ Path.join_parts (q :: parts)).
  unfold Path.join. by rewrite !string_app_assoc.
Qed.

Section Find.

Context {World : Type}.
Variable fs_exec : op -> World -> resp * World.

Lemma find_loop_static (ex : string -> bool) (w : World) filename :
  (forall p, fs_exec (Exists p) w = (RBool (ex p), w)) ->
  forall n parts h tr,
    let cands := map (fun d => Path.join d filename) (pop_all n parts) in
    exec fs_exec (find_loop n filename parts) (mkConfig h w tr)
    = (Resolved (List.find ex cands),
       mkConfig h w (tr ++ script_events (probes ex (upto ex cands)))).
Proof.
  intros Hex. induction n as [|n IH]; intros parts h tr.
  - simpl. by rewrite app_nil_r.
  - destruct parts as [|p ps]; [simpl; by rewrite app_nil_r|].
    cbn [find_loop pop_all map List.find upto].
    rewrite <- (join_parts_snoc (p :: ps) filename) by discriminate.
    set (loc := Path.join_parts ((p :: ps) ++ [filename])).
    rewrite exec_bind, (exec_exists fs_exec loc _ (ex loc) w) by apply Hex.
    destruct (ex loc) eqn:E.
    + unfold settled. cbn [exec probes map script_events flat_map fst snd app c_heap c_trace].
      rewrite E. reflexivity.
    + unfold settled. cbn [c_heap c_trace]. rewrite IH. cbv zeta.
      cbn [probes map script_events flat_map fst snd app].
      rewrite E, <- app_assoc. reflexivity.
Qed.

End Find.

Lemma split_not_nil s : Path.split s <> [].
Proof.
  destruct s as [|a s]; simpl; [discriminate|].
  destruct (Ascii.eqb a Path.sep_char); [discriminate|].
  destruct (Path.split s); discriminate.
Qed.

(** [dest.split(path.sep).join(path.sep)] is [dest] again. *)
Lemma join_parts_split s : Path.join_parts (Path.split s) = s.
Proof.
  induction s as [|a s IH]; [reflexivity|]. cbn [Path.split].
  destruct (Ascii.eqb_spec a Path.sep_char) as [->|Hne].
  - pose proof (split_not_nil s) as Hs.
    destruct (Path.split s) as [|h t] eqn:E; [congruence|].
    change (Path.join_parts (EmptyString :: h :: t))
      with (EmptyString +:+ Path.sep +:+ Path.join_parts (h :: t)).
    rewrite IH. reflexivity.
  - pose proof (split_not_nil s) as Hs.
    destruct (Path.split s) as [|h t] eqn:E; [congruence|].
    destruct t as [|h' t].
    + simpl in *. by rewrite IH.
    + change (Path.join_parts (String a h :: h' :: t))
        with (String a (h +:+ Path.sep +:+ Path.join_parts (h' :: t))).
      change (Path.join_parts (h :: h' :: t))
        with (h +:+ Path.sep +:+ Path.join_parts (h' :: t)) in IH.
      by rewrite IH.
Qed.

Lemma join_parts_app l1 l2 :
  l1 <> [] -> l2 <> [] ->
  Path.join_parts (l1 ++ l2) = Path.join (Path.join_parts l1) (Path.join_parts l2).
Proof.
  induction l1 as [|p l1 IH]; [congruence|]. intros _ H2.
  destruct l1 as [|q l1].
  - destruct l2 as [|x l2]; [congruence|]. reflexivity.
  - change (Path.join_parts ((p :: q :: l1) ++ l2))
      with (p +:+ Path.sep +:+ Path.join_parts ((q :: l1) ++ l2)).
    rewrite IH by (discriminate || exact H2).
    change (Path.join_parts (p :: q :: l1))
      with (p +:+ Path.sep +:+ Path.join_parts (q :: l1)).
    unfold Path.join. by rewrite !string_app_assoc.
Qed.

Lemma removelast_take {A : Type} (l : list A) : removelast l = take (length l - 1) l.
Proof.
  induction l as [|x l IH]; [reflexivity|].
  destruct l as [|y l]; [reflexivity|].
  change (removelast (x :: y :: l)) with (x :: removelast (y :: l)).
  rewrite IH. simpl. by rewrite Nat.sub_0_r.
Qed.

(** What the loop of lines 181-185 joins: the first [k] parts, for [k]
    from the number of parts down to one. *)
Lemma pop_all_takes n : forall parts,
  length parts = n ->
  pop_all n parts = map (fun k => Path.join_parts (take k parts)) (rev (seq 1 n)).
Proof.
  induction n as [|n IH]; intros parts Hn; [reflexivity|].
  destruct parts as [|p ps]; [discriminate|].
  cbn [pop_all]. rewrite seq_S, rev_app_distr. cbn [rev app map Nat.add].
  rewrite <- Hn at 1. rewrite firstn_all. f_equal.
  rewrite IH.
  - apply map_ext_in. intros k Hk. apply in_rev, in_seq in Hk.
    rewrite removelast_take, Hn. f_equal.
    rewrite take_take. f_equal. lia.
  - rewrite removelast_take, length_take. lia.
Qed.

Lemma split_join a b : Path.split (Path.join a b) = Path.split a ++ Path.split b.
Proof.
  unfold Path.join. induction a as [|x a IH].
  - reflexivity.
  - change (String x a +:+ Path.sep +:+ b) with (String x (a +:+ Path.sep +:+ b)).
    cbn [Path.split]. rewrite IH.
    destruct (Ascii.eqb x Path.sep_char); [reflexivity|].
    pose proof (split_not_nil a) as Ha.
    destruct (Path.split a) as [|h t]; [congruence|]. reflexivity.
Qed.

Lemma elem_of_rev_seq k n : k ∈ rev (seq 1 n) <-> (1 <= k <= n)%nat.
Proof. rewrite list_elem_of_In, <- in_rev, in_seq. lia. Qed.

Lemma elem_of_dest_prefixes dest d :
  d ∈ dest_prefixes dest <-> d = dest \/ exists tail, dest = Path.join d tail.
Proof.
  unfold dest_prefixes. rewrite pop_all_takes by reflexivity.
  rewrite list_elem_of_fmap. split.
  - intros (k & -> & Hk). apply elem_of_rev_seq in Hk.
    destruct (decide (k = length (Path.split dest))) as [->|Hne].
    + left. by rewrite firstn_all, join_parts_split.
    + right. exists (Path.join_parts (drop k (Path.split dest))).
      rewrite <- join_parts_app.
      * by rewrite take_drop, join_parts_split.
      * intros E. apply (f_equal length) in E. rewrite length_take in E. simpl in E. lia.
      * intros E. apply (f_equal length) in E. rewrite length_drop in E. simpl in E. lia.
  - pose proof (split_not_nil dest) as Hd.
    intros [->|(tail & ->)].
    + exists (length (Path.split dest)). split; [by rewrite firstn_all, join_parts_split|].
      apply elem_of_rev_seq.
      destruct (Path.split dest); [congruence|]. simpl. lia.
    + exists (length (Path.split d)). rewrite split_join. split.
      * by rewrite take_app_length, join_parts_split.
      * apply elem_of_rev_seq. rewrite length_app.
        pose proof (split_not_nil d) as H1.
        destruct (Path.split d); [congruence|]. simpl. lia.
Qed.

(** ** Where copyBulk reads and writes *)

Lemma mirrors_inside q s d : mirrors q s d -> inside q d.
Proof. intros (r & chain & Hr & _ & Hd). exists r, chain. auto. Qed.

Lemma abs_path_snoc root chain name :
  Path.join (abs_path root chain) name = abs_path root (chain ++ [name]).
Proof. unfold abs_path. by rewrite foldl_app. Qed.

Lemma mirrors_join q s d name : mirrors q s d -> mirrors q (Path.join s name) (Path.join d name).
Proof.
  intros (r & chain & Hr & -> & ->). exists r, (chain ++ [name]).
  by rewrite !abs_path_snoc.
Qed.

Lemma inside_join q d name : inside q d -> inside q (Path.join d name).
Proof.
  intros (r & chain & Hr & ->). exists r, (chain ++ [name]). by rewrite abs_path_snoc.
Qed.

Lemma mirrors_top q r : r ∈ q -> mirrors q (src r) (dest r).
Proof. intros Hr. exists r, []. auto. Qed.

Lemma local_cmd_ok q seed c h :
  local_cmd q c -> Forall (local_ev q seed) (EvDo c :: map EvCall (snd (exec_cmd c h))).
Proof.
  intros Hc. constructor; [exact Hc|]. apply Forall_map, Forall_true. intros cb. exact I.
Qed.

Lemma local_op_ok q seed o :
  local_op q seed o -> local_ev q seed (EvAwait o) /\ forall r, local_ev q seed (EvIO o r).
Proof. intros H. split; auto. Qed.

Lemma scan_dest_local q seed d srcFiles destFiles :
  inside q d -> guarded (local_cmd q) (local_op q seed) (scan_dest d srcFiles destFiles).
Proof.
  intros Hd. unfold scan_dest, lstat, readdir.
  guard_step; simpl; auto using inside_join.
Qed.

Lemma copy_entry_local q seed r srcStat srcFiles :
  mirrors q (src r) (dest r) ->
  guarded (local_cmd q) (local_op q seed) (copy_entry r srcStat srcFiles).
Proof.
  intros Hr. pose proof (mirrors_inside _ _ _ Hr) as Hd.
  unfold copy_entry, readlink, mkdirp.
  destruct (isSymbolicLink srcStat); [guard_step; simpl; auto|].
  destruct (isDirectory srcStat); [|guard_step; simpl; auto].
  guard_step; simpl; auto.
  intros i. guard_step; simpl; auto using mirrors_join.
Qed.

Lemma build_local q seed fuel r :
  mirrors q (src r) (dest r) -> guarded (local_cmd q) (local_op q seed) (build fuel r).
Proof.
  intros Hr. pose proof (mirrors_inside _ _ _ Hr) as Hd.
  induction fuel as [|fuel IH]; [exact I|].
  cbn [build]. unfold lstat, readdir, exists_, access, unlink, readlink.
  guard_step; simpl; auto using scan_dest_local, copy_entry_local.
Qed.

Lemma remove_extraneous_local q seed locs seen :
  Forall (fun p => inside q p \/ p ∈ default [] seed) locs ->
  guarded (local_cmd q) (local_op q seed) (remove_extraneous locs seen).
Proof.
  induction 1 as [|loc rest Hloc _ IH]; cbn [remove_extraneous]; [exact I|].
  destruct (bool_decide (loc ∈ seen)); auto.
  apply guarded_bind; [apply guarded_await_unit; exact Hloc|intros _; exact IH].
Qed.

Lemma copy_file_local q seed a :
  local_action q a -> guarded (local_cmd q) (local_op q seed) (copy_file a).
Proof.
  destruct a; cbn [copy_file]; [|intros _; exact I]. intros Ha.
  guard_step; simpl; eauto using mirrors_inside.
Qed.

Lemma link_action_local q seed a :
  local_action q a -> guarded (local_cmd q) (local_op q seed) (link_action a).
Proof.
  destruct a; cbn [link_action]; [intros _; exact I|]. intros Ha.
  unfold fsSymlink. guard_step; simpl; auto.
Qed.

Lemma pushed_app tr1 tr2 : pushed (tr1 ++ tr2) = pushed tr1 ++ pushed tr2.
Proof. unfold pushed. apply omap_app. Qed.

Lemma pushed_calls cbs : pushed (map EvCall cbs) = [].
Proof. induction cbs as [|cb cbs IH]; [reflexivity|exact IH]. Qed.

Lemma pushed_cons e tr :
  pushed (e :: tr)
  = match e with EvDo (ActionsPush a) => a :: pushed tr | _ => pushed tr end.
Proof. destruct e as [[]| | |]; reflexivity. Qed.

Lemma pushed_do h tr c k l :
  pushed_inv h tr (Do c k :: l) ->
  pushed_inv (fst (exec_cmd c h)) (tr ++ EvDo c :: map EvCall (snd (exec_cmd c h))) (k :: l).
Proof.
  unfold pushed_inv. intros H. rewrite exec_cmd_actions, pushed_app, <- H.
  rewrite pushed_cons, pushed_calls. destruct c; by rewrite ?app_nil_r.
Qed.

Lemma elem_of_pushed a tr : a ∈ pushed tr <-> EvDo (ActionsPush a) ∈ tr.
Proof.
  unfold pushed. rewrite list_elem_of_omap. split.
  - intros (e & He & Hs). destruct e as [[]| | |]; try discriminate.
    by inversion Hs; subst.
  - intros H. eexists. split; [exact H|reflexivity].
Qed.

Section Local.

Context {World : Type}.
Variable fs_exec : op -> World -> resp * World.
Variable pick : nat -> nat.

Lemma plan_walk_pushed fuel q seed w out c :
  plan_walk fs_exec pick fuel q seed w = (out, c) -> actions (c_heap c) = pushed (c_trace c).
Proof.
  unfold plan_walk. intros HD.
  eapply (drain_inv fs_exec pick pushed_inv) in HD.
  - destruct HD as [_ [l H]]. exact H.
  - auto.
  - apply pushed_do.
  - auto.
  - unfold pushed_inv. intros h tr o k l H. rewrite pushed_app, H. simpl. by rewrite app_nil_r.
  - unfold pushed_inv. intros h tr o k r l H. rewrite pushed_app, H. simpl. by rewrite app_nil_r.
  - auto.
  - auto.
  - reflexivity.
Qed.

Lemma plan_walk_local fuel q seed w out c :
  plan_walk fs_exec pick fuel q seed w = (out, c) -> Forall (local_ev q seed) (c_trace c).
Proof.
  unfold plan_walk. intros HD.
  eapply (drain_safe fs_exec pick (local_ev q seed) (local_cmd q) (local_op q seed)
            (fun r => mirrors q (src r) (dest r)) []
            (local_cmd_ok q seed) (local_op_ok q seed) (fun r H => H)
            fuel (build_local q seed fuel)) in HD.
  - destruct HD as [(suf & -> & Hs) _]. exact Hs.
  - eexists. split; [reflexivity|]. repeat constructor.
  - simpl. unfold initialise_events. apply Forall_map, Forall_forall.
    intros r Hr. simpl. by apply mirrors_top.
Qed.

Lemma buildActionsForCopy_local fuel q seed w out c :
  buildActionsForCopy fs_exec pick fuel q seed w = (out, c) ->
  Forall (local_ev q seed) (c_trace c) /\ actions (c_heap c) = pushed (c_trace c).
Proof.
  unfold buildActionsForCopy. intros HB.
  destruct (plan_walk fs_exec pick fuel q seed w) as [o1 c1] eqn:EW.
  pose proof (plan_walk_local _ _ _ _ _ _ EW) as Hl.
  pose proof (plan_walk_pushed _ _ _ _ _ _ EW) as Hp.
  destruct o1 as [[]|e|]; try (inversion HB; subst; auto; fail).
  destruct (plan_walk_extraneous _ _ _ _ _ _ _ EW) as [(_ & J2 & _) _].
  destruct (exec fs_exec _ c1) as [o2 c2] eqn:EE.
  assert (Hc2 : Forall (local_ev q seed) (c_trace c2) /\ actions (c_heap c2) = pushed (c_trace c2)).
  { split.
    - eapply (exec_safe fs_exec (local_ev q seed) (local_cmd q) (local_op q seed)
                (fun r => True) [] (local_cmd_ok q seed) (local_op_ok q seed)
                (fun _ _ => I)) in EE.
      + destruct EE as [(suf & -> & Hs) _]. exact Hs.
      + exists (c_trace c1). auto.
      + apply Forall_true. auto.
      + apply remove_extraneous_local. apply Forall_forall. intros p Hp'.
        destruct (J2 p Hp') as [Hs|Ha]; [right; exact Hs|left].
        rewrite Forall_forall in Hl. exact (Hl _ Ha).
    - eapply (exec_inv fs_exec pushed_inv) in EE.
      + destruct EE as [_ [l H]]. exact H.
      + apply pushed_do.
      + auto.
      + unfold pushed_inv. intros h tr o k l H. rewrite pushed_app, H. simpl.
        by rewrite app_nil_r.
      + unfold pushed_inv. intros h tr o k r l H. rewrite pushed_app, H. simpl.
        by rewrite app_nil_r.
      + auto.
      + exact Hp. }
  destruct o2 as [u|e|]; inversion HB; subst; exact Hc2.
Qed.

Lemma plan_actions_local fuel q seed w acts c :
  buildActionsForCopy fs_exec pick fuel q seed w = (Resolved acts, c) ->
  Forall (local_action q) acts.
Proof.
  intros HB. pose proof (buildActionsForCopy_local _ _ _ _ _ _ HB) as [Hl Hp].
  assert (acts = actions (c_heap c)) as ->.
  { unfold buildActionsForCopy in HB.
    destruct (plan_walk fs_exec pick fuel q seed w) as [[[]|e|] c1]; try discriminate.
    destruct (exec fs_exec _ c1) as [[u|e|] c2]; inversion HB; subst. reflexivity. }
  rewrite Hp. apply Forall_forall. intros a Ha. apply elem_of_pushed in Ha.
  rewrite Forall_forall in Hl. exact (Hl _ Ha).
Qed.

End Local.

Section LocalCopy.

Context {World : Type}.
Variable fs_exec : op -> World -> resp * World.
Variable pick : nat -> nat.

Lemma pool_local q seed fuel K (ps : list (proc unit)) (c : config) out c' :
  Forall (local_ev q seed) (c_trace c) ->
  Forall (guarded (local_cmd q) (local_op q seed)) ps ->
  run_pool fs_exec pick fuel K ps [] c = (out, c') ->
  Forall (local_ev q seed) (c_trace c').
Proof.
  intros Hc Hps HR.
  eapply (run_pool_safe fs_exec pick (local_ev q seed) (local_cmd q) (local_op q seed)
            (fun r => True) [] (local_cmd_ok q seed) (local_op_ok q seed)
            (fun _ _ => I)) in HR.
  - destruct HR as [(suf & -> & Hs) _]. exact Hs.
  - exists (c_trace c). auto.
  - apply Forall_true. auto.
  - exact Hps.
Qed.

Lemma copyBulk_local fuel q seed w out c :
  copyBulk fs_exec pick fuel q seed w = (out, c) -> Forall (local_ev q seed) (c_trace c).
Proof.
  unfold copyBulk. intros HC.
  destruct (buildActionsForCopy fs_exec pick fuel q seed w) as [po cp] eqn:HB.
  pose proof (buildActionsForCopy_local _ _ _ _ _ _ _ _ HB) as [Hl _].
  destruct po as [acts|e|]; try (inversion HC; subst; exact Hl).
  pose proof (plan_actions_local _ _ _ _ _ _ _ _ HB) as Ha.
  rewrite Forall_forall in Ha.
  unfold promise_queue in HC.
  destruct (run_pool fs_exec pick fuel _ (map copy_file _) [] _) as [o2 c2] eqn:E2.
  apply (pool_local q seed) in E2.
  - destruct o2 as [u|e|]; try (inversion HC; subst; exact E2).
    apply (pool_local q seed) in HC; [exact HC|exact E2|].
    apply Forall_forall. intros p Hp.
    apply list_elem_of_fmap in Hp as (a & -> & Hin).
    apply list_elem_of_filter in Hin as [_ Hin]. apply link_action_local. auto.
  - unfold do_cmd. simpl. apply Forall_app. split; [exact Hl|]. repeat constructor.
  - apply Forall_forall. intros p Hp.
    apply list_elem_of_fmap in Hp as (a & -> & Hin).
    apply list_elem_of_filter in Hin as [_ Hin]. apply copy_file_local. auto.
Qed.

End LocalCopy.

(** ** One request, branch by branch *)

Section BuildRun.

Context {World : Type}.
Variable fs_exec : op -> World -> resp * World.

Lemma exec_readlink p (c : config) s w' :
  fs_exec (Readlink p) (c_world c) = (RString s, w') ->
  exec fs_exec (readlink p) c = (Resolved s, settled (Readlink p) (RString s) w' c).
Proof. intros H. unfold readlink, await_string. by rewrite (exec_await _ _ _ _ _ _ H). Qed.

Lemma settled_script o r (w' w0 : World) (c : config) dest script :
  settled o r w' (after_script dest script w0 c) = after_script dest (script ++ [(o, r)]) w' c.
Proof.
  unfold settled, after_script. cbn [c_heap c_trace]. f_equal.
  unfold script_events. rewrite flat_map_app. cbn [flat_map fst snd app].
  rewrite <- app_assoc. reflexivity.
Qed.

Lemma exec_mark_seen dest (c : @config World) :
  do_cmd (FilesAdd dest) c = after_script dest [] (c_world c) c.
Proof. reflexivity. Qed.

(** Lines 205-215, run. *)
Lemma exec_copy_entry_regular data s srcFiles (c : config) :
  isFile s = true ->
  exec fs_exec (copy_entry data s srcFiles) c
  = (Resolved tt,
     do_cmd (CallDone (onDone data))
       (do_cmd (ActionsPush (FileAction (src data) (dest data) (st_atime s) (st_mtime s)
                               (st_mode s)))
          (do_cmd (CallFresh (onFresh data)) c))).
Proof.
  intros Hs. unfold copy_entry.
  rewrite (kind_file_not_link s Hs), (kind_file_not_directory s Hs), Hs.
  rewrite exec_bind, exec_stmt, exec_bind, exec_stmt, exec_stmt. reflexivity.
Qed.

(** Lines 169-177, run. *)
Lemma exec_copy_entry_link data s srcFiles (c : config) linkname w' :
  isSymbolicLink s = true ->
  fs_exec (Readlink (src data)) (c_world c) = (RString linkname, w') ->
  exec fs_exec (copy_entry data s srcFiles) c
  = (Resolved tt,
     do_cmd (CallDone (onDone data))
       (do_cmd (ActionsPush (SymlinkAction (dest data) linkname))
          (settled (Readlink (src data)) (RString linkname) w'
             (do_cmd (CallFresh (onFresh data)) c)))).
Proof.
  intros Hs Hr. unfold copy_entry. rewrite Hs.
  rewrite exec_bind, exec_stmt, exec_bind.
  rewrite (exec_readlink _ _ linkname w').
  - rewrite exec_bind, exec_stmt, exec_stmt. reflexivity.
  - unfold do_cmd. destruct (exec_cmd _ _). exact Hr.
Qed.

End BuildRun.

(** ** The symlink helper, attempt by attempt *)

Section SymlinkRun.

Context {World : Type}.
Variable fs_exec : op -> World -> resp * World.

Lemma exec_realpath p (c : config) s w' :
  fs_exec (Realpath p) (c_world c) = (RString s, w') ->
  exec fs_exec (realpath p) c = (Resolved s, settled (Realpath p) (RString s) w' c).
Proof. intros H. unfold realpath, await_string. by rewrite (exec_await _ _ _ _ _ _ H). Qed.

(** The configuration after the primitives of [script] have settled. *)
Lemma settled_twice o r (w1 : World) o' r' (w2 : World) (c : config) :
  settled o' r' w2 (settled o r w1 c)
  = mkConfig (c_heap c) w2 (c_trace c ++ script_events [(o, r); (o', r')]).
Proof.
  unfold settled. cbn [c_heap c_trace script_events flat_map fst snd app].
  by rewrite <- app_assoc.
Qed.

Lemma exec_unlink_gone dest (c : config) gone w' :
  fs_exec (Unlink dest) (c_world c) = (gone, w') ->
  gone = RUnit \/ gone = RErr "ENOENT" ->
  exec fs_exec
    (try_catch (unlink dest ;;; Ret false)
       (fun err => if negb (has_code err "ENOENT") then Throw err else Ret false)) c
  = (Resolved false, settled (Unlink dest) gone w' c).
Proof.
  intros Hu Hg. rewrite exec_try_catch, exec_bind. unfold unlink.
  destruct Hg as [-> | ->].
  - by rewrite (exec_await_unit fs_exec _ _ w') by exact Hu.
  - by rewrite (exec_await_unit_err fs_exec _ _ "ENOENT" w') by exact Hu.
Qed.

Lemma symlink_clear_in_the_way src dest script (c : config) w' :
  in_the_way src dest script ->
  settles fs_exec (c_world c) script w' ->
  exec fs_exec (symlink_clear src dest) c
  = (Resolved false, mkConfig (c_heap c) w' (c_trace c ++ script_events script)).
Proof.
  intros Hway Hrun. unfold symlink_clear.
  destruct Hway as [->|(st & pre & gone & -> & Hgone & Hpre)].
  - cbn [settles] in Hrun. destruct Hrun as (w1 & H1 & ->).
    rewrite exec_try_catch, exec_bind. unfold lstat.
    by rewrite (exec_await_stats_err fs_exec _ _ "ENOENT" w1) by exact H1.
  - cbn [settles] in Hrun. destruct Hrun as (w1 & H1 & Hrun).
    destruct Hpre as [[Hk ->]|[[Hk ->]|(Hk & resolved & Hne & ->)]];
      cbn [app settles] in Hrun.
    + destruct Hrun as (w2 & H2 & ->).
      rewrite exec_try_catch, exec_bind, (exec_lstat fs_exec _ _ st w1) by exact H1.
      rewrite Hk, exec_bind. cbn [exec]. rewrite exec_bind. cbn [exec].
      rewrite <- exec_try_catch.
      rewrite (exec_unlink_gone dest _ gone w2) by (exact H2 || exact Hgone).
      by rewrite settled_twice.
    + destruct Hrun as (w2 & H2 & w3 & H3 & ->).
      rewrite exec_try_catch, exec_bind, (exec_lstat fs_exec _ _ st w1) by exact H1.
      rewrite Hk, exec_bind, (exec_exists fs_exec _ _ false w2) by exact H2.
      rewrite exec_bind. cbn [exec].
      rewrite <- exec_try_catch.
      rewrite (exec_unlink_gone dest _ gone w3) by (exact H3 || exact Hgone).
      unfold settled. cbn [c_heap c_trace script_events flat_map fst snd app].
      by rewrite <- !app_assoc.
    + destruct Hrun as (w2 & H2 & w3 & H3 & w4 & H4 & ->).
      rewrite exec_try_catch, exec_bind, (exec_lstat fs_exec _ _ st w1) by exact H1.
      rewrite Hk, exec_bind, (exec_exists fs_exec _ _ true w2) by exact H2.
      rewrite exec_bind, exec_bind, (exec_realpath _ _ resolved w3) by exact H3.
      cbn [exec]. apply String.eqb_neq in Hne. rewrite Hne.
      rewrite <- exec_try_catch.
      rewrite (exec_unlink_gone dest _ gone w4) by (exact H4 || exact Hgone).
      unfold settled. cbn [c_heap c_trace script_events flat_map fst snd app].
      by rewrite <- !app_assoc.
Qed.

End SymlinkRun.

(** ** How many primitives are pending *)

Lemma balance_app b tr1 tr2 : balance b (tr1 ++ tr2) = balance (balance b tr1) tr2.
Proof.
  revert b. induction tr1 as [|e tr1 IH]; intros b; [reflexivity|].
  destruct e; simpl; apply IH.
Qed.

Lemma pending_le_app K b tr1 tr2 :
  pending_le K b (tr1 ++ tr2) <-> pending_le K b tr1 /\ pending_le K (balance b tr1) tr2.
Proof.
  revert b. induction tr1 as [|e tr1 IH]; intros b; [simpl; tauto|].
  destruct e; simpl; rewrite ?IH; tauto.
Qed.

Lemma balance_quiet b evs : Forall quiet evs -> balance b evs = b.
Proof.
  induction 1 as [|e evs [Ha Hi] _ IH]; [reflexivity|].
  destruct e; simpl in *; try discriminate; exact IH.
Qed.

Lemma pending_le_quiet K b evs : Forall quiet evs -> pending_le K b evs.
Proof.
  induction 1 as [|e evs [Ha Hi] _ IH]; [exact I|].
  destruct e; simpl in *; try discriminate; exact IH.
Qed.

Lemma pending_le_mono K K' b tr : (K <= K')%nat -> pending_le K b tr -> pending_le K' b tr.
Proof.
  intros HK. revert b. induction tr as [|e tr IH]; intros b; [auto|].
  destruct e; simpl; auto. intros [? ?]. split; [lia|auto].
Qed.

Lemma quiet_do c cbs : Forall quiet (EvDo c :: map EvCall cbs).
Proof.
  constructor; [split; reflexivity|]. apply Forall_map, Forall_true.
  intros cb. split; reflexivity.
Qed.

Lemma run_sync_shape {A : Type} (p : proc A) : forall h tr s h' tr',
  run_sync p h tr = (s, h', tr') ->
  exists evs, tr' = tr ++ evs ++ sync_tail s /\ Forall quiet evs.
Proof.
  induction p as [a|e|c k IH|n k IH|o k IH|]; intros h tr s h' tr' HR; cbn [run_sync] in HR;
    try (inversion HR; subst; exists []; split; [by rewrite ?app_nil_r|constructor]).
  - destruct (exec_cmd c h) as [h1 cbs]. apply IH in HR as (evs & -> & Hq).
    exists ((EvDo c :: map EvCall cbs) ++ evs). split.
    + by rewrite <- !app_assoc.
    + apply Forall_app. split; [apply quiet_do|exact Hq].
  - apply IH in HR. exact HR.
Qed.

Lemma bounded_quiet K tr n evs :
  bounded_at K tr n -> Forall quiet evs -> bounded_at K (tr ++ evs) n.
Proof.
  intros [Hp Hb] Hq. split.
  - apply pending_le_app. split; [exact Hp|]. by apply pending_le_quiet.
  - rewrite balance_app, Hb. by apply balance_quiet.
Qed.

Lemma bounded_await K tr n o :
  bounded_at K tr n -> (n < K)%nat -> bounded_at K (tr ++ [EvAwait o]) (S n).
Proof.
  intros [Hp Hb] Hn. split.
  - apply pending_le_app. split; [exact Hp|]. rewrite Hb. simpl. split; [lia|exact I].
  - rewrite balance_app, Hb. reflexivity.
Qed.

Lemma bounded_io K tr n o r :
  bounded_at K tr n -> bounded_at K (tr ++ [EvIO o r]) (pred n).
Proof.
  intros [Hp Hb]. split.
  - apply pending_le_app. split; [exact Hp|]. exact I.
  - rewrite balance_app, Hb. reflexivity.
Qed.

Lemma bounded_sync K tr n {A : Type} (s : sync A) evs :
  bounded_at K tr n -> Forall quiet evs -> (n < K)%nat ->
  bounded_at K (tr ++ evs ++ sync_tail s)
    (match s with SAwait _ _ => S n | _ => n end).
Proof.
  intros Hb Hq Hn. rewrite app_assoc.
  pose proof (bounded_quiet _ _ _ _ Hb Hq) as H1.
  destruct s; cbn [sync_tail]; rewrite ?app_nil_r; auto.
  by apply bounded_await.
Qed.

Section Bound.

Context {World : Type}.
Variable fs_exec : op -> World -> resp * World.
Variable pick : nat -> nat.

Lemma sync_in_shape {A : Type} (p : proc A) (c : @config World) s c' :
  sync_in p c = (s, c') ->
  exists evs, c_trace c' = c_trace c ++ evs ++ sync_tail s /\ Forall quiet evs.
Proof.
  unfold sync_in. destruct (run_sync p (c_heap c) (c_trace c)) as [[s1 h1] tr1] eqn:E.
  intros H. inversion H; subst. cbn [c_trace]. by apply run_sync_shape in E.
Qed.

Lemma launch_bound K B : forall pending running (c : @config World) out c',
  (K <= B)%nat ->
  launch K pending running c = (out, c') ->
  bounded_at B (c_trace c) (length running) -> (length running <= K)%nat ->
  match out with
  | Resolved (pending', running') =>
      bounded_at B (c_trace c') (length running') /\ (length running' <= K)%nat
  | _ => pending_le B 0 (c_trace c')
  end.
Proof.
  induction pending as [|p rest IH]; intros running c out c' HKB HL Hb HK; cbn [launch] in HL.
  - inversion HL; subst. auto.
  - destruct (length running <? K)%nat eqn:Elt.
    + apply Nat.ltb_lt in Elt.
      destruct (sync_in p c) as [s c1] eqn:Es.
      apply sync_in_shape in Es as (evs & Ht & Hq).
      assert (HltB : (length running < B)%nat) by lia.
      pose proof (bounded_sync B _ _ s evs Hb Hq HltB) as H1. rewrite <- Ht in H1.
      destruct s as [u|e|o k|].
      * eapply IH; eauto.
      * inversion HL; subst. exact (proj1 H1).
      * eapply IH; [exact HKB|exact HL| |]; rewrite length_app; simpl.
        -- by rewrite Nat.add_1_r.
        -- lia.
      * inversion HL; subst. exact (proj1 H1).
    + inversion HL; subst. auto.
Qed.

Lemma run_pool_bound K B : forall fuel pending running (c : config) out c',
  (K <= B)%nat ->
  run_pool fs_exec pick fuel K pending running c = (out, c') ->
  bounded_at B (c_trace c) (length running) -> (length running <= K)%nat ->
  pending_le B 0 (c_trace c') /\ (out = Resolved tt -> balance 0 (c_trace c') = 0%nat).
Proof.
  induction fuel as [|fuel IH]; intros pending running c out c' HKB HR Hb HK.
  - cbn [run_pool] in HR.
    destruct (launch K pending running c) as [[[pending' running']|e|] c1] eqn:EL;
      pose proof (launch_bound _ _ _ _ _ _ _ HKB EL Hb HK) as H1.
    + destruct H1 as [[Hp Hbal] _]. destruct running' as [|t running'].
      * destruct pending'; inversion HR; subst; split; auto; discriminate.
      * inversion HR; subst. split; [exact Hp|discriminate].
    + inversion HR; subst. split; [exact H1|discriminate].
    + inversion HR; subst. split; [exact H1|discriminate].
  - cbn [run_pool] in HR.
    destruct (launch K pending running c) as [[[pending' running']|e|] c1] eqn:EL;
      pose proof (launch_bound _ _ _ _ _ _ _ HKB EL Hb HK) as H1.
    + destruct H1 as [Hb1 HK1]. destruct running' as [|t0 running0].
      * destruct Hb1 as [Hp Hbal].
        destruct pending'; inversion HR; subst; split; auto; discriminate.
      * cbv iota in HR. set (running' := t0 :: running0) in *.
        assert (Hpos : (0 < length running')%nat) by (subst running'; simpl; lia).
        clearbody running'.
        set (i := (pick (length (c_trace c1)) mod length running')%nat) in *.
        destruct (running' !! i) as [t|] eqn:Et;
          [|inversion HR; subst; split; [exact (proj1 Hb1)|discriminate]].
        assert (Hi : (i < length running')%nat) by (eapply lookup_lt_Some; eauto).
        assert (Hsome : is_Some (running' !! i)) by (exists t; exact Et).
        destruct (settle fs_exec (fst t) c1) as [r c2] eqn:Es.
        assert (Hb2 : bounded_at B (c_trace c2) (pred (length running'))).
        { unfold settle in Es. destruct (fs_exec (fst t) (c_world c1)) as [r' w'].
          inversion Es; subst. cbn [c_trace]. by apply bounded_io. }
        destruct (sync_in (resume t r) c2) as [s c3] eqn:Ey.
        apply sync_in_shape in Ey as (evs & Ht & Hq).
        assert (Hlt : (pred (length running') < B)%nat) by lia.
        pose proof (bounded_sync B _ _ s evs Hb2 Hq Hlt) as H3. rewrite <- Ht in H3.
        destruct s as [u|e|o k|].
        -- eapply IH; [exact HKB|exact HR| |]; rewrite (length_delete _ _ Hsome).
           ++ replace (length running' - 1)%nat with (pred (length running')) by lia.
              exact H3.
           ++ lia.
        -- inversion HR; subst. split; [exact (proj1 H3)|discriminate].
        -- eapply IH; [exact HKB|exact HR| |]; rewrite length_insert.
           ++ replace (S (pred (length running'))) with (length running') in H3 by lia.
              exact H3.
           ++ lia.
        -- inversion HR; subst. split; [exact (proj1 H3)|discriminate].
    + inversion HR; subst. split; [exact H1|discriminate].
    + inversion HR; subst. split; [exact H1|discriminate].
Qed.

(** One program awaited on its own has one primitive pending at most. *)
Lemma exec_bound K {A : Type} (p : proc A) : forall (c : config) out c',
  (1 <= K)%nat ->
  exec fs_exec p c = (out, c') ->
  bounded_at K (c_trace c) 0 -> bounded_at K (c_trace c') 0.
Proof.
  induction p as [a|e|cm k IH|n k IH|o k IH|]; intros c out c' HK HE Hb; cbn [exec] in HE;
    try (inversion HE; subst; exact Hb).
  - eapply IH; [exact HK|exact HE|]. unfold do_cmd.
    destruct (exec_cmd cm (c_heap c)) as [h cbs]. cbn [c_trace].
    apply bounded_quiet; [exact Hb|apply quiet_do].
  - eapply IH; [exact HK|exact HE|exact Hb].
  - unfold settle in HE. cbn [c_world c_heap c_trace] in HE.
    destruct (fs_exec o (c_world c)) as [r w1].
    eapply IH; [exact HK|exact HE|]. cbn [c_trace].
    apply (bounded_io K _ 1). apply bounded_await; [exact Hb|lia].
Qed.

Lemma drain_bound fuel : forall n (c : config) out c',
  drain fs_exec pick fuel n c = (out, c') ->
  bounded_at 4 (c_trace c) 0 ->
  pending_le 4 0 (c_trace c') /\ (out = Resolved tt -> balance 0 (c_trace c') = 0%nat).
Proof.
  induction n as [|n IH]; intros c out c' HD Hb; cbn [drain] in HD.
  - destruct (queue (c_heap c)); inversion HD; subst; destruct Hb; auto.
  - destruct (queue (c_heap c)) as [|r q] eqn:Eq; [inversion HD; subst; destruct Hb; auto|].
    unfold promise_all in HD.
    destruct (run_pool fs_exec pick fuel _ _ [] _) as [o2 c2] eqn:ER.
    assert (Hlen : (length (map (build fuel) (take 4 (r :: q))) <= 4)%nat).
    { rewrite length_map, length_take. lia. }
    apply (run_pool_bound _ 4) in ER.
    + destruct ER as [Hp4 Hz].
      destruct o2 as [[]|e|]; try (inversion HD; subst; split; [exact Hp4|discriminate]).
      eapply IH; [exact HD|]. split; [exact Hp4|]. by apply Hz.
    + exact Hlen.
    + exact Hb.
    + simpl. lia.
Qed.

End Bound.

Section BoundCalls.

Context {World : Type}.
Variable fs_exec : op -> World -> resp * World.
Variable pick : nat -> nat.

Lemma buildActionsForCopy_bound fuel q seed w out c :
  buildActionsForCopy fs_exec pick fuel q seed w = (out, c) ->
  bounded_at 4 (c_trace c) 0 \/ (pending_le 4 0 (c_trace c) /\ forall a, out <> Resolved a).
Proof.
  unfold buildActionsForCopy, plan_walk. intros HB.
  destruct (drain fs_exec pick fuel fuel _) as [o1 c1] eqn:ED.
  apply drain_bound in ED.
  - destruct ED as [Hp Hz].
    destruct o1 as [[]|e|]; try (inversion HB; subst; right; split; [exact Hp|discriminate]).
    destruct (exec fs_exec _ c1) as [o2 c2] eqn:EE.
    apply (exec_bound fs_exec 4) in EE; [|lia|split; [exact Hp|by apply Hz]].
    destruct o2 as [u|e|]; inversion HB; subst.
    + left. exact EE.
    + right. split; [exact (proj1 EE)|discriminate].
    + right. split; [exact (proj1 EE)|discriminate].
  - unfold do_cmd. cbn [exec_cmd c_heap c_trace app]. split; [|reflexivity]. exact I.
Qed.

End BoundCalls.

(** ** The progress calls of the executor *)

Lemma reported_app acts pre tr1 tr2 :
  reported acts pre (tr1 ++ tr2)
  <-> reported acts pre tr1 /\ reported acts (pre ++ tr1) tr2.
Proof.
  revert pre. induction tr1 as [|e tr1 IH]; intros pre.
  - rewrite app_nil_r. simpl. tauto.
  - cbn [app reported]. rewrite IH, <- app_assoc. cbn [app]. tauto.
Qed.

Lemma reported_none acts pre tr :
  Forall (fun e => is_progress_call e = false) tr -> reported acts pre tr.
Proof.
  intros H. revert pre. induction H as [|e tr He _ IH]; intros pre; [exact I|].
  cbn [reported]. split; [|apply IH].
  destruct e as [[]| | |]; try exact I. discriminate He.
Qed.

Lemma reported_split acts tr pre d post :
  reported acts [] tr -> tr = pre ++ EvDo (CallProgress d) :: post -> completed acts d pre.
Proof. intros H ->. apply reported_app in H as [_ [H _]]. exact H. Qed.

Lemma progress_calls_app tr1 tr2 :
  progress_calls (tr1 ++ tr2) = (progress_calls tr1 + progress_calls tr2)%nat.
Proof. unfold progress_calls. by rewrite filter_app, length_app. Qed.

Lemma progress_calls_none tr :
  Forall (fun e => is_progress_call e = false) tr -> progress_calls tr = 0%nat.
Proof.
  unfold progress_calls. induction 1 as [|e tr He _ IH]; [reflexivity|].
  rewrite filter_cons_False by (rewrite He; discriminate). exact IH.
Qed.

Lemma unfinished_perm l l' : l ≡ₚ l' -> unfinished l = unfinished l'.
Proof.
  induction 1 as [|p l l' _ IH|p p' l|l l' l'' _ IH1 _ IH2]; [reflexivity| | |congruence].
  - destruct p; simpl; by rewrite IH.
  - destruct p, p'; reflexivity.
Qed.

Lemma stage_app acts tr evs p : stage acts tr p -> stage acts (tr ++ evs) p.
Proof.
  intros [H|[H|(s & d & a & m & mode & Hin & H)]]; [by left|by right; left|].
  right; right. exists s, d, a, m, mode. split; [exact Hin|].
  destruct H as [H|[[H Hs]|[H Hc]]]; [by left|right; left|right; right].
  - split; [exact H|]. by apply streamed_app.
  - split; [exact H|]. by apply copied_app.
Qed.

Lemma throw_tail {A : Type} (p p' : proc A) l :
  (forall e, p <> Throw e) -> (exists e, Throw e ∈ p :: l) -> exists e, Throw e ∈ p' :: l.
Proof.
  intros Hp [e He]. apply elem_of_cons in He as [He|He]; [by destruct (Hp e)|].
  exists e. apply elem_of_cons. by right.
Qed.

Section ProgressPool.

Variable acts : list action.
Variable N : nat.

Lemma progress_perm h tr l l' :
  l ≡ₚ l' -> progress_inv acts N h tr l -> progress_inv acts N h tr l'.
Proof.
  intros Hp (Hr & Hs & Hc). split; [exact Hr|]. split; [by rewrite <- Hp|].
  destruct Hc as [[e He]|Hc]; [left; exists e; by rewrite <- Hp|right].
  by rewrite <- (unfinished_perm _ _ Hp).
Qed.

Lemma progress_do h tr c k l :
  progress_inv acts N h tr (Do c k :: l) ->
  progress_inv acts N (fst (exec_cmd c h))
    (tr ++ EvDo c :: map EvCall (snd (exec_cmd c h))) (k :: l).
Proof.
  intros (Hr & Hs & Hc). apply Forall_cons in Hs as [Hp Hs].
  destruct Hp as [Hp|[[e Hp]|(s & d & a & m & mode & Hin & Hp)]]; try discriminate.
  destruct Hp as [Hp|[[Hp _]|[Hp Hd]]]; try discriminate.
  unfold stmt in Hp. injection Hp as -> ->.
  cbn [exec_cmd snd map].
  set (evs := [EvDo (CallProgress d); EvCall (OnProgress d)]).
  split; [|split].
  - apply reported_app. split; [exact Hr|]. cbn [app evs reported].
    split; [exists s, a, m, mode; auto|]. split; exact I.
  - constructor; [by left|]. eapply Forall_impl; [exact Hs|]. intros p. apply stage_app.
  - destruct Hc as [Hc|Hc]; [left; eapply throw_tail; [|exact Hc]; discriminate|right].
    rewrite progress_calls_app. change (progress_calls evs) with 1%nat.
    cbn [unfinished] in *. lia.
Qed.

Lemma progress_new h tr n k l :
  progress_inv acts N h tr (NewCell n k :: l) ->
  progress_inv acts N (set_cells (cells h ++ [n]) h) tr (k (length (cells h)) :: l).
Proof.
  intros (_ & Hs & _). apply Forall_cons in Hs as [Hp _].
  destruct Hp as [Hp|[[e Hp]|(s & d & a & m & mode & _ & Hp)]]; try discriminate.
  destruct Hp as [Hp|[[Hp _]|[Hp _]]]; discriminate.
Qed.

Lemma progress_call h tr o k l :
  progress_inv acts N h tr (Await o k :: l) ->
  progress_inv acts N h (tr ++ [EvAwait o]) (Await o k :: l).
Proof.
  intros (Hr & Hs & Hc). split; [|split].
  - apply reported_app. split; [exact Hr|]. by repeat split.
  - eapply Forall_impl; [exact Hs|]. intros p. apply stage_app.
  - destruct Hc as [Hc|Hc]; [by left|right].
    rewrite progress_calls_app. change (progress_calls [EvAwait o]) with 0%nat. lia.
Qed.

Lemma progress_ret h tr (u : unit) l :
  progress_inv acts N h tr (Ret u :: l) -> progress_inv acts N h tr l.
Proof.
  intros (Hr & Hs & Hc). apply Forall_cons in Hs as [_ Hs]. split; [exact Hr|].
  split; [exact Hs|]. destruct Hc as [[e He]|Hc]; [left|by right].
  apply elem_of_cons in He as [He|He]; [discriminate|eauto].
Qed.

Lemma progress_settle h tr o k r l :
  progress_inv acts N h tr (Await o k :: l) ->
  progress_inv acts N h (tr ++ [EvIO o r]) (k r :: l).
Proof.
  intros (Hr & Hs & Hc). apply Forall_cons in Hs as [Hp Hs].
  assert (Hrep : reported acts [] (tr ++ [EvIO o r]))
    by (apply reported_app; split; [exact Hr|by repeat split]).
  assert (Hrest : Forall (stage acts (tr ++ [EvIO o r])) l)
    by (eapply Forall_impl; [exact Hs|]; intros p; apply stage_app).
  assert (Hcount : progress_calls (tr ++ [EvIO o r]) = progress_calls tr)
    by (rewrite progress_calls_app; change (progress_calls [EvIO o r]) with 0%nat; lia).
  assert (Hthrow : forall e, k r = Throw e ->
            progress_inv acts N h (tr ++ [EvIO o r]) (k r :: l)).
  { intros e He. split; [exact Hrep|]. split.
    - constructor; [right; left; eauto|exact Hrest].
    - left. exists e. rewrite He. apply elem_of_cons. by left. }
  destruct Hp as [Hp|[[e Hp]|(s & d & a & m & mode & Hin & Hp)]]; try discriminate.
  destruct Hp as [Hp|[[Hp Hst]|[Hp _]]]; [| |discriminate].
  - cbn [copy_file] in Hp. unfold await_unit in Hp. cbn [bind] in Hp.
    injection Hp as -> ->.
    destruct r; try (eapply Hthrow; reflexivity).
    split; [exact Hrep|]. split.
    + constructor; [|exact Hrest]. right; right. exists s, d, a, m, mode.
      split; [exact Hin|]. right; left. split; [reflexivity|].
      exists tr, []. reflexivity.
    + destruct Hc as [Hc|Hc]; [left; eapply throw_tail; [|exact Hc]; discriminate|right].
      rewrite Hcount. cbn [unfinished bind] in *. exact Hc.
  - cbn [copy_file_rest] in Hp. unfold await_unit in Hp. cbn [bind] in Hp.
    injection Hp as -> ->.
    destruct r; try (eapply Hthrow; reflexivity).
    split; [exact Hrep|]. split.
    + constructor; [|exact Hrest]. right; right. exists s, d, a, m, mode.
      split; [exact Hin|]. right; right. split; [reflexivity|].
      destruct Hst as (t1 & t2 & ->). exists t1, t2, [].
      by rewrite <- app_assoc.
    + destruct Hc as [Hc|Hc]; [left; eapply throw_tail; [|exact Hc]; discriminate|right].
      rewrite Hcount. cbn [unfinished bind stmt] in *. exact Hc.
Qed.

End ProgressPool.

Lemma unfinished_copy_file acts :
  Forall (fun a => is_file_action a = true) acts ->
  unfinished (map copy_file acts) = length acts.
Proof.
  induction 1 as [|a acts Ha _ IH]; [reflexivity|].
  destruct a; [|discriminate]. cbn [map length]. rewrite <- IH. reflexivity.
Qed.

Lemma plan_ev_no_progress e : plan_ev e -> is_progress_call e = false.
Proof. destruct e as [[]| | |]; simpl; try reflexivity. intros []. Qed.

Lemma link_ev_no_progress e : link_ev e -> is_progress_call e = false.
Proof. destruct e as [[]| | |]; simpl; try reflexivity; intros []. Qed.

Section ProgressCalls.

Context {World : Type}.
Variable fs_exec : op -> World -> resp * World.
Variable pick : nat -> nat.

Lemma file_pool_progress fuel K acts (c : config) out c' :
  reported acts [] (c_trace c) ->
  run_pool fs_exec pick fuel K
    (map copy_file (filter (fun a => is_file_action a = true) acts)) [] c = (out, c') ->
  reported acts [] (c_trace c')
  /\ (out = Resolved tt ->
      progress_calls (c_trace c')
      = (progress_calls (c_trace c)
         + length (filter (fun a => is_file_action a = true) acts))%nat).
Proof.
  intros Hr HR.
  set (fa := filter (fun a => is_file_action a = true) acts) in *.
  set (N := (progress_calls (c_trace c) + length fa)%nat).
  eapply (run_pool_inv fs_exec pick (progress_inv acts N) (progress_perm acts N)
            (progress_do acts N) (progress_new acts N) (progress_call acts N)
            (progress_settle acts N) (progress_ret acts N)) in HR.
  - destruct HR as [Hres [l (Hrep & _)]]. split; [exact Hrep|].
    intros ->. destruct (Hres eq_refl) as (_ & _ & [[e He]|Hc]).
    + by apply elem_of_nil in He.
    + cbn [unfinished] in Hc. lia.
  - unfold InvC, residual. simpl. rewrite app_nil_r. split; [exact Hr|]. split.
    + apply Forall_map. apply Forall_forall. intros a Ha.
      apply list_elem_of_filter in Ha as [Hf Ha]. destruct a; [|discriminate].
      right; right. eexists _, _, _, _, _. split; [exact Ha|]. by left.
    + right. rewrite unfinished_copy_file; [reflexivity|].
      apply Forall_forall. intros a Ha. by apply list_elem_of_filter in Ha as [Hf _].
Qed.

End ProgressCalls.

(** ** What walk does not miss *)

Lemma lstat_calls_app tr1 tr2 :
  lstat_calls (tr1 ++ tr2) = (lstat_calls tr1 + lstat_calls tr2)%nat.
Proof. unfold lstat_calls. by rewrite filter_app, length_app. Qed.

Lemma keep_names_keeps ign names name :
  name ∈ names -> (name ∉ ignored ign) -> name ∈ keep_names ign names.
Proof.
  intros Hin Hnot. destruct ign as [l|]; simpl in *; [|exact Hin].
  apply list_elem_of_filter. split; [|exact Hin].
  unfold indexOf_lt0. by rewrite bool_decide_eq_false_2.
Qed.

Section WalkComplete.

Context {World : Type}.
Variable fs_exec : op -> World -> resp * World.

Lemma walk_loop_complete ign (rec : string -> string -> proc (list WalkFile)) dir rel :
  (forall loc relative (c : config) files c',
     exec fs_exec (rec loc relative) c = (Resolved files, c') ->
     exists tr, c_trace c' = c_trace c ++ tr /\ complete loc ign tr files) ->
  forall names acc (c : config) files c',
    exec fs_exec (walk_loop rec dir rel names acc) c = (Resolved files, c') ->
    exists tr new,
      c_trace c' = c_trace c ++ tr
      /\ files = acc ++ new
      /\ (forall name, name ∈ names ->
          exists e, e ∈ new /\ absolute e = Path.join dir name /\ basename e = name)
      /\ listed ign tr new
      /\ descended tr
      /\ length new = lstat_calls tr.
Proof.
  intros Hrec. induction names as [|n rest IH]; intros acc c files c' HE.
  - simpl in HE. inversion HE; subst. exists [], [].
    rewrite !app_nil_r. repeat split; auto.
    + intros name Hn. by apply elem_of_nil in Hn.
    + intros p names name Hn. by apply elem_of_nil in Hn.
    + intros p st Hn. by apply elem_of_nil in Hn.
  - cbn [walk_loop] in HE.
    apply exec_bind_resolved in HE as (st & c1 & Hl & HE).
    apply exec_lstat_resolved in Hl as (w1 & ->).
    set (loc := Path.join dir n) in *.
    set (e0 := mkWalkFile (relative_of rel n) n loc (st_mtime st)) in *.
    set (ev := [EvAwait (Lstat loc); EvIO (Lstat loc) (RStats st)]) in *.
    assert (Hev : lstat_calls ev = 1%nat) by reflexivity.
    destruct (isDirectory st) eqn:Ed.
    + apply exec_bind_resolved in HE as (sub & c2 & Hsub & HE).
      apply Hrec in Hsub as (tr_sub & Ht2 & (names_sub & Hroot) & Hls2 & Hds2 & Hn2).
      apply IH in HE as (tr_r & new_r & Ht3 & -> & Hnames & Hls3 & Hds3 & Hn3).
      exists (ev ++ tr_sub ++ tr_r), (e0 :: sub ++ new_r).
      split; [rewrite Ht3, Ht2; unfold settled; cbn [c_trace]; by rewrite <- !app_assoc|].
      split; [by rewrite <- !app_assoc|].
      split; [|split; [|split]].
      * intros name Hin. apply elem_of_cons in Hin as [->|Hin].
        -- exists e0. split; [apply elem_of_cons; by left|auto].
        -- destruct (Hnames name Hin) as (e & He & Ha & Hb). exists e.
           split; [|auto]. apply elem_of_cons. right. apply elem_of_app. by right.
      * intros p names name Hin Hname Hign.
        rewrite !elem_of_app in Hin. destruct Hin as [Hin|[Hin|Hin]].
        -- subst ev. rewrite !elem_of_cons in Hin.
           destruct Hin as [Hin|[Hin|Hin]]; [discriminate|discriminate|].
           by apply elem_of_nil in Hin.
        -- destruct (Hls2 p names name Hin Hname Hign) as (e & He & Ha & Hb). exists e.
           split; [|auto]. apply elem_of_cons. right. apply elem_of_app. by left.
        -- destruct (Hls3 p names name Hin Hname Hign) as (e & He & Ha & Hb). exists e.
           split; [|auto]. apply elem_of_cons. right. apply elem_of_app. by right.
      * intros p s Hin Hdir.
        rewrite !elem_of_app in Hin. destruct Hin as [Hin|[Hin|Hin]].
        -- subst ev. rewrite !elem_of_cons in Hin.
           destruct Hin as [Hin|[Hin|Hin]]; [discriminate| |by apply elem_of_nil in Hin].
           injection Hin as -> ->. exists names_sub.
           rewrite !elem_of_app. right; left. exact Hroot.
        -- destruct (Hds2 p s Hin Hdir) as [l Hl]. exists l.
           rewrite !elem_of_app. right; left. exact Hl.
        -- destruct (Hds3 p s Hin Hdir) as [l Hl]. exists l.
           rewrite !elem_of_app. right; right. exact Hl.
      * rewrite !lstat_calls_app, Hev. cbn [length]. rewrite length_app. lia.
    + apply IH in HE as (tr_r & new_r & Ht3 & -> & Hnames & Hls3 & Hds3 & Hn3).
      exists (ev ++ tr_r), (e0 :: new_r).
      split; [rewrite Ht3; unfold settled; cbn [c_trace]; by rewrite <- !app_assoc|].
      split; [by rewrite <- !app_assoc|].
      split; [|split; [|split]].
      * intros name Hin. apply elem_of_cons in Hin as [->|Hin].
        -- exists e0. split; [apply elem_of_cons; by left|auto].
        -- destruct (Hnames name Hin) as (e & He & Ha & Hb). exists e.
           split; [|auto]. apply elem_of_cons. by right.
      * intros p names name Hin Hname Hign.
        rewrite !elem_of_app in Hin. destruct Hin as [Hin|Hin].
        -- subst ev. rewrite !elem_of_cons in Hin.
           destruct Hin as [Hin|[Hin|Hin]]; [discriminate|discriminate|].
           by apply elem_of_nil in Hin.
        -- destruct (Hls3 p names name Hin Hname Hign) as (e & He & Ha & Hb). exists e.
           split; [|auto]. apply elem_of_cons. by right.
      * intros p s Hin Hdir.
        rewrite !elem_of_app in Hin. destruct Hin as [Hin|Hin].
        -- subst ev. rewrite !elem_of_cons in Hin.
           destruct Hin as [Hin|[Hin|Hin]]; [discriminate| |by apply elem_of_nil in Hin].
           injection Hin as -> ->. congruence.
        -- destruct (Hds3 p s Hin Hdir) as [l Hl]. exists l.
           rewrite !elem_of_app. by right.
      * rewrite !lstat_calls_app, Hev. cbn [length]. lia.
Qed.

End WalkComplete.

(** ** Whole calls of copyBulk on one request *)

Section OneRequest.

Context {World : Type}.
Variable fs_exec : op -> World -> resp * World.
Variable pick : nat -> nat.

(** The walk of a queue of one request is the run of its [build], as long
    as [build] leaves the queue empty. *)
Lemma plan_walk_one fuel data seed (w : World) out c' :
  let c1 := mkConfig (set_queue [] (initial_heap [data] seed)) w (start_events 1) in
  (1 <= fuel)%nat ->
  (awaits_along fs_exec (build fuel (top_item data)) c1 <= fuel)%nat ->
  exec fs_exec (build fuel (top_item data)) c1 = (out, c') ->
  queue (c_heap c') = [] ->
  plan_walk fs_exec pick fuel [data] seed w = (out, c').
Proof.
  intros c1 Hfuel Hn HB Hq. unfold plan_walk.
  destruct fuel as [|fuel]; [lia|].
  change (do_cmd (CallStart (Z.of_nat (length [data])))
            (mkConfig (initial_heap [data] seed) w []))
    with (mkConfig (initial_heap [data] seed) w (start_events 1)).
  cbn [drain initial_heap initialise_events map queue c_heap take drop c_world c_trace].
  fold (top_item data). unfold promise_all. cbn [length map].
  change (mkConfig (set_queue [] _) w (start_events 1)) with c1.
  rewrite (run_pool_single fs_exec pick 1 _ (S fuel) c1) by (exact Hn || lia).
  rewrite HB. destruct out as [[]|e|]; try reflexivity.
  by apply drain_empty.
Qed.

Lemma awaits_of_run {A : Type} (p : proc A) (c : config) out c' tr :
  exec fs_exec p c = (out, c') -> c_trace c' = c_trace c ++ tr ->
  awaits_along fs_exec p c = awaits_in tr.
Proof.
  intros HE Ht. pose proof (exec_awaits fs_exec p c) as HA.
  rewrite HE in HA. cbn [snd] in HA. rewrite Ht, awaits_in_app in HA. lia.
Qed.

(** Lines 106-111, the lstat of the source failing. *)
Lemma build_missing_source fuel data (c : config) code w' :
  fs_exec (Lstat (src data)) (c_world c) = (RErr code, w') ->
  exec fs_exec (build (S fuel) data) c
  = (Rejected (FsError code),
     after_script (dest data) [(Lstat (src data), RErr code)] w' c).
Proof.
  intros H. cbn [build]. rewrite exec_bind, exec_stmt, exec_mark_seen, exec_bind.
  unfold lstat. rewrite (exec_await_stats_err fs_exec _ _ code w') by exact H.
  by rewrite settled_script.
Qed.

(** Lines 106-117 and 205-215 for a regular file with nothing at the
    destination. *)
Lemma build_new_file fuel data (c : config) s w' :
  isFile s = true ->
  settles fs_exec (c_world c)
    [(Lstat (src data), RStats s); (Exists (dest data), RBool false)] w' ->
  exec fs_exec (build (S fuel) data) c
  = (Resolved tt,
     do_cmd (CallDone (onDone data))
       (do_cmd (ActionsPush (FileAction (src data) (dest data) (st_atime s) (st_mtime s)
                               (st_mode s)))
          (do_cmd (CallFresh (onFresh data))
             (after_script (dest data)
                [(Lstat (src data), RStats s); (Exists (dest data), RBool false)] w' c)))).
Proof.
  intros Hs (w1 & H1 & w2 & H2 & ->).
  cbn [build]. rewrite exec_bind, exec_stmt, exec_mark_seen.
  rewrite exec_bind, (exec_lstat fs_exec _ _ s w1) by exact H1.
  rewrite settled_script.
  rewrite (kind_file_not_directory s Hs). rewrite exec_bind. cbn [exec].
  rewrite exec_bind, (exec_exists fs_exec _ _ false w2) by exact H2.
  rewrite settled_script. cbn [app].
  apply exec_copy_entry_regular. exact Hs.
Qed.

(** Lines 240-261 for one file action, both primitives succeeding. *)
Lemma exec_copy_file from into atime mtime mode (c : config) w' :
  settles fs_exec (c_world c)
    [(StreamCopy from into mode, RUnit); (Utimes into atime mtime, RUnit)] w' ->
  exec fs_exec (copy_file (FileAction from into atime mtime mode)) c
  = (Resolved tt,
     mkConfig (c_heap c) w'
       (c_trace c
        ++ script_events [(StreamCopy from into mode, RUnit); (Utimes into atime mtime, RUnit)]
        ++ [EvDo (CallProgress into); EvCall (OnProgress into)])).
Proof.
  intros (w1 & H1 & w2 & H2 & ->). cbn [copy_file].
  rewrite exec_bind, (exec_await_unit fs_exec _ _ w1) by exact H1.
  rewrite exec_bind, (exec_await_unit fs_exec _ _ w2) by exact H2.
  rewrite exec_stmt. unfold do_cmd, settled.
  cbn [exec_cmd c_heap c_world c_trace script_events flat_map fst snd app map].
  by rewrite <- !app_assoc.
Qed.

End OneRequest.

(** X1. The loop of lines 181-185 joins back the destination itself first,
    and then each of its ancestors: a path is among the prefixes the loop
    adds to the seen set exactly when it is the destination or the
    destination is that path, a separator and a remainder; there is one
    prefix for each part of the destination. *)
Theorem X1_dest_prefixes_are_the_ancestors (dest : string) :
  (exists rest, dest_prefixes dest = dest :: rest)
  /\ length (dest_prefixes dest) = length (Path.split dest)
  /\ forall d, d ∈ dest_prefixes dest <-> d = dest \/ exists tail, dest = Path.join d tail.
Proof.
  split; [|split].
  - unfold dest_prefixes. pose proof (split_not_nil dest) as Hd.
    destruct (Path.split dest) as [|p ps] eqn:E; [congruence|].
    cbn [length pop_all]. rewrite <- E, join_parts_split. eauto.
  - unfold dest_prefixes. rewrite pop_all_takes by reflexivity.
    by rewrite length_map, length_rev, length_seq.
  - intros d. apply elem_of_dest_prefixes.
Qed.

(** X2. find, over a file system that nothing else writes to: it probes
    path.join(d, filename) for d the directory and then each of its
    ancestors, nearest first, stops at the first probe that exists and
    returns that path; it returns false when none exists. *)
Theorem X2_find_returns_the_nearest_existing {World : Type}
    (fs_exec : op -> World -> resp * World) (ex : string -> bool)
    (filename dir : string) (c : config) :
  (forall p, fs_exec (Exists p) (c_world c) = (RBool (ex p), c_world c)) ->
  exec fs_exec (find filename dir) c
  = (Resolved (List.find ex (find_candidates filename dir)),
     mkConfig (c_heap c) (c_world c)
       (c_trace c ++ script_events (probes ex (upto ex (find_candidates filename dir))))).
Proof.
  intros Hex. destruct c as [h w tr]. unfold find, find_candidates, dest_prefixes.
  apply (find_loop_static fs_exec ex w filename Hex).
Qed.

Lemma X2_witness :
  exec Sim.fs_exec (find "package.json" "a/b/c") (mkConfig (initial_heap [] None) X2_tree [])
  = (Resolved (Some "a/package.json"),
     mkConfig (initial_heap [] None) X2_tree
       [EvAwait (Exists "a/b/c/package.json"); EvIO (Exists "a/b/c/package.json") (RBool false);
        EvAwait (Exists "a/b/package.json"); EvIO (Exists "a/b/package.json") (RBool false);
        EvAwait (Exists "a/package.json"); EvIO (Exists "a/package.json") (RBool true)]).
Proof.
  etransitivity.
  - apply (X2_find_returns_the_nearest_existing Sim.fs_exec
             (fun p => bool_decide (is_Some (Sim.lookup p X2_tree)))
             "package.json" "a/b/c" (mkConfig (initial_heap [] None) X2_tree [])).
    intros p. reflexivity.
  - vm_compute. reflexivity.
Defined.

Lemma script_zip_one o os r : script_events (zip (o :: os) [r]) = [EvAwait o; EvIO o r].
Proof. destruct os; reflexivity. Qed.

Section FindRun.

Context {World : Type}.
Variable fs_exec : op -> World -> resp * World.

Lemma find_loop_run filename : forall n parts (c : config) out c',
  exec fs_exec (find_loop n filename parts) c = (out, c') ->
  let cands := map (fun d => Path.join d filename) (pop_all n parts) in
  c_heap c' = c_heap c
  /\ exists rs,
       c_trace c' = c_trace c ++ script_events (zip (map Exists cands) rs)
       /\ match out with
          | Resolved (Some loc) =>
              exists k, rs = replicate k (RBool false) ++ [RBool true] /\ cands !! k = Some loc
          | Resolved None => rs = replicate (length cands) (RBool false)
          | Rejected e =>
              exists k r, rs = replicate k (RBool false) ++ [r] /\ (k < length cands)%nat
                          /\ forall b, r <> RBool b
          | OutOfFuel => False
          end.
Proof.
  induction n as [|n IH]; intros parts c out c' HE.
  - simpl in HE. inversion HE; subst. split; [reflexivity|]. exists []. simpl.
    by rewrite app_nil_r.
  - destruct parts as [|p ps].
    { simpl in HE. inversion HE; subst. split; [reflexivity|]. exists []. simpl.
      by rewrite app_nil_r. }
    cbn [find_loop pop_all map] in *.
    rewrite <- (join_parts_snoc (p :: ps) filename) by discriminate.
    set (loc := Path.join_parts ((p :: ps) ++ [filename])) in *.
    unfold exists_, await_bool in HE. cbn [bind exec] in HE. unfold settle in HE.
    cbn [c_world c_heap c_trace] in HE.
    destruct (fs_exec (Exists loc) (c_world c)) as [r w1].
    destruct r as [code| |[|]| | |]; cbn [bind exec] in HE;
      try (inversion HE; subst; split; [reflexivity|];
           eexists [_]; split;
           [cbn [map c_trace]; rewrite script_zip_one, <- app_assoc; reflexivity
           |exists 0%nat; eexists; split; [reflexivity|split; [cbn [length]; lia|discriminate]]]).
    + inversion HE; subst. split; [reflexivity|].
      exists [RBool true]. split.
      * cbn [map c_trace]. rewrite script_zip_one, <- app_assoc. reflexivity.
      * exists 0%nat. split; reflexivity.
    + apply IH in HE. cbv zeta in HE. cbn [c_heap c_trace] in HE.
      destruct HE as (Hh & rs & Ht & Hout). split; [exact Hh|].
      exists (RBool false :: rs). split.
      * rewrite Ht. cbn [zip zip_with map script_events flat_map fst snd app].
        by rewrite <- !app_assoc.
      * destruct out as [[loc'|]|e|].
        -- destruct Hout as (k & -> & Hk). exists (S k). split; [reflexivity|exact Hk].
        -- rewrite Hout. reflexivity.
        -- destruct Hout as (k & r & -> & Hk & Hr). exists (S k), r.
           split; [reflexivity|split; [cbn [length]; lia|exact Hr]].
        -- exact Hout.
Qed.

End FindRun.

(** X3. find, over any file system: the probes are made one after the
    other in the order of the candidates, each after the one before it
    settled to false; find returns a path only when the probe of that
    very path settled to true, returns false only when every candidate was
    probed and settled to false, and always returns. *)
Theorem X3_find_probes_in_order {World : Type}
    (fs_exec : op -> World -> resp * World)
    (filename dir : string) (c : config) (out : outcome (option string)) (c' : config) :
  exec fs_exec (find filename dir) c = (out, c') ->
  let cands := find_candidates filename dir in
  exists rs,
    c_trace c' = c_trace c ++ script_events (zip (map Exists cands) rs)
    /\ match out with
       | Resolved (Some loc) =>
           exists k, rs = replicate k (RBool false) ++ [RBool true] /\ cands !! k = Some loc
       | Resolved None => rs = replicate (length cands) (RBool false)
       | Rejected e =>
           exists k r, rs = replicate k (RBool false) ++ [r] /\ (k < length cands)%nat
                       /\ forall b, r <> RBool b
       | OutOfFuel => False
       end.
Proof.
  intros HE. unfold find in HE. apply find_loop_run in HE. exact (proj2 HE).
Qed.

Lemma X3_witness :
  exists rs,
    [EvAwait (Exists "a/b/c/package.json"); EvIO (Exists "a/b/c/package.json") (RBool false);
     EvAwait (Exists "a/b/package.json"); EvIO (Exists "a/b/package.json") (RBool false);
     EvAwait (Exists "a/package.json"); EvIO (Exists "a/package.json") (RBool true)]
    = [] ++ script_events (zip (map Exists (find_candidates "package.json" "a/b/c")) rs)
    /\ exists k, rs = replicate k (RBool false) ++ [RBool true]
                 /\ find_candidates "package.json" "a/b/c" !! k = Some "a/package.json".
Proof.
  apply (X3_find_probes_in_order Sim.fs_exec "package.json" "a/b/c"
           (mkConfig (initial_heap [] None) X2_tree []) (Resolved (Some "a/package.json"))
           (mkConfig (initial_heap [] None) X2_tree
              [EvAwait (Exists "a/b/c/package.json");
               EvIO (Exists "a/b/c/package.json") (RBool false);
               EvAwait (Exists "a/b/package.json"); EvIO (Exists "a/b/package.json") (RBool false);
               EvAwait (Exists "a/package.json"); EvIO (Exists "a/package.json") (RBool true)])).
  vm_compute. reflexivity.
Defined.







Lemma kind_link_not_directory s : isSymbolicLink s = true -> isDirectory s = false.
Proof.
  unfold isSymbolicLink, isDirectory. intros H. apply Z.eqb_eq in H. rewrite H. reflexivity.
Qed.

Lemma kind_link_not_file s : isSymbolicLink s = true -> isFile s = false.
Proof.
  unfold isSymbolicLink, isFile. intros H. apply Z.eqb_eq in H. rewrite H. reflexivity.
Qed.

Lemma kind_directory_not_file s : isDirectory s = true -> isFile s = false.
Proof.
  unfold isDirectory, isFile. intros H. apply Z.eqb_eq in H. rewrite H. reflexivity.
Qed.

Lemma kind_directory_not_link s : isDirectory s = true -> isSymbolicLink s = false.
Proof.
  unfold isDirectory, isSymbolicLink. intros H. apply Z.eqb_eq in H. rewrite H. reflexivity.
Qed.

(** X7. A symbolic link whose destination is missing is planned as a link:
    [build] calls onFresh, reads the target of the source with readlink,
    pushes one symlink action for the destination with that target, and
    calls onDone; the link itself is not created during planning. *)
Theorem X7_new_symlink_is_planned {World : Type}
    (fs_exec : op -> World -> resp * World)
    (fuel : nat) (data : request) (c : config) (s : Stats) (linkname : string)
    (w1 w' : World) :
  let script := [(Lstat (src data), RStats s); (Exists (dest data), RBool false)] in
  isSymbolicLink s = true ->
  settles fs_exec (c_world c) script w1 ->
  fs_exec (Readlink (src data)) w1 = (RString linkname, w') ->
  exec fs_exec (build (S fuel) data) c
  = (Resolved tt,
     do_cmd (CallDone (onDone data))
       (do_cmd (ActionsPush (SymlinkAction (dest data) linkname))
          (settled (Readlink (src data)) (RString linkname) w'
             (do_cmd (CallFresh (onFresh data)) (after_script (dest data) script w1 c))))).
Proof.
  intros script Hs Hrun Hlink. subst script. cbn [settles] in Hrun.
  destruct Hrun as (wa & Ha & wb & Hb & ->).
  cbn [build]. rewrite exec_bind, exec_stmt, exec_mark_seen.
  rewrite exec_bind, (exec_lstat fs_exec _ _ s wa) by exact Ha.
  rewrite settled_script.
  rewrite (kind_link_not_directory s Hs). rewrite exec_bind. cbn [exec].
  rewrite exec_bind, (exec_exists fs_exec _ _ false wb) by exact Hb.
  rewrite settled_script. cbn [app].
  apply exec_copy_entry_link; assumption.
Qed.

Lemma X7_witness :
  exec Sim.fs_exec (build 1 (Ex.top "s/l" "d/l")) X7_start
  = (Resolved tt,
     mkConfig
       (mkHeap [] [] {["d/l"]} [SymlinkAction "d/l" "a"] [])
       Ex.file_and_link
       [EvDo (FilesAdd "d/l");
        EvAwait (Lstat "s/l"); EvIO (Lstat "s/l") (RStats (mkStats 41471 0 0 0));
        EvAwait (Exists "d/l"); EvIO (Exists "d/l") (RBool false);
        EvDo (CallFresh (Some 1%nat)); EvCall (OnFresh 1);
        EvAwait (Readlink "s/l"); EvIO (Readlink "s/l") (RString "a");
        EvDo (ActionsPush (SymlinkAction "d/l" "a"));
        EvDo (CallDone (DoneCaller 7)); EvCall (OnDoneCaller 7)]).
Proof.
  etransitivity.
  - apply (X7_new_symlink_is_planned Sim.fs_exec 0 (Ex.top "s/l" "d/l") X7_start
             (mkStats 41471 0 0 0) "a" Ex.file_and_link Ex.file_and_link).
    + reflexivity.
    + repeat (eexists; split; [reflexivity|]). reflexivity.
    + reflexivity.
  - vm_compute. reflexivity.
Defined.

(** X8. Source and destination are both symbolic links of the same mode:
    [build] reads both targets.  When they are the same string the request
    is skipped: onDone is called and nothing is pushed.  When they differ
    [build] plans the link like a new one (it reads the source's target a
    second time for the action) and calls neither unlink nor any other
    primitive on the destination: the old link is still in place when the
    action is carried out. *)
Theorem X8_existing_symlink_is_compared_by_target {World : Type}
    (fs_exec : op -> World -> resp * World)
    (fuel : nat) (data : request) (c : config) (s d : Stats) (a b : string) (w1 : World) :
  let script :=
    [(Lstat (src data), RStats s); (Exists (dest data), RBool true);
     (Lstat (dest data), RStats d);
     (Readlink (src data), RString a); (Readlink (dest data), RString b)] in
  isSymbolicLink s = true ->
  st_mode d = st_mode s ->
  settles fs_exec (c_world c) script w1 ->
  (a = b ->
   exec fs_exec (build (S fuel) data) c
   = (Resolved tt, do_cmd (CallDone (onDone data)) (after_script (dest data) script w1 c)))
  /\ (a <> b ->
      forall linkname w',
        fs_exec (Readlink (src data)) w1 = (RString linkname, w') ->
        exec fs_exec (build (S fuel) data) c
        = (Resolved tt,
           do_cmd (CallDone (onDone data))
             (do_cmd (ActionsPush (SymlinkAction (dest data) linkname))
                (settled (Readlink (src data)) (RString linkname) w'
                   (do_cmd (CallFresh (onFresh data))
                      (after_script (dest data) script w1 c)))))).
Proof.
  intros script Hs Hmode Hrun. subst script. cbn [settles] in Hrun.
  destruct Hrun as (wa & Ha & wb & Hb & wc & Hc & wd & Hd & we & He & ->).
  assert (Hd' : isSymbolicLink d = true).
  { unfold isSymbolicLink in *. by rewrite Hmode. }
  assert (Hstart : exec fs_exec (build (S fuel) data) c
    = exec fs_exec
        (if String.eqb a b then stmt (CallDone (onDone data))
         else copy_entry data s None)
        (after_script (dest data)
           [(Lstat (src data), RStats s); (Exists (dest data), RBool true);
            (Lstat (dest data), RStats d);
            (Readlink (src data), RString a); (Readlink (dest data), RString b)] we c)).
  { cbn [build]. rewrite exec_bind, exec_stmt, exec_mark_seen.
    rewrite exec_bind, (exec_lstat fs_exec _ _ s wa) by exact Ha.
    rewrite settled_script.
    rewrite (kind_link_not_directory s Hs). rewrite exec_bind. cbn [exec].
    rewrite exec_bind, (exec_exists fs_exec _ _ true wb) by exact Hb.
    rewrite settled_script.
    rewrite exec_bind, (exec_lstat fs_exec _ _ d wc) by exact Hc.
    rewrite settled_script. cbn [app].
    rewrite Hmode, Z.eqb_refl. cbn [negb].
    rewrite (kind_link_not_file s Hs), Hs, Hd'.
    cbn [andb negb].
    rewrite exec_bind, exec_bind.
    rewrite (exec_readlink fs_exec _ _ a wd) by exact Hd.
    rewrite settled_script.
    rewrite exec_bind, (exec_readlink fs_exec _ _ b we) by exact He.
    rewrite settled_script. cbn [app exec].
    destruct (String.eqb a b); [reflexivity|].
    rewrite exec_bind. cbn [exec]. reflexivity. }
  split.
  - intros ->. rewrite Hstart, String.eqb_refl. apply exec_stmt.
  - intros Hne linkname w' Hl. rewrite Hstart.
    apply String.eqb_neq in Hne. rewrite Hne.
    apply exec_copy_entry_link; assumption.
Qed.

Lemma X8_witness :
  exec Sim.fs_exec (build 1 (Ex.top "s/l" "d/l")) X8_start
  = (Resolved tt,
     mkConfig (mkHeap [] [] {["d/l"]} [SymlinkAction "d/l" "new"] []) X8_tree
       [EvDo (FilesAdd "d/l");
        EvAwait (Lstat "s/l"); EvIO (Lstat "s/l") (RStats (mkStats 41471 0 0 0));
        EvAwait (Exists "d/l"); EvIO (Exists "d/l") (RBool true);
        EvAwait (Lstat "d/l"); EvIO (Lstat "d/l") (RStats (mkStats 41471 0 0 0));
        EvAwait (Readlink "s/l"); EvIO (Readlink "s/l") (RString "new");
        EvAwait (Readlink "d/l"); EvIO (Readlink "d/l") (RString "old");
        EvDo (CallFresh (Some 1%nat)); EvCall (OnFresh 1);
        EvAwait (Readlink "s/l"); EvIO (Readlink "s/l") (RString "new");
        EvDo (ActionsPush (SymlinkAction "d/l" "new"));
        EvDo (CallDone (DoneCaller 7)); EvCall (OnDoneCaller 7)]).
Proof.
  etransitivity.
  - apply (proj2 (X8_existing_symlink_is_compared_by_target Sim.fs_exec 0
                    (Ex.top "s/l" "d/l") X8_start (mkStats 41471 0 0 0) (mkStats 41471 0 0 0)
                    "new" "old" X8_tree eq_refl eq_refl
                    ltac:(repeat (eexists; split; [reflexivity|]); reflexivity))
             ltac:(discriminate) "new" X8_tree).
    reflexivity.
  - vm_compute. reflexivity.
Defined.

(** The executor then meets the old link: fs.symlink fails with EEXIST on
    the file system of the examples, and the whole copy is rejected. *)
Lemma changed_symlink_end_to_end :
  fst (copyBulk Sim.fs_exec Sim.fifo 20 [Ex.top "s" "d"] None X8_tree)
  = Rejected (FsError "EEXIST").
Proof. vm_compute. reflexivity. Qed.

Section BuildUnknown.

Context {World : Type}.
Variable fs_exec : op -> World -> resp * World.

(** Lines 216-218, run. *)
Lemma exec_copy_entry_unknown data s srcFiles (c : config) :
  unknown_kind s ->
  exec fs_exec (copy_entry data s srcFiles) c
  = (Rejected (JsError ("unsure how to copy this: " +:+ src data)), c).
Proof. intros (Hl & Hd & Hf). unfold copy_entry. rewrite Hl, Hd, Hf. reflexivity. Qed.

End BuildUnknown.

(** X9. A source that is neither a symbolic link, a directory nor a regular
    file (a socket, a FIFO, a device) makes [build] throw the error "unsure
    how to copy this: " followed by the source path, with no action pushed
    and onDone not called.  When the destination exists with another mode
    the destination has been deleted by then: [build] unlinks it and starts
    again before it finds that it cannot copy the source. *)
Theorem X9_unknown_kind_is_rejected {World : Type}
    (fs_exec : op -> World -> resp * World)
    (fuel : nat) (data : request) (c : config) (s : Stats) :
  let failure := Rejected (JsError ("unsure how to copy this: " +:+ src data)) in
  let absent := [(Lstat (src data), RStats s); (Exists (dest data), RBool false)] in
  unknown_kind s ->
  (forall w1,
     settles fs_exec (c_world c) absent w1 ->
     exec fs_exec (build (S fuel) data) c = (failure, after_script (dest data) absent w1 c))
  /\ (forall d w1 w2 w3,
        let present := [(Lstat (src data), RStats s); (Exists (dest data), RBool true);
                        (Lstat (dest data), RStats d)] in
        st_mode s <> st_mode d ->
        settles fs_exec (c_world c) present w1 ->
        fs_exec (Unlink (dest data)) w1 = (RUnit, w2) ->
        settles fs_exec w2 absent w3 ->
        exec fs_exec (build (S (S fuel)) data) c
        = (failure,
           after_script (dest data) absent w3
             (settled (Unlink (dest data)) RUnit w2
                (do_cmd (ExtraneousDelete (dest data))
                   (after_script (dest data) present w1 c))))).
Proof.
  intros failure absent Hk.
  assert (Habsent : forall fuel' (c0 : config) w1,
            settles fs_exec (c_world c0) absent w1 ->
            exec fs_exec (build (S fuel') data) c0
            = (failure, after_script (dest data) absent w1 c0)).
  { intros fuel' c0 w1 Hrun. subst absent. cbn [settles] in Hrun.
    destruct Hrun as (wa & Ha & wb & Hb & ->).
    destruct Hk as (Hl & Hd & Hf).
    cbn [build]. rewrite exec_bind, exec_stmt, exec_mark_seen.
    rewrite exec_bind, (exec_lstat fs_exec _ _ s wa) by exact Ha.
    rewrite settled_script. rewrite Hd. rewrite exec_bind. cbn [exec].
    rewrite exec_bind, (exec_exists fs_exec _ _ false wb) by exact Hb.
    rewrite settled_script. cbn [app].
    apply exec_copy_entry_unknown. repeat split; assumption. }
  split; [apply Habsent|].
  intros d w1 w2 w3 present Hmode Hrun Hunlink Hrun2.
  subst present. cbn [settles] in Hrun.
  destruct Hrun as (wa & Ha & wb & Hb & wc & Hc & ->).
  pose proof Hk as (Hl & Hd & Hf).
  set (again := build (S fuel) data).
  cbn [build]. fold again. rewrite exec_bind, exec_stmt, exec_mark_seen.
  rewrite exec_bind, (exec_lstat fs_exec _ _ s wa) by exact Ha.
  rewrite settled_script. rewrite Hd. rewrite exec_bind. cbn [exec].
  rewrite exec_bind, (exec_exists fs_exec _ _ true wb) by exact Hb.
  rewrite settled_script.
  rewrite exec_bind, (exec_lstat fs_exec _ _ d wc) by exact Hc.
  rewrite settled_script. cbn [app].
  apply Z.eqb_neq in Hmode. rewrite Hmode, Hf. cbn [negb andb].
  rewrite exec_bind, exec_stmt, exec_bind. unfold unlink.
  rewrite (exec_await_unit fs_exec _ _ w2) by exact Hunlink.
  subst again. apply Habsent. exact Hrun2.
Qed.

Lemma X9_witness :
  fst (exec Sim.fs_exec (build 2 (Ex.top "s/p" "d/p")) X9_start)
  = Rejected (JsError "unsure how to copy this: s/p")
  /\ Sim.lookup "d/p" (c_world (snd (exec Sim.fs_exec (build 2 (Ex.top "s/p" "d/p")) X9_start)))
     = None.
Proof.
  pose proof (proj2 (X9_unknown_kind_is_rejected Sim.fs_exec 0 (Ex.top "s/p" "d/p") X9_start
                       (mkStats 4516 0 0 0)
                       ltac:(repeat split; reflexivity))
                (mkStats 33188 2 0 7) X9_tree
                [("s", Ex.dir); ("s/p", Sim.File (mkStats 4516 0 0 0) EmptyString); ("d", Ex.dir)]
                [("s", Ex.dir); ("s/p", Sim.File (mkStats 4516 0 0 0) EmptyString); ("d", Ex.dir)])
    as H.
  cbv zeta in H. rewrite H.
  - split; reflexivity.
  - discriminate.
  - repeat (eexists; split; [reflexivity|]). reflexivity.
  - reflexivity.
  - repeat (eexists; split; [reflexivity|]). reflexivity.
Defined.

Section BuildDirectory.

Context {World : Type}.
Variable fs_exec : op -> World -> resp * World.

Lemma exec_for_each_stmt {A : Type} (f : A -> cmd) (l : list A) : forall (c : config),
  exec fs_exec (for_each l (fun x => stmt (f x))) c = (Resolved tt, do_all f l c).
Proof.
  induction l as [|x l IH]; intros c; [reflexivity|].
  cbn [for_each]. rewrite exec_bind, exec_stmt. apply IH.
Qed.

Lemma do_all_files (l : list string) : forall (c : @config World),
  c_heap (do_all FilesAdd l c) = set_files (list_to_set l ∪ files (c_heap c)) (c_heap c)
  /\ c_world (do_all FilesAdd l c) = c_world c
  /\ c_trace (do_all FilesAdd l c) = c_trace c ++ map (fun p => EvDo (FilesAdd p)) l.
Proof.
  induction l as [|p l IH]; intros c.
  - cbn. rewrite app_nil_r. split; [|auto]. destruct c as [[] ? ?]. cbn. f_equal.
    unfold set_files. cbn. f_equal. by rewrite (left_id_L ∅ (∪)).
  - change (do_all FilesAdd (p :: l) c) with (do_all FilesAdd l (do_cmd (FilesAdd p) c)).
    destruct (IH (do_cmd (FilesAdd p) c)) as (Hh & Hw & Ht).
    rewrite Hh, Hw, Ht. unfold do_cmd. cbn. split; [|split; [reflexivity|]].
    + unfold set_files. cbn. f_equal. rewrite (assoc_L (∪)).
      f_equal. apply (comm_L (∪)).
    + by rewrite <- app_assoc.
Qed.

Lemma do_all_queue {A : Type} (f : A -> request) (l : list A) : forall (c : @config World),
  c_heap (do_all (fun x => QueuePush (f x)) l c)
  = set_queue (queue (c_heap c) ++ map f l) (c_heap c)
  /\ c_world (do_all (fun x => QueuePush (f x)) l c) = c_world c
  /\ c_trace (do_all (fun x => QueuePush (f x)) l c)
     = c_trace c ++ map (fun x => EvDo (QueuePush (f x))) l.
Proof.
  induction l as [|x l IH]; intros c.
  - cbn. rewrite !app_nil_r. split; [|auto]. by destruct c as [[] ? ?].
  - change (do_all (fun x => QueuePush (f x)) (x :: l) c)
      with (do_all (fun x => QueuePush (f x)) l (do_cmd (QueuePush (f x)) c)).
    destruct (IH (do_cmd (QueuePush (f x)) c)) as (Hh & Hw & Ht).
    rewrite Hh, Hw, Ht. unfold do_cmd. cbn. split; [|split; [reflexivity|]].
    + unfold set_queue. cbn. by rewrite <- app_assoc.
    + by rewrite <- app_assoc.
Qed.

(** Lines 178-204, run. *)
Lemma exec_copy_entry_directory data s names (c : config) w' :
  isDirectory s = true ->
  fs_exec (Mkdirp (dest data)) (c_world c) = (RUnit, w') ->
  exec fs_exec (copy_entry data s (Some names)) c
  = (Resolved tt,
     let c2 := do_all FilesAdd (dest_prefixes (dest data))
                 (settled (Mkdirp (dest data)) RUnit w' c) in
     let c3 := new_cell (Z.of_nat (length names)) c2 in
     let c4 := if Z.of_nat (length names) =? 0
               then do_cmd (CallDone (onDone data)) c3 else c3 in
     do_all (fun file =>
               QueuePush (child_request data (length (cells (c_heap c2))) file))
       names c4).
Proof.
  intros Hs Hm. unfold copy_entry. rewrite (kind_directory_not_link s Hs), Hs.
  rewrite exec_bind. unfold mkdirp. rewrite (exec_await_unit fs_exec _ _ w') by exact Hm.
  rewrite exec_bind, exec_for_each_stmt.
  rewrite exec_bind. cbn [invariant exec]. cbv zeta.
  rewrite exec_bind.
  destruct (Z.of_nat (length names) =? 0).
  - rewrite exec_stmt. apply (exec_for_each_stmt (fun file => QueuePush _)).
  - cbn [exec]. apply (exec_for_each_stmt (fun file => QueuePush _)).
Qed.

End BuildDirectory.

Ltac split_or H :=
  match type of H with
  | _ \/ _ => destruct H as [H|H]; split_or H
  | _ => idtac
  end.



Lemma guarded_for_each_in {A : Type} Qc Qo (l : list A) (body : A -> proc unit) :
  (forall x, x ∈ l -> guarded Qc Qo (body x)) -> guarded Qc Qo (for_each l body).
Proof.
  induction l as [|x l IH]; intros Hb; simpl; auto.
  apply guarded_bind; [apply Hb; left|intros _; apply IH; intros y Hy; apply Hb; by right].
Qed.

Lemma scan_dest_marks dest srcFiles destFiles :
  guarded (marks_only (stale_mark dest srcFiles destFiles)) (fun _ => True)
    (scan_dest dest srcFiles destFiles).
Proof.
  unfold scan_dest. apply guarded_for_each_in. intros file Hfile.
  unfold indexOf_lt0. case_bool_decide as Hin; cbn [negb]; [exact I|].
  unfold lstat, readdir. guard_step; simpl; auto.
  - exists file. auto.
  - exists file. eauto.
Qed.

Lemma copy_entry_marks P data s srcFiles :
  guarded (marks_only P) (fun _ => True) (copy_entry data s srcFiles).
Proof.
  unfold copy_entry, readlink, mkdirp.
  destruct (isSymbolicLink s); [guard_step; simpl; auto|].
  destruct (isDirectory s); [|guard_step; simpl; auto].
  guard_step; simpl; auto.
  intros i. guard_step; simpl; auto.
Qed.

Section BuildStale.

Context {World : Type}.
Variable fs_exec : op -> World -> resp * World.

Lemma exec_trace_grows {A : Type} (p : proc A) : forall (c : config) out c',
  exec fs_exec p c = (out, c') -> exists suf, c_trace c' = c_trace c ++ suf.
Proof.
  induction p as [a|e|cm k IH|n k IH|o k IH|]; intros c out c' HE; cbn [exec] in HE;
    try (inversion HE; subst; exists []; by rewrite app_nil_r).
  - apply IH in HE as (suf & ->). unfold do_cmd.
    destruct (exec_cmd cm (c_heap c)) as [h cbs]. cbn [c_trace].
    eexists. by rewrite <- app_assoc.
  - apply IH in HE as (suf & ->). cbn [c_trace]. eauto.
  - unfold settle in HE. cbn [c_world c_heap c_trace] in HE.
    destruct (fs_exec o (c_world c)) as [r w1].
    apply IH in HE as (suf & ->). cbn [c_trace]. eexists. by rewrite <- !app_assoc.
Qed.

Lemma exec_for_each_resolved {A : Type} (body : A -> proc unit) (l : list A) :
  forall (c : config) c',
    exec fs_exec (for_each l body) c = (Resolved tt, c') ->
    forall x, x ∈ l ->
      exists c1 c2 suf,
        exec fs_exec (body x) c1 = (Resolved tt, c2) /\ c_trace c' = c_trace c2 ++ suf.
Proof.
  induction l as [|y l IH]; intros c c' HE x Hx; [by apply elem_of_nil in Hx|].
  cbn [for_each] in HE. rewrite exec_bind in HE.
  destruct (exec fs_exec (body y) c) as [[[]|e|] c1] eqn:Ey; try discriminate.
  apply elem_of_cons in Hx as [->|Hx].
  - apply exec_trace_grows in HE as (suf & Hs). eauto.
  - eapply IH; eauto.
Qed.

Lemma scan_dest_marks_all dest srcFiles destFiles (c : config) c' :
  exec fs_exec (scan_dest dest srcFiles destFiles) c = (Resolved tt, c') ->
  forall file, file ∈ destFiles -> file ∉ srcFiles ->
    EvDo (ExtraneousAdd (Path.join dest file)) ∈ c_trace c'.
Proof.
  intros HE file Hfile Hstale. unfold scan_dest in HE.
  destruct (exec_for_each_resolved _ _ _ _ HE file Hfile) as (c1 & c2 & suf & Hb & ->).
  unfold indexOf_lt0 in Hb. rewrite bool_decide_eq_false_2 in Hb by exact Hstale.
  cbn [negb] in Hb. rewrite exec_bind, exec_stmt in Hb.
  apply exec_trace_grows in Hb as (suf' & ->).
  unfold do_cmd. cbn [exec_cmd c_trace map].
  rewrite !elem_of_app, elem_of_cons. auto.
Qed.

End BuildStale.



(** X12. symlink does nothing when the link is already right: when the
    destination is a symbolic link that exists and realpath resolves it to
    the source, symlink returns after these three reads; it unlinks
    nothing and creates nothing. *)
Theorem X12_symlink_keeps_a_link_that_is_right {World : Type}
    (fs_exec : op -> World -> resp * World)
    (win32 : bool) (rel : string -> string -> string) (dn : string -> string)
    (fuel : nat) (src dest : string) (c : config) (st : Stats) (w' : World) :
  let script :=
    [(Lstat dest, RStats st); (Exists dest, RBool true); (Realpath dest, RString src)] in
  isSymbolicLink st = true ->
  settles fs_exec (c_world c) script w' ->
  exec fs_exec (symlink win32 rel dn (S fuel) src dest) c
  = (Resolved tt, mkConfig (c_heap c) w' (c_trace c ++ script_events script)).
Proof.
  intros script Hk Hrun. subst script. cbn [settles] in Hrun.
  destruct Hrun as (w1 & H1 & w2 & H2 & w3 & H3 & ->).
  cbn [symlink]. rewrite exec_bind. unfold symlink_clear.
  rewrite exec_try_catch, exec_bind, (exec_lstat fs_exec _ _ st w1) by exact H1.
  rewrite Hk, exec_bind, (exec_exists fs_exec _ _ true w2) by exact H2.
  rewrite exec_bind, exec_bind, (exec_realpath fs_exec _ _ src w3) by exact H3.
  cbn [exec]. rewrite String.eqb_refl. cbn [exec].
  unfold settled. cbn [c_heap c_trace script_events flat_map fst snd app].
  by rewrite <- !app_assoc.
Qed.

Lemma X12_witness :
  exec Sim.fs_exec (symlink false Racy.relative Racy.dirname 1 "s" "d")
    (mkConfig (initial_heap [] None) X12_tree [])
  = (Resolved tt,
     mkConfig (initial_heap [] None) X12_tree
       ([] ++ script_events
          [(Lstat "d", RStats (mkStats 41471 0 0 0)); (Exists "d", RBool true);
           (Realpath "d", RString "s")])).
Proof.
  apply (X12_symlink_keeps_a_link_that_is_right Sim.fs_exec false Racy.relative
           Racy.dirname 0 "s" "d" (mkConfig (initial_heap [] None) X12_tree [])
           (mkStats 41471 0 0 0) X12_tree).
  - reflexivity.
  - repeat (eexists; split; [reflexivity|]). reflexivity.
Defined.

(** X13. symlink replaces what is in the way: when nothing is at the
    destination (lstat fails with ENOENT), or what is there is not a link,
    or is a link that does not exist behind or resolves elsewhere than to
    the source, symlink unlinks the destination (nothing, in the first
    case) and only then calls the creation; an ENOENT of the unlink itself
    is passed over.  The creation succeeding, symlink resolves. *)
Theorem X13_symlink_clears_the_destination_first {World : Type}
    (fs_exec : op -> World -> resp * World)
    (win32 : bool) (rel : string -> string -> string) (dn : string -> string)
    (fuel : nat) (src dest : string) (c : config) (script : list (op * resp))
    (w1 w2 : World) :
  let create := create_op win32 rel dn src dest in
  in_the_way src dest script ->
  settles fs_exec (c_world c) script w1 ->
  fs_exec create w1 = (RUnit, w2) ->
  exec fs_exec (symlink win32 rel dn (S fuel) src dest) c
  = (Resolved tt,
     mkConfig (c_heap c) w2 (c_trace c ++ script_events (script ++ [(create, RUnit)]))).
Proof.
  intros create Hway Hrun Hcreate. cbn [symlink].
  rewrite exec_bind, (symlink_clear_in_the_way fs_exec src dest script c w1 Hway Hrun).
  rewrite exec_try_catch, symlink_create_op. fold create.
  rewrite (exec_await_unit fs_exec _ _ w2) by exact Hcreate.
  unfold settled, script_events. cbn [c_heap c_trace].
  rewrite flat_map_app. cbn [flat_map fst snd app]. by rewrite <- app_assoc.
Qed.

Lemma X13_witness :
  exec Sim.fs_exec (symlink false Racy.relative Racy.dirname 1 "s" "d")
    (mkConfig (initial_heap [] None) X13_tree [])
  = (Resolved tt,
     mkConfig (initial_heap [] None) [("s", Ex.dir); ("d", Ex.link "s")]
       ([] ++ script_events
          ([(Lstat "d", RStats (mkStats 33188 2 0 7)); (Unlink "d", RUnit)]
           ++ [(FsSymlink "s" "d" None, RUnit)]))).
Proof.
  apply (X13_symlink_clears_the_destination_first Sim.fs_exec false Racy.relative
           Racy.dirname 0 "s" "d" (mkConfig (initial_heap [] None) X13_tree [])
           [(Lstat "d", RStats (mkStats 33188 2 0 7)); (Unlink "d", RUnit)]
           [("s", Ex.dir)] [("s", Ex.dir); ("d", Ex.link "s")]).
  - right. exists (mkStats 33188 2 0 7), [], RUnit. split; [reflexivity|].
    split; [by left|]. left. split; reflexivity.
  - repeat (eexists; split; [reflexivity|]). reflexivity.
  - reflexivity.
Defined.

(** X14. While buildActionsForCopy runs, never more than four primitives
    are pending at a time: the walk takes the queue four items at a time
    and waits for all four before it takes the next, and the deletion pass
    unlinks one path after the other. *)
Theorem X14_planner_has_at_most_four_primitives_pending {World : Type}
    (fs_exec : op -> World -> resp * World) (pick : nat -> nat)
    (fuel : nat) (q : list request) (seed : option (list string)) (w : World)
    (out : outcome (list action)) (c : config) :
  buildActionsForCopy fs_exec pick fuel q seed w = (out, c) ->
  pending_le 4 0 (c_trace c)
  /\ forall acts, out = Resolved acts -> balance 0 (c_trace c) = 0%nat.
Proof.
  intros HB. destruct (buildActionsForCopy_bound _ _ _ _ _ _ _ _ HB) as [[Hp Hb]|[Hp Hn]].
  - auto.
  - split; [exact Hp|]. intros acts ->. by destruct (Hn acts).
Qed.

Lemma X14_witness :
  pending_le 4 0 (c_trace (snd X14_run))
  /\ forall acts, fst X14_run = Resolved acts -> balance 0 (c_trace (snd X14_run)) = 0%nat.
Proof.
  apply (X14_planner_has_at_most_four_primitives_pending Sim.fs_exec Sim.fifo 30
           [Ex.top "s" "d"] None X14_tree (fst X14_run) (snd X14_run)).
  vm_compute. reflexivity.
Defined.

(** In the run of the witness four primitives are pending at a time, and
    three would not be enough. *)
Lemma four_are_pending : ~ pending_le 3 0 (c_trace (snd X14_run)).
Proof. vm_compute. intuition lia. Qed.

(** X15. The progress calls of the executor (line 257).  The plan being
    [acts]: each call events.onProgress(dest) that copyBulk makes from its
    file pool comes after the bytes of a file action of the plan for that
    destination were piped and, after that, its times were set, both
    without error; and when copyBulk resolves, the file pool has made
    exactly one such call for each file action of the plan, and none for a
    symlink action. *)
Theorem X15_progress_is_called_once_per_copied_file {World : Type}
    (fs_exec : op -> World -> resp * World) (pick : nat -> nat)
    (fuel : nat) (q : list request) (seed : option (list string)) (w : World)
    (out : outcome unit) (c : config) (acts : list action) (cp : config) :
  copyBulk fs_exec pick fuel q seed w = (out, c) ->
  buildActionsForCopy fs_exec pick fuel q seed w = (Resolved acts, cp) ->
  (forall pre d post,
     c_trace c = pre ++ EvDo (CallProgress d) :: post -> completed acts d pre)
  /\ (out = Resolved tt ->
      progress_calls (c_trace c)
      = length (filter (fun a => is_file_action a = true) acts)).
Proof.
  intros HC HB.
  cut (reported acts [] (c_trace c)
       /\ (out = Resolved tt ->
           progress_calls (c_trace c)
           = length (filter (fun a => is_file_action a = true) acts))).
  { intros [Hrep Hcount]. split; [|exact Hcount].
    intros pre d post Heq. eapply reported_split; eauto. }
  revert HC HB.
  unfold copyBulk. intros HC HB. rewrite HB in HC.
  destruct (buildActionsForCopy_trace _ _ _ _ _ _ _ _ HB) as (tr_plan & Htr & Hplan).
  unfold promise_queue in HC. cbn [default] in HC.
  set (c1 := do_cmd (CallStart (Z.of_nat (length acts))) cp) in *.
  assert (Hq : Forall (fun e => is_progress_call e = false) (c_trace c1)).
  { change (c_trace c1) with (c_trace cp ++ start_events (length acts)).
    rewrite Htr. rewrite !Forall_app. split; [split|]; [by repeat constructor| |by repeat constructor].
    eapply Forall_impl; [exact Hplan|]. apply plan_ev_no_progress. }
  destruct (run_pool fs_exec pick fuel _ (map copy_file _) [] c1) as [of_ cf] eqn:EF.
  apply (file_pool_progress fs_exec pick) in EF as [Hrep Hcount]; [|by apply reported_none].
  rewrite (progress_calls_none _ Hq) in Hcount.
  destruct of_ as [u|e|]; try (inversion HC; subst; split; [exact Hrep|discriminate]).
  destruct (link_pool_trace _ _ _ _ _ _ _ _ HC) as (tr_links & Hl & Hlev).
  assert (Hql : Forall (fun e => is_progress_call e = false) tr_links)
    by (eapply Forall_impl; [exact Hlev|]; apply link_ev_no_progress).
  rewrite Hl. split.
  - apply reported_app. split; [exact Hrep|]. by apply reported_none.
  - intros _. rewrite progress_calls_app, (progress_calls_none _ Hql).
    destruct u. rewrite Hcount by reflexivity. lia.
Qed.

Lemma X15_witness :
  (forall pre d post,
     c_trace (snd X15_run) = pre ++ EvDo (CallProgress d) :: post ->
     completed X15_acts d pre)
  /\ (fst X15_run = Resolved tt ->
      progress_calls (c_trace (snd X15_run))
      = length (filter (fun a => is_file_action a = true) X15_acts)).
Proof.
  apply (X15_progress_is_called_once_per_copied_file Sim.fs_exec Sim.fifo 20
           [Ex.top "s" "d"] None Ex.file_and_link (fst X15_run) (snd X15_run)
           X15_acts (snd X15_plan)).
  - vm_compute. reflexivity.
  - vm_compute. reflexivity.
Defined.

(** In the run of the witness copyBulk resolves and the plan has a file
    action and a symlink action: the file pool has called onProgress once. *)
Lemma one_progress_call_for_one_file :
  fst X15_run = Resolved tt /\ length X15_acts = 2%nat
  /\ progress_calls (c_trace (snd X15_run)) = 1%nat.
Proof. vm_compute. auto. Qed.



(** X17. A source that cannot be read fails the whole call before anything
    is written.  When the lstat of the one submitted source fails,
    copyBulk is rejected with that error; by then onStart(1) was called,
    the destination was marked as seen and lstat was called once: no other
    primitive is called, no action is planned, and no seeded extraneous
    path is deleted. *)
Theorem X17_missing_source_rejects_before_any_write {World : Type}
    (fs_exec : op -> World -> resp * World) (pick : nat -> nat)
    (fuel : nat) (data : request) (seed : option (list string)) (w : World)
    (code : string) (w' : World) :
  (1 <= fuel)%nat ->
  fs_exec (Lstat (src data)) w = (RErr code, w') ->
  exists c,
    copyBulk fs_exec pick fuel [data] seed w = (Rejected (FsError code), c)
    /\ c_world c = w'
    /\ actions (c_heap c) = []
    /\ c_trace c =
         [EvDo (CallStart 1); EvCall (OnStart 1); EvDo (FilesAdd (dest data));
          EvAwait (Lstat (src data)); EvIO (Lstat (src data)) (RErr code)].
Proof.
  intros Hfuel HL.
  set (c1 := mkConfig (set_queue [] (initial_heap [data] seed)) w (start_events 1)).
  destruct fuel as [|fuel]; [lia|].
  pose proof (build_missing_source fs_exec fuel (top_item data) c1 code w' HL) as HB.
  assert (Hn : (awaits_along fs_exec (build (S fuel) (top_item data)) c1 <= S fuel)%nat).
  { rewrite (awaits_of_run fs_exec _ _ _ _ _ HB eq_refl).
    change (awaits_in _) with 1%nat. lia. }
  unfold copyBulk, buildActionsForCopy.
  rewrite (plan_walk_one fs_exec pick (S fuel) data seed w _ _ Hfuel Hn HB) by reflexivity.
  eexists. split; [reflexivity|]. repeat split.
Qed.

Lemma X17_witness :
  exists c,
    copyBulk Sim.fs_exec Sim.fifo 1 [Ex.top "missing" "d/a"] (Some ["d/old"])
      Ex.with_extraneous
    = (Rejected (FsError "ENOENT"), c)
    /\ c_world c = Ex.with_extraneous
    /\ actions (c_heap c) = []
    /\ c_trace c =
         [EvDo (CallStart 1); EvCall (OnStart 1); EvDo (FilesAdd "d/a");
          EvAwait (Lstat "missing"); EvIO (Lstat "missing") (RErr "ENOENT")].
Proof.
  apply (X17_missing_source_rejects_before_any_write Sim.fs_exec Sim.fifo 1
           (Ex.top "missing" "d/a") (Some ["d/old"]) Ex.with_extraneous "ENOENT"
           Ex.with_extraneous).
  - lia.
  - reflexivity.
Defined.

(** X18. One new regular file, from the call to the end.  For one
    submitted request whose source is a regular file and whose destination
    does not exist, with no extraneous paths seeded and the two writes
    succeeding, copyBulk resolves after exactly these steps, in this
    order: onStart(1); lstat of the source and the check of the
    destination; onFresh, the file action, and onProgress(dest) through
    the request's onDone, all before a byte is copied; onStart(1) again;
    the piping of the file with the source's mode, utimes with the
    source's times, and onProgress(dest) a second time. *)
Theorem X18_one_new_file_from_call_to_end {World : Type}
    (fs_exec : op -> World -> resp * World) (pick : nat -> nat)
    (fuel : nat) (data : request) (w : World) (s : Stats) (w' : World) :
  let from := src data in
  let into := dest data in
  let a := FileAction from into (st_atime s) (st_mtime s) (st_mode s) in
  let checks := [(Lstat from, RStats s); (Exists into, RBool false)] in
  let writes := [(StreamCopy from into (st_mode s), RUnit);
                 (Utimes into (st_atime s) (st_mtime s), RUnit)] in
  (2 <= fuel)%nat ->
  isFile s = true ->
  settles fs_exec w (checks ++ writes) w' ->
  exists c,
    copyBulk fs_exec pick fuel [data] None w = (Resolved tt, c)
    /\ c_world c = w'
    /\ actions (c_heap c) = [a]
    /\ c_trace c =
         start_events 1
         ++ EvDo (FilesAdd into) :: script_events checks
         ++ fresh_events (onFresh data)
         ++ [EvDo (ActionsPush a);
             EvDo (CallDone (DoneProgress into)); EvCall (OnProgress into)]
         ++ start_events 1
         ++ script_events writes
         ++ [EvDo (CallProgress into); EvCall (OnProgress into)].
Proof.
  intros from into a checks writes Hfuel Hs Hrun.
  set (c1 := mkConfig (set_queue [] (initial_heap [data] None)) w (start_events 1)).
  destruct fuel as [|fuel]; [lia|].
  subst checks writes. cbn [app settles] in Hrun.
  destruct Hrun as (w1 & H1 & w2 & H2 & Hrun).
  assert (Hchecks : settles fs_exec (c_world c1)
            [(Lstat (src (top_item data)), RStats s);
             (Exists (dest (top_item data)), RBool false)] w2).
  { exists w1. split; [exact H1|]. exists w2. split; [exact H2|reflexivity]. }
  pose proof (build_new_file fs_exec fuel (top_item data) c1 s w2 Hs Hchecks) as HB.
  cbn [top_item src dest onFresh onDone] in HB. fold from into a in HB.
  set (c2 := do_cmd (CallDone (DoneProgress into)) _) in HB.
  set (tr2 := EvDo (FilesAdd into)
              :: script_events [(Lstat from, RStats s); (Exists into, RBool false)]
              ++ fresh_events (onFresh data)
              ++ [EvDo (ActionsPush a);
                  EvDo (CallDone (DoneProgress into)); EvCall (OnProgress into)]).
  assert (Hc2 : queue (c_heap c2) = [] /\ possibleExtraneous (c_heap c2) = []
                /\ actions (c_heap c2) = [a] /\ c_world c2 = w2
                /\ c_trace c2 = start_events 1 ++ tr2).
  { subst c2 tr2. destruct (onFresh data); repeat split. }
  destruct Hc2 as (Hq2 & Hx2 & Ha2 & Hw2 & Ht2).
  assert (Hn : (awaits_along fs_exec (build (S fuel) (top_item data)) c1 <= S fuel)%nat).
  { rewrite (awaits_of_run fs_exec _ _ _ _ tr2 HB Ht2). subst tr2.
    destruct (onFresh data); change (awaits_in _) with 2%nat; lia. }
  unfold copyBulk, buildActionsForCopy.
  rewrite (plan_walk_one fs_exec pick (S fuel) data None w _ _ ltac:(lia) Hn HB Hq2).
  rewrite Hx2. cbn [remove_extraneous exec]. rewrite Ha2.
  set (c3 := do_cmd (CallStart (Z.of_nat (length [a]))) c2).
  change (filter (fun x => is_file_action x = true) [a]) with [a].
  change (filter (fun x => is_symlink_action x = true) [a]) with (@nil action).
  unfold promise_queue. cbn [default map length].
  assert (Hwrites : settles fs_exec (c_world c3)
            [(StreamCopy from into (st_mode s), RUnit);
             (Utimes into (st_atime s) (st_mtime s), RUnit)] w')
    by (change (c_world c3) with (c_world c2); rewrite Hw2; exact Hrun).
  pose proof (exec_copy_file fs_exec from into (st_atime s) (st_mtime s) (st_mode s) c3 w' Hwrites)
    as HF.
  rewrite (run_pool_single fs_exec pick _ _ (S fuel) c3).
  - fold a in HF. rewrite HF, run_pool_nil.
    eexists. split; [reflexivity|]. cbn [c_world c_heap c_trace].
    split; [reflexivity|]. split; [exact Ha2|].
    change (c_trace c3) with (c_trace c2 ++ start_events 1).
    rewrite Ht2. subst tr2. destruct (onFresh data); reflexivity.
  - cbv. lia.
  - pose proof (awaits_of_run fs_exec _ _ _ _ _ HF eq_refl) as HA.
    change (awaits_in _) with 2%nat in HA. fold a in HA. rewrite HA. lia.
Qed.

Lemma X18_witness :
  let a := FileAction "s/a" "d/a" 0 7 33188 in
  exists c,
    X18_run = (Resolved tt, c)
    /\ c_world c = Ex.two_files ++ [("d/a", Ex.file 420 2 7 "hi")]
    /\ actions (c_heap c) = [a]
    /\ c_trace c =
         start_events 1
         ++ EvDo (FilesAdd "d/a")
            :: script_events [(Lstat "s/a", RStats (mkStats 33188 2 0 7));
                              (Exists "d/a", RBool false)]
         ++ fresh_events (Some 1%nat)
         ++ [EvDo (ActionsPush a);
             EvDo (CallDone (DoneProgress "d/a")); EvCall (OnProgress "d/a")]
         ++ start_events 1
         ++ script_events [(StreamCopy "s/a" "d/a" 33188, RUnit);
                           (Utimes "d/a" 0 7, RUnit)]
         ++ [EvDo (CallProgress "d/a"); EvCall (OnProgress "d/a")].
Proof.
  apply (X18_one_new_file_from_call_to_end Sim.fs_exec Sim.fifo 2 (Ex.top "s/a" "d/a")
           Ex.two_files (mkStats 33188 2 0 7)
           (Ex.two_files ++ [("d/a", Ex.file 420 2 7 "hi")])).
  - lia.
  - reflexivity.
  - vm_compute. repeat (eexists; split; [reflexivity|]). reflexivity.
Defined.
